(** * The USTSA points calculator: a shallow embedding of [points.py]

    The script computes a points list for a season of timed races.  This
    development embeds its scoring engine (classes [RaceType], [Racer],
    [Result], [Race]), the loading of last season's archive, the evaluation
    of the time fields of the results table and the construction of the
    archive object for the next season, and proves the properties the
    design document states about them.

    Modelling decisions.

    - Numbers.  The script computes with [decimal.Decimal] at a precision of
      64 significant digits.  Finite decimals are embedded as rationals [Q]
      with exact arithmetic: the rounding of a quotient or product to 64
      digits is not part of the model, and neither are the special values
      NaN and -Infinity.  The one special value the script itself creates,
      [Decimal("inf")] in [Race.best_time], is kept ([xdec]).
    - Exceptions.  The operations the script can fail in (division by a zero
      best time, adding a string penalty to a decimal, a bad key or index)
      return [Raise e]; everything that can fail lives in the monad [Comp].
    - Mutable state.  The memo fields of the [Race] objects and the global
      dictionary [zeroes] form the [world] threaded through [Comp].  A [Result]
      refers to its race by its index in the global list [races] (object
      identity in the script).  The global list [racers] is a section
      variable: the script rebinds it once, when it sorts the roster.
    - Text.  A decimal written to the archive by [str] and read back by
      [Decimal(str(val))] is identified with the decimal itself (the
      conversion is lossless in Python), so the leaves of an archive object
      are numbers.  The conversion of a time field, [Decimal(time)], is a
      parameter of the loading section. *)

From Stdlib Require Import Ascii String QArith Qminmax Lqa Lia.
From Stdlib Require Import Sorted Permutation.
From stdpp Require Import gmap strings list fin_maps.

Local Open Scope Q_scope.

(** ** Decimals *)

(** [x < y] on decimals, as a boolean. *)
Definition Qltb (x y : Q) : bool :=
  match x ?= y with Lt => true | _ => false end.

(** A decimal or [Decimal("inf")]. *)
Inductive xdec : Type :=
| Fin (d : Q)
| Inf.

(** [t < b] for a finite [t]. *)
Definition xltb (t : Q) (b : xdec) : bool :=
  match b with
  | Fin d => Qltb t d
  | Inf => true
  end.

(** Python's [min(a, b)]: the first argument unless the second is smaller. *)
Definition pymin (a b : Q) : Q := if Qltb b a then b else a.

(** Python's [sum] over decimals: a left fold from (the integer) zero. *)
Definition pysum (l : list Q) : Q := fold_left Qplus l 0.

(** [list.sort()] and [sorted(. , key=...)]: a stable sort that compares
    keys with [<] only.  Insertion from the right keeps equal keys in their
    input order. *)
Section Sorting.
Context {X : Type} (key : X -> Q).

Fixpoint insert_by (x : X) (l : list X) : list X :=
  match l with
  | [] => [x]
  | y :: l' => if Qltb (key y) (key x) then y :: insert_by x l'
               else x :: y :: l'
  end.

Definition sort_by (l : list X) : list X := foldr insert_by [] l.

(** The order a sorted list is in. *)
Definition key_le (x y : X) : Prop := key x <= key y.
End Sorting.

Definition pysort (l : list Q) : list Q := sort_by (fun x => x) l.

(** ** Exceptions and results *)

Inductive exn : Type :=
| DivisionByZero | InvalidOperation | TypeError
| KeyError | IndexError | ValueError | NameError | FileNotFoundError.

Inductive res (A : Type) : Type :=
| Ok (a : A)
| Raise (e : exn).
Arguments Ok {A} a.
Arguments Raise {A} e.

Definition res_bind {A B : Type} (m : res A) (k : A -> res B) : res B :=
  match m with
  | Ok a => k a
  | Raise e => Raise e
  end.

Definition is_Ok {A : Type} (m : res A) : bool :=
  match m with Ok _ => true | Raise _ => false end.

(** ** class RaceType (lines 23 to 47) *)

Inductive RaceType : Type := GS | SC | CL.

Definition RaceType_eqb (a b : RaceType) : bool :=
  match a, b with
  | GS, GS | SC, SC | CL, CL => true
  | _, _ => false
  end.

(** [for this in RaceType]: the members in definition order. *)
Definition all_RaceType : list RaceType := [GS; SC; CL].

Definition ffactor (self : RaceType) : Q :=
  match self with
  | GS => 660.0
  | SC | CL => 500.0
  end.

(** [this.name] and [RaceType[key]]. *)
Definition RaceType_name (self : RaceType) : string :=
  match self with GS => "GS" | SC => "SC" | CL => "CL" end.

Definition RaceType_of_name (key : string) : option RaceType :=
  if String.eqb key "GS" then Some GS
  else if String.eqb key "SC" then Some SC
  else if String.eqb key "CL" then Some CL
  else None.

(** ** class Gender (lines 60 to 80) *)

Inductive Gender : Type := M | F.

(** ** class Result (lines 117 to 174) *)

(** The three status tokens [Result.DNF], [Result.DNS], [Result.DSQ]. *)
Inductive token : Type := DNF | DNS | DSQ.

(** The value of the attribute [result]: [Result.FIN] or a token. *)
Inductive status : Type :=
| FIN
| Tok (t : token).

(** What [timeeval] hands to the constructor: [None], a decimal or a token. *)
Inductive timeval : Type :=
| TNone
| TDec (d : Q)
| TTok (t : token).

Record Result : Type := mkResult {
  _time : option Q;
  result : status;
  race : nat
}.

(** [Result.__init__(time, raceid)] once [races[raceid]] is known to exist;
    the loader never passes the third argument. *)
Definition Result_init (time : timeval) (raceid : nat) : Result :=
  match time with
  | TTok t => mkResult None (Tok t) raceid
  | TDec d => mkResult (Some d) FIN raceid
  | TNone => mkResult None FIN raceid
  end.

Definition finished (self : Result) : bool :=
  match result self, _time self with
  | Tok _, _ => false
  | FIN, None => false
  | FIN, Some _ => true
  end.

Definition started (self : Result) : bool :=
  match result self, _time self with
  | Tok DNS, _ => false
  | FIN, None => false
  | _, _ => true
  end.

Definition time (self : Result) : option Q :=
  if finished self then _time self else None.

(** ** class Racer (lines 82 to 115) *)

Record Racer : Type := mkRacer {
  name : string;
  results : list Result;
  gender : Gender;
  inj : bool
}.

(** ** class Race (lines 176 to 244) *)

(** A penalty is the decimal the race computes or whatever the constructor
    was given; the loader gives the third field of the header, a string. *)
Inductive pyval : Type :=
| VDec (d : Q)
| VStr (s : string).

Record Race : Type := mkRace {
  rtype : RaceType;
  rname : string;
  _sto_penalty : option pyval;
  _sto_B : option Q;
  _sto_C : option Q;
  stored_best : option xdec
}.

(** [Race.__init__(rtype, name, penalty=None)]. *)
Definition Race_init (rtype : RaceType) (name : string)
    (penalty : option pyval) : Race :=
  mkRace rtype name penalty None None None.

Definition set_stored_best (v : xdec) (r : Race) : Race :=
  mkRace (rtype r) (rname r) (_sto_penalty r) (_sto_B r) (_sto_C r) (Some v).

Definition set_sto_BC (b c : Q) (r : Race) : Race :=
  mkRace (rtype r) (rname r) (_sto_penalty r) (Some b) (Some c)
         (stored_best r).

Definition set_sto_penalty (v : pyval) (r : Race) : Race :=
  mkRace (rtype r) (rname r) (Some v) (_sto_B r) (_sto_C r) (stored_best r).

(** ** The mutable world and its monad *)

Record world : Type := mkWorld {
  races : list Race;
  zeroes : RaceType -> Q
}.

Definition Comp (A : Type) : Type := world -> res (A * world).

Definition ret {A : Type} (a : A) : Comp A := fun w => Ok (a, w).

Definition bind {A B : Type} (m : Comp A) (k : A -> Comp B) : Comp B :=
  fun w =>
    match m w with
    | Ok (a, w') => k a w'
    | Raise e => Raise e
    end.

Definition raise {A : Type} (e : exn) : Comp A := fun _ => Raise e.

Notation "'let*' x ':=' m 'in' k" := (bind m (fun x => k))
  (at level 10, x name, m at level 100, k at level 200).
Notation "'let*' ' p ':=' m 'in' k" :=
  (bind m (fun x => match x with p => k end))
  (at level 10, p pattern, m at level 100, k at level 200).

(** The value a computation returns, without the world. *)
Definition eval {A : Type} (m : Comp A) (w : world) : res A :=
  match m w with
  | Ok (a, _) => Ok a
  | Raise e => Raise e
  end.

Definition get_race (i : nat) : Comp Race :=
  fun w =>
    match races w !! i with
    | Some r => Ok (r, w)
    | None => Raise IndexError
    end.

Definition upd_race (i : nat) (f : Race -> Race) : Comp unit :=
  fun w => Ok (tt, mkWorld (alter f i (races w)) (zeroes w)).

Definition get_zero (rt : RaceType) : Comp Q :=
  fun w => Ok (zeroes w rt, w).

Definition upd_zero (rt : RaceType) (v : Q) (z : RaceType -> Q)
    : RaceType -> Q :=
  fun x => if RaceType_eqb x rt then v else z x.

Definition set_zero (rt : RaceType) (v : Q) : Comp unit :=
  fun w => Ok (tt, mkWorld (races w) (upd_zero rt v (zeroes w))).

(** A loop whose body runs in [Comp], collecting the values. *)
Fixpoint mapM {A B : Type} (f : A -> Comp B) (l : list A) : Comp (list B) :=
  match l with
  | [] => ret []
  | a :: l' => let* b := f a in let* bs := mapM f l' in ret (b :: bs)
  end.

(** A loop whose body updates an accumulator in [Comp]. *)
Fixpoint foldM {A B : Type} (f : B -> A -> Comp B) (acc : B) (l : list A)
    : Comp B :=
  match l with
  | [] => ret acc
  | a :: l' => let* acc' := f acc a in foldM f acc' l'
  end.

(** [zeroes = {this: this.ffactor for this in RaceType}] and the races as
    the loader constructed them. *)
Definition init_world (rs : list Race) : world := mkWorld rs ffactor.

(** Decimal division [t / b].  A zero divisor raises; a finite value over
    infinity is zero. *)
Definition dec_div (t : Q) (b : xdec) : res Q :=
  match b with
  | Inf => Ok 0
  | Fin d =>
      if Qeq_bool d 0
      then (if Qeq_bool t 0 then Raise InvalidOperation
            else Raise DivisionByZero)
      else Ok (t / d)
  end.

Definition lift {A : Type} (m : res A) : Comp A :=
  fun w => match m with Ok a => Ok (a, w) | Raise e => Raise e end.

(** ** The scoring engine *)

Section Scoring.
(** The globals [prevseason] (after the clamping loop), [lszeroes] and
    [racers]. *)
Variable prevseason : gmap string (RaceType -> Q).
Variable lszeroes : RaceType -> Q.
Variable racers : list Racer.

(** [for k in range(len(racers)): for j in range(len(racers[k].results))]
    visits the results in this order; the second list keeps the racer. *)
Definition all_results : list Result := flat_map results racers.

Definition roster : list (Racer * Result) :=
  flat_map (fun rc => map (pair rc) (results rc)) racers.

(** *** Race.best_time (lines 184 to 193) *)

(** The body of the loop, with [best] for [self.stored_best]. *)
Definition scan_step (i : nat) (best : xdec) (r : Result) : xdec :=
  match time r with
  | Some t => if (race r =? i)%nat && xltb t best then Fin t else best
  | None => best
  end.

Definition best_scan (i : nat) : xdec :=
  fold_left (scan_step i) all_results Inf.

Definition best_time (self : nat) : Comp xdec :=
  let* rc := get_race self in
  match stored_best rc with
  | Some b => ret b
  | None =>
      let b := best_scan self in
      let* _ := upd_race self (set_stored_best b) in
      ret b
  end.

(** *** Result.raw_points (lines 150 to 154) *)

Definition raw_points (self : Result) : Comp (option Q) :=
  match time self with
  | Some t =>
      let* b := best_time (race self) in
      let* q := lift (dec_div t b) in
      let* rc := get_race (race self) in
      ret (Some ((q - 1) * ffactor (rtype rc)))
  | None => ret None
  end.

(** *** Result.place (lines 155 to 164) *)

Definition time_ltb (a b : option Q) : bool :=
  match a, b with
  | Some x, Some y => Qltb x y
  | _, _ => false
  end.

(** The body of the loop. *)
Definition place_step (self : Result) (my_place : nat) (r : Result) : nat :=
  if (race r =? race self)%nat && finished r
     && time_ltb (time r) (time self)
  then S my_place else my_place.

Definition place (self : Result) : option nat :=
  if negb (finished self) then None
  else Some (fold_left (place_step self) all_results 1%nat).

(** *** Racer.ls (lines 91 to 95) *)

Definition ls (self : Racer) : RaceType -> Q :=
  match prevseason !! name self with
  | Some e => e
  | None => ffactor
  end.

(** *** Race.A (lines 201 to 211) *)

Definition points_start (i : nat) (rt : RaceType) : list Q :=
  map (fun p => ls (fst p) rt)
      (List.filter (fun p => (race (snd p) =? i)%nat && started (snd p))
                   roster).

Definition A (self : nat) : Comp Q :=
  let* rc := get_race self in
  ret (pysum (take 5 (pysort (points_start self (rtype rc))))).

(** *** Race.BC, Race.B, Race.C (lines 212 to 244) *)

Definition place_le_10 (r : Result) : bool :=
  match place r with
  | Some p => (p <=? 10)%nat
  | None => false
  end.

Definition tt_finish (i : nat) : list Racer :=
  map fst
      (List.filter (fun p => (race (snd p) =? i)%nat && finished (snd p)
                             && place_le_10 (snd p))
                   roster).

Definition points_finish (i : nat) (rt : RaceType) : list (Q * Result) :=
  flat_map
    (fun rc => map (fun r => (ls rc rt, r))
                   (List.filter (fun r => (race r =? i)%nat) (results rc)))
    (tt_finish i).

Definition BC (self : nat) : Comp (Q * Q) :=
  let* rc := get_race self in
  let pf := take 5 (sort_by fst (points_finish self (rtype rc))) in
  foldM
    (fun acc l =>
       let* rp := raw_points (snd l) in
       match rp with
       | Some p => ret (fst acc + fst l, snd acc + p)
       | None => raise TypeError
       end)
    (0, 0) pf.

Definition B (self : nat) : Comp Q :=
  let* rc := get_race self in
  match _sto_B rc with
  | Some b => ret b
  | None =>
      let* bc := BC self in
      let* _ := upd_race self (set_sto_BC (fst bc) (snd bc)) in
      ret (fst bc)
  end.

Definition C (self : nat) : Comp Q :=
  let* rc := get_race self in
  match _sto_C rc with
  | Some c => ret c
  | None =>
      let* bc := BC self in
      let* _ := upd_race self (set_sto_BC (fst bc) (snd bc)) in
      ret (snd bc)
  end.

(** *** Race.penalty (lines 194 to 200) *)

Definition penalty (self : nat) : Comp pyval :=
  let* rc := get_race self in
  match _sto_penalty rc with
  | Some v => ret v
  | None =>
      let* a := A self in
      let* b := B self in
      let* c := C self in
      let p := VDec ((a + b - c) / 10) in
      let* _ := upd_race self (set_sto_penalty p) in
      ret p
  end.

(** *** Result.points (lines 145 to 149) *)

Definition points (self : Result) : Comp (option Q) :=
  match time self with
  | Some _ =>
      let* rp := raw_points self in
      let* pen := penalty (race self) in
      match rp, pen with
      | Some p, VDec q => ret (Some (p + q))
      | _, _ => raise TypeError
      end
  | None => ret None
  end.

(** *** Racer.last_penalized (lines 111 to 115) *)

Definition last_penalized (self : Racer) (racetype : RaceType) : Q :=
  if inj self
  then pymin (1.22 * ls self racetype + 0.22 * lszeroes racetype)
             (ffactor racetype)
  else pymin (1.44 * ls self racetype + 0.44 * lszeroes racetype)
             (ffactor racetype).

(** *** Racer.best_two (lines 96 to 104) *)

(** The body of the loop over [self.results]. *)
Definition season_step (racetype : RaceType) (templist : list Q) (r : Result)
    : Comp (list Q) :=
  match time r with
  | Some _ =>
      let* rc := get_race (race r) in
      if RaceType_eqb (rtype rc) racetype
      then
        let* p := points r in
        match p with
        | Some v => ret (templist ++ [v])
        | None => raise TypeError
        end
      else ret templist
  | None => ret templist
  end.

Definition season_points (self : Racer) (racetype : RaceType)
    : Comp (list Q) :=
  foldM (season_step racetype) [] (results self).

Definition best_two (self : Racer) (racetype : RaceType) : Comp (list Q) :=
  let* templist := season_points self racetype in
  let lp := last_penalized self racetype in
  ret (take 2 (pysort (templist ++ [lp; lp]))).

(** *** Racer.best_avg (lines 105 to 110) *)

Definition best_avg (self : Racer) (racetype : RaceType) : Comp Q :=
  let* templist := best_two self racetype in
  match templist with
  | t0 :: t1 :: _ =>
      let avg := (t0 + t1) / 2 in
      let* z := get_zero racetype in
      let* _ := (if Qltb avg z then set_zero racetype avg else ret tt) in
      let* z' := get_zero racetype in
      ret (avg - z')
  | _ => raise IndexError
  end.

(** *** Racer.season_avg (lines 88 to 90) *)

Definition season_avg (self : Racer) : Comp Q :=
  let* l := mapM (best_avg self) all_RaceType in
  ret (pysum l / 3).
End Scoring.

(** ** The script after loading: warm-up, ranking, archive object *)

(** An archive object as [json] reads and writes it: racer name (or the
    reserved key) to category name to decimal. *)
Definition data_zeroes : string := "data-zeroes".

Section Season.
Variable prevseason : gmap string (RaceType -> Q).
Variable lszeroes : RaceType -> Q.

(** [for k in range(len(racers)): racers[k].season_avg] *)
Definition warm_up (racers : list Racer) : Comp unit :=
  foldM (fun _ rc =>
           let* _ := season_avg prevseason lszeroes racers rc in ret tt)
        tt racers.

(** [racers = sorted(racers, key=lambda l: l.season_avg)]: the keys are
    computed once per racer, in roster order, against the unsorted list. *)
Definition sort_racers (racers : list Racer) : Comp (list Racer) :=
  let* keys := mapM (season_avg prevseason lszeroes racers) racers in
  ret (map fst (sort_by snd (zip racers keys))).

(** [{this.name: str(racers[k].best_avg(this)) for this in RaceType}] *)
Definition racer_entry (racers : list Racer) (rc : Racer)
    : Comp (gmap string Q) :=
  let* e := mapM (fun this =>
                    let* v := best_avg prevseason lszeroes racers rc this in
                    ret (RaceType_name this, v))
                 all_RaceType in
  ret (list_to_map e).

(** [{this.name: str(this.zerofactor) for this in RaceType}] *)
Definition zeroes_entry : Comp (gmap string Q) :=
  let* e := mapM (fun this =>
                    let* z := get_zero this in ret (RaceType_name this, z))
                 all_RaceType in
  ret (list_to_map e).

Definition seasonobj (racers : list Racer)
    : Comp (gmap string (gmap string Q)) :=
  let* obj := foldM (fun obj rc =>
                       let* e := racer_entry racers rc in
                       ret (<[name rc := e]> obj))
                    ∅ racers in
  let* z := zeroes_entry in
  ret (<[data_zeroes := z]> obj).

(** Lines 313 to 324: the object handed to [json.dump]. *)
Definition season (racers : list Racer) : Comp (gmap string (gmap string Q)) :=
  let* _ := warm_up racers in
  let* sorted := sort_racers racers in
  seasonobj sorted.
End Season.

(** ** Loading last season's archive (lines 49 to 58) *)

(** [RaceType[key]] succeeds for every key of the entry. *)
Definition valid_entry (e : gmap string Q) : bool :=
  forallb (fun kv => match RaceType_of_name (fst kv) with
                     | Some _ => true
                     | None => false
                     end)
          (map_to_list e).

(** The entry after the loop [for rtype in RaceType]. *)
Definition clamp_entry (e : gmap string Q) : RaceType -> Q :=
  fun rtype =>
    match e !! RaceType_name rtype with
    | None => ffactor rtype
    | Some v => if Qltb (ffactor rtype) v then ffactor rtype else v
    end.

(** Lines 53 to 58: [prevseason] and [lszeroes]. *)
Definition load_prevseason (obj : gmap string (gmap string Q))
    : res (gmap string (RaceType -> Q) * (RaceType -> Q)) :=
  if forallb (fun kv => valid_entry (snd kv)) (map_to_list obj)
  then
    let prevseason := clamp_entry <$> obj in
    match prevseason !! data_zeroes with
    | Some z => Ok (prevseason, z)
    | None => Raise KeyError
    end
  else Raise KeyError.

(** ** Reading the results table (lines 263 to 311) *)

(** [':' in s], [s.partition(c)] (without the separator) and [s.split(c)]
    for a one-character separator. *)
Fixpoint str_contains (c : ascii) (s : string) : bool :=
  match s with
  | EmptyString => false
  | String a s' => if Ascii.eqb a c then true else str_contains c s'
  end.

Fixpoint str_partition (c : ascii) (s : string) : string * string :=
  match s with
  | EmptyString => (EmptyString, EmptyString)
  | String a s' =>
      if Ascii.eqb a c then (EmptyString, s')
      else let p := str_partition c s' in (String a (fst p), snd p)
  end.

Fixpoint str_split (c : ascii) (s : string) : list string :=
  match s with
  | EmptyString => [EmptyString]
  | String a s' =>
      if Ascii.eqb a c then EmptyString :: str_split c s'
      else match str_split c s' with
           | h :: t => String a h :: t
           | [] => [String a EmptyString]
           end
  end.

Section Loading.
(** [Decimal(s)] for a string: the decimal, or [None] where the
    constructor raises [InvalidOperation]. *)
Variable Decimal : string -> option Q.

Definition timeeval (time : string) : res timeval :=
  if String.eqb time "" then Ok TNone
  else
    match Decimal time with
    | Some d => Ok (TDec d)
    | None =>
        if str_contains ":" time then
          let p := str_partition ":" time in
          match Decimal (fst p) with
          | None => Raise InvalidOperation
          | Some minutes =>
              match Decimal (snd p) with
              | None => Raise InvalidOperation
              | Some seconds => Ok (TDec (60 * minutes + seconds))
              end
          end
        else if String.eqb time "DNF" then Ok (TTok DNF)
        else if String.eqb time "DNS" then Ok (TTok DNS)
        else if String.eqb time "DSQ" then Ok (TTok DSQ)
        else Raise ValueError
    end.

(** One item of the header row past the second column.  The [try] fails
    only for a missing third field; a missing or unknown category fails
    again in the handler. *)
Definition header_item (item : string) : res Race :=
  let field := str_split "#" item in
  match field !! 1%nat with
  | None => Raise IndexError
  | Some cat =>
      match RaceType_of_name cat with
      | None => Raise KeyError
      | Some rt =>
          let nm := match field !! 0%nat with Some n => n | None => "" end in
          match field !! 2%nat with
          | Some pen => Ok (Race_init rt nm (Some (VStr pen)))
          | None => Ok (Race_init rt nm None)
          end
      end
  end.

Fixpoint header_row (row : list string) (i : nat) : res (list Race) :=
  match row with
  | [] => Ok []
  | item :: row' =>
      if (1 <? i)%nat
      then res_bind (header_item item) (fun r =>
           res_bind (header_row row' (S i)) (fun rs => Ok (r :: rs)))
      else header_row row' (S i)
  end.

(** The variables the loop over the rows keeps from one row to the next. *)
Record loader : Type := mkLoader {
  l_races : list Race;
  l_racers : list Racer;
  thisname : option string;
  l_inj : option bool
}.

(** [Result(timeeval(item), i - 2)]; the constructor reads
    [races[raceid]]. *)
Definition row_item (st : loader) (item : string) (i : nat) : res Result :=
  res_bind (timeeval item) (fun t =>
    match l_races st !! (i - 2)%nat with
    | Some _ => Ok (Result_init t (i - 2))
    | None => Raise IndexError
    end).

(** The loop over the items of a racer's row: [thisname], [inj] and the
    results so far. *)
Fixpoint row_items (st : loader) (row : list string) (i : nat)
    (nm : option string) (ij : option bool) (rr : list Result)
    : res (option string * option bool * list Result) :=
  match row with
  | [] => Ok (nm, ij, rr)
  | item :: row' =>
      match i with
      | O => row_items st row' 1 (Some item) ij rr
      | S O => row_items st row' 2 nm (Some (String.eqb item "inj")) rr
      | _ => res_bind (row_item st item i) (fun r =>
               row_items st row' (S i) nm ij (rr ++ [r]))
      end
  end.

Definition racer_row (st : loader) (row : list string) : res loader :=
  res_bind (row_items st row 0 (thisname st) (l_inj st) []) (fun x =>
    match x with
    | (None, _, _) => Raise NameError
    | (Some nm, ij, rr) =>
        let p := str_partition "#" nm in
        match ij with
        | None => Raise NameError
        | Some b =>
            (* [gender is 'M']: the one-character string is the interned
               one *)
            let g := if String.eqb (snd p) "M" then M else F in
            Ok (mkLoader (l_races st)
                         (l_racers st ++ [mkRacer (fst p) rr g b])
                         (Some (fst p)) (Some b))
        end
    end).

Fixpoint racer_rows (st : loader) (rows : list (list string)) : res loader :=
  match rows with
  | [] => Ok st
  | row :: rows' => res_bind (racer_row st row) (fun st' =>
                      racer_rows st' rows')
  end.

(** Lines 281 to 311. *)
Definition load_results (rows : list (list string)) : res loader :=
  match rows with
  | [] => Ok (mkLoader [] [] None None)
  | header :: rows' =>
      res_bind (header_row header 0) (fun rs =>
        racer_rows (mkLoader rs [] None None) rows')
  end.

(** The script from line 47 to line 324.  [archive] is the content of
    last season's file, if the file exists; [rows] is what [csv.reader]
    yields.  [Ok obj]: the file of this season is written with [obj];
    [Raise e]: the script stopped before anything was written. *)
Definition script (archive : option (gmap string (gmap string Q)))
    (rows : list (list string)) : res (gmap string (gmap string Q)) :=
  match archive with
  | None => Raise FileNotFoundError
  | Some obj =>
      res_bind (load_prevseason obj) (fun ps =>
      res_bind (load_results rows) (fun st =>
        eval (season (fst ps) (snd ps) (l_racers st))
             (init_world (l_races st))))
  end.
End Loading.

(** ** How the world changes *)

(** What the memo fields of one race may do while a best time or the sums
    [B] and [C] are computed: the stored penalty stays, a stored best time
    stays once it is there. *)
Definition race_keeps (r r' : Race) : Prop :=
  rtype r' = rtype r /\
  _sto_penalty r' = _sto_penalty r /\
  (forall b, stored_best r = Some b -> stored_best r' = Some b).

(** What they may do in general: a stored penalty and a stored best time
    stay once they are there. *)
Definition race_grows (r r' : Race) : Prop :=
  rtype r' = rtype r /\
  (forall v, _sto_penalty r = Some v -> _sto_penalty r' = Some v) /\
  (forall b, stored_best r = Some b -> stored_best r' = Some b).

(** A relation on races lifted to worlds with the same zero factors. *)
Definition same_zeroes (R : Race -> Race -> Prop) (w w' : world) : Prop :=
  zeroes w' = zeroes w /\ Forall2 R (races w) (races w').

Definition keeps : world -> world -> Prop := same_zeroes race_keeps.
Definition grows : world -> world -> Prop := same_zeroes race_grows.

(** A relation on races lifted to worlds, whatever the zero factors do. *)
Definition races_grow (w w' : world) : Prop :=
  Forall2 race_grows (races w) (races w').

(** Every successful run of [m] relates the worlds before and after. *)
Definition frames {A : Type} (R : world -> world -> Prop) (m : Comp A) : Prop :=
  forall w v w', m w = Ok (v, w') -> R w w'.

(** *** Values read from the memo fields *)

(** The points of a result when its race has a best time and a penalty
    stored. *)
Definition points_memo (w : world) (r : Result) : option Q :=
  match time r, races w !! race r with
  | Some t, Some rc =>
      match stored_best rc, _sto_penalty rc with
      | Some b, Some (VDec p) =>
          match dec_div t b with
          | Ok q => Some ((q - 1) * ffactor (rtype rc) + p)
          | Raise _ => None
          end
      | _, _ => None
      end
  | _, _ => None
  end.

(** The season's points of a racer in a category, read from the memo
    fields; [None] when some value is not stored yet. *)
Fixpoint season_memo (w : world) (racetype : RaceType) (l : list Result)
    : option (list Q) :=
  match l with
  | [] => Some []
  | r :: l' =>
      match time r with
      | None => season_memo w racetype l'
      | Some _ =>
          match races w !! race r with
          | None => None
          | Some rc =>
              if RaceType_eqb (rtype rc) racetype
              then match points_memo w r, season_memo w racetype l' with
                   | Some p, Some ps => Some (p :: ps)
                   | _, _ => None
                   end
              else season_memo w racetype l'
          end
      end
  end.

(** The raw category average (the mean of [best_two]) of a racer, read from
    the memo fields. *)
Definition best_two_memo (prevseason : gmap string (RaceType -> Q))
    (lszeroes : RaceType -> Q) (w : world) (rc : Racer) (racetype : RaceType)
    : option (list Q) :=
  match season_memo w racetype (results rc) with
  | Some ps =>
      let lp := last_penalized prevseason lszeroes rc racetype in
      Some (take 2 (pysort (ps ++ [lp; lp])))
  | None => None
  end.

Definition avg_memo (prevseason : gmap string (RaceType -> Q))
    (lszeroes : RaceType -> Q) (w : world) (rc : Racer) (racetype : RaceType)
    : option Q :=
  match best_two_memo prevseason lszeroes w rc racetype with
  | Some (t0 :: t1 :: _) => Some ((t0 + t1) / 2)
  | _ => None
  end.

(** The world after [best_avg] has seen the average [avg]. *)
Definition lower_zero (racetype : RaceType) (avg : Q) (w : world) : world :=
  if Qltb avg (zeroes w racetype)
  then mkWorld (races w) (upd_zero racetype avg (zeroes w))
  else w.

(** ** Zero factors over a run *)

Section Run.
Variable prevseason : gmap string (RaceType -> Q).
Variable lszeroes : RaceType -> Q.

(** The raw category average of the design document: the first two lines
    of [best_avg], the mean of [best_two], before any zero factor. *)
Definition category_average (racers : list Racer) (self : Racer)
    (racetype : RaceType) : Comp Q :=
  let* templist := best_two prevseason lszeroes racers self racetype in
  match templist with
  | t0 :: t1 :: _ => ret ((t0 + t1) / 2)
  | _ => raise IndexError
  end.

(** One evaluation, by anyone and against any binding of [racers], of a
    property or method of the scoring engine that returns. *)
Inductive evaluation (w w' : world) : Prop :=
| eval_best_time R i v :
    best_time R i w = Ok (v, w') -> evaluation w w'
| eval_raw_points R r v :
    raw_points R r w = Ok (v, w') -> evaluation w w'
| eval_A R i v :
    A prevseason R i w = Ok (v, w') -> evaluation w w'
| eval_BC R i v :
    BC prevseason R i w = Ok (v, w') -> evaluation w w'
| eval_B R i v :
    B prevseason R i w = Ok (v, w') -> evaluation w w'
| eval_C R i v :
    C prevseason R i w = Ok (v, w') -> evaluation w w'
| eval_penalty R i v :
    penalty prevseason R i w = Ok (v, w') -> evaluation w w'
| eval_points R r v :
    points prevseason R r w = Ok (v, w') -> evaluation w w'
| eval_best_two R rc rt v :
    best_two prevseason lszeroes R rc rt w = Ok (v, w') -> evaluation w w'
| eval_best_avg R rc rt v :
    best_avg prevseason lszeroes R rc rt w = Ok (v, w') -> evaluation w w'
| eval_season_avg R rc v :
    season_avg prevseason lszeroes R rc w = Ok (v, w') -> evaluation w w'.

(** The worlds a run goes through after loading the races [rs]. *)
Definition reachable (rs : list Race) (w : world) : Prop :=
  rtc evaluation (init_world rs) w.

(** The memo holds the racer's raw average in the category, and the zero
    factor is not above it. *)
Definition settled (w : world) (rc : Racer) (racetype : RaceType) : Prop :=
  exists avg, avg_memo prevseason lszeroes w rc racetype = Some avg /\
              zeroes w racetype <= avg.

(** The zero-adjusted averages of a racer whose averages are settled. *)
Definition best_avg_memo (w : world) (rc : Racer) (racetype : RaceType) : Q :=
  match avg_memo prevseason lszeroes w rc racetype with
  | Some avg => avg - zeroes w racetype
  | None => 0
  end.

Definition season_avg_memo (w : world) (rc : Racer) : Q :=
  pysum (map (best_avg_memo w rc) all_RaceType) / 3.

(** The memo fields grow and no zero factor rises. *)
Definition descends (w w' : world) : Prop :=
  races_grow w w' /\ forall rt, zeroes w' rt <= zeroes w rt.

(** The zero factor of a category is where it was in [w], or it is the raw
    average of one of the racers of [l]. *)
Definition attained (l : list Racer) (w w' : world) (racetype : RaceType)
    : Prop :=
  zeroes w' racetype = zeroes w racetype \/
  exists rc, In rc l /\
    avg_memo prevseason lszeroes w' rc racetype = Some (zeroes w' racetype).
End Run.

(** ** The values behind the memo fields *)

Fixpoint res_foldM {A B : Type} (f : B -> A -> res B) (acc : B) (l : list A)
    : res B :=
  match l with
  | [] => Ok acc
  | a :: l' => res_bind (f acc a) (fun acc' => res_foldM f acc' l')
  end.

(** What each operation of the engine returns, as a function of the loaded
    data alone: the roster [racers] and the races [rs] as constructed. *)
Section Values.
Variable prevseason : gmap string (RaceType -> Q).
Variable lszeroes : RaceType -> Q.
Variable racers : list Racer.
Variable rs : list Race.

Definition best_time_value (i : nat) : res xdec :=
  match rs !! i with
  | Some _ => Ok (best_scan racers i)
  | None => Raise IndexError
  end.

Definition raw_points_value (r : Result) : res (option Q) :=
  match time r with
  | Some t =>
      match rs !! race r with
      | Some rc =>
          res_bind (dec_div t (best_scan racers (race r))) (fun q =>
            Ok (Some ((q - 1) * ffactor (rtype rc))))
      | None => Raise IndexError
      end
  | None => Ok None
  end.

Definition A_value (i : nat) : res Q :=
  match rs !! i with
  | Some rc =>
      Ok (pysum (take 5 (pysort (points_start prevseason racers i (rtype rc)))))
  | None => Raise IndexError
  end.

Definition BC_step_value (acc : Q * Q) (l : Q * Result) : res (Q * Q) :=
  res_bind (raw_points_value (snd l)) (fun rp =>
    match rp with
    | Some p => Ok (fst acc + fst l, snd acc + p)
    | None => Raise TypeError
    end).

Definition BC_value (i : nat) : res (Q * Q) :=
  match rs !! i with
  | Some rc =>
      res_foldM BC_step_value (0, 0)
        (take 5 (sort_by fst (points_finish prevseason racers i (rtype rc))))
  | None => Raise IndexError
  end.

Definition penalty_value (i : nat) : res pyval :=
  match rs !! i with
  | Some rc =>
      match _sto_penalty rc with
      | Some v => Ok v
      | None =>
          res_bind (A_value i) (fun a =>
          res_bind (BC_value i) (fun bc =>
            Ok (VDec ((a + fst bc - snd bc) / 10))))
      end
  | None => Raise IndexError
  end.

Definition points_value (r : Result) : res (option Q) :=
  match time r with
  | Some _ =>
      res_bind (raw_points_value r) (fun rp =>
      res_bind (penalty_value (race r)) (fun pen =>
        match rp, pen with
        | Some p, VDec q => Ok (Some (p + q))
        | _, _ => Raise TypeError
        end))
  | None => Ok None
  end.

Definition season_step_value (racetype : RaceType) (templist : list Q)
    (r : Result) : res (list Q) :=
  match time r with
  | Some _ =>
      match rs !! race r with
      | Some rc =>
          if RaceType_eqb (rtype rc) racetype
          then res_bind (points_value r) (fun p =>
                 match p with
                 | Some v => Ok (templist ++ [v])
                 | None => Raise TypeError
                 end)
          else Ok templist
      | None => Raise IndexError
      end
  | None => Ok templist
  end.

Definition best_two_value (rc : Racer) (racetype : RaceType)
    : res (list Q) :=
  res_bind (res_foldM (season_step_value racetype) [] (results rc))
    (fun templist =>
       let lp := last_penalized prevseason lszeroes rc racetype in
       Ok (take 2 (pysort (templist ++ [lp; lp])))).

(** The memo fields of race [i] hold nothing but these values. *)
Definition race_ok (i : nat) (r0 r : Race) : Prop :=
  rtype r = rtype r0 /\
  (forall b, stored_best r = Some b -> b = best_scan racers i) /\
  (forall b, _sto_B r = Some b ->
     exists c, BC_value i = Ok (b, c) /\ _sto_C r = Some c) /\
  (forall c, _sto_C r = Some c ->
     exists b, BC_value i = Ok (b, c) /\ _sto_B r = Some b) /\
  (forall v, _sto_penalty r = Some v -> penalty_value i = Ok v) /\
  (forall v, _sto_penalty r0 = Some v -> _sto_penalty r = Some v).

Definition memo_ok (w : world) : Prop :=
  length (races w) = length rs /\
  forall i r0 r, rs !! i = Some r0 -> races w !! i = Some r -> race_ok i r0 r.

(** [m] returns what [value] says, or raises as [value] does, and keeps the
    memo fields right. *)
Definition sound {A : Type} (m : Comp A) (value : res A) : Prop :=
  forall w, memo_ok w ->
    match value with
    | Ok v => exists w', m w = Ok (v, w') /\ memo_ok w'
    | Raise e => m w = Raise e
    end.
End Values.

(** A race as [Race.__init__] leaves it. *)
Definition fresh (r : Race) : bool :=
  match _sto_B r, _sto_C r, stored_best r with
  | None, None, None => true
  | _, _, _ => false
  end.

(** ** Runs against one roster *)

(** One evaluation against the roster [racers]. *)
Inductive evaluation_on (prevseason : gmap string (RaceType -> Q))
    (lszeroes : RaceType -> Q) (racers : list Racer) (w w' : world) : Prop :=
| on_best_time i v :
    best_time racers i w = Ok (v, w') ->
    evaluation_on prevseason lszeroes racers w w'
| on_raw_points r v :
    raw_points racers r w = Ok (v, w') ->
    evaluation_on prevseason lszeroes racers w w'
| on_A i v :
    A prevseason racers i w = Ok (v, w') ->
    evaluation_on prevseason lszeroes racers w w'
| on_BC i v :
    BC prevseason racers i w = Ok (v, w') ->
    evaluation_on prevseason lszeroes racers w w'
| on_B i v :
    B prevseason racers i w = Ok (v, w') ->
    evaluation_on prevseason lszeroes racers w w'
| on_C i v :
    C prevseason racers i w = Ok (v, w') ->
    evaluation_on prevseason lszeroes racers w w'
| on_penalty i v :
    penalty prevseason racers i w = Ok (v, w') ->
    evaluation_on prevseason lszeroes racers w w'
| on_points r v :
    points prevseason racers r w = Ok (v, w') ->
    evaluation_on prevseason lszeroes racers w w'
| on_best_two rc rt v :
    best_two prevseason lszeroes racers rc rt w = Ok (v, w') ->
    evaluation_on prevseason lszeroes racers w w'
| on_best_avg rc rt v :
    best_avg prevseason lszeroes racers rc rt w = Ok (v, w') ->
    evaluation_on prevseason lszeroes racers w w'
| on_season_avg rc v :
    season_avg prevseason lszeroes racers rc w = Ok (v, w') ->
    evaluation_on prevseason lszeroes racers w w'.

(** The worlds of a run in which [racers] is bound to one list: from the
    end of loading up to the line that sorts the roster. *)
Definition run_on (prevseason : gmap string (RaceType -> Q))
    (lszeroes : RaceType -> Q) (racers : list Racer) (rs : list Race)
    (w : world) : Prop :=
  rtc (evaluation_on prevseason lszeroes racers) (init_world rs) w.

(** ** What the loader guarantees, and what the data model asks for *)

(** [results[j].race is races[j]]: the loader numbers the results of a row
    by their column. *)
Fixpoint indexed_from (n : nat) (l : list Result) : bool :=
  match l with
  | [] => true
  | r :: l' => (race r =? n)%nat && indexed_from (S n) l'
  end.

(** Every racer has one result per column, for a race that exists. *)
Definition roster_wf (nraces : nat) (racers : list Racer) : bool :=
  forallb (fun rc => indexed_from 0 (results rc)
                     && (length (results rc) <=? nraces)%nat)
          racers.

(** The finished times of race [i] are positive, as the data model has
    them. *)
Definition positive_in (racers : list Racer) (i : nat) : bool :=
  forallb (fun r => match time r with
                    | Some t => negb (race r =? i)%nat || Qltb 0 t
                    | None => true
                    end)
          (all_results racers).

Definition all_positive (racers : list Racer) : bool :=
  forallb (fun r => match time r with
                    | Some t => Qltb 0 t
                    | None => true
                    end)
          (all_results racers).

(** No race was constructed with a string for a penalty. *)
Definition numeric_penalties (rs : list Race) : bool :=
  forallb (fun r => match _sto_penalty r with
                    | Some (VStr _) => false
                    | _ => true
                    end)
          rs.

(** [a <= b] where both may be infinite. *)
Definition xle (a b : xdec) : Prop :=
  match a, b with
  | _, Inf => True
  | Inf, Fin _ => False
  | Fin x, Fin y => x <= y
  end.

(** ** The design document's words for the race penalty *)

(** The racer has a result in race [i] for which [p] holds. *)
Definition has_result (p : Result -> bool) (i : nat) (rc : Racer) : bool :=
  existsb (fun r => (race r =? i)%nat && p r) (results rc).

(** The racers whose result in race [i] started. *)
Definition starters (racers : list Racer) (i : nat) : list Racer :=
  List.filter (has_result started i) racers.

(** The racers whose result in race [i] finished with a place of at most
    ten. *)
Definition top_ten (racers : list Racer) (i : nat) : list Racer :=
  List.filter (has_result (fun r => finished r && place_le_10 racers r) i)
              racers.

(** The result is in a race of the category. *)
Definition in_category (rs : list Race) (racetype : RaceType) (r : Result)
    : bool :=
  match rs !! race r with
  | Some rc => RaceType_eqb (rtype rc) racetype
  | None => false
  end.

(** ** The design document's words for the place *)

(** One result is strictly faster than another. *)
Definition faster (r self : Result) : bool :=
  match time r, time self with
  | Some a, Some b => Qltb a b
  | _, _ => false
  end.

(** The finished results of the race of [self] that are strictly faster. *)
Definition faster_finishers (racers : list Racer) (self : Result)
    : list Result :=
  List.filter (fun r => (race r =? race self)%nat && finished r
                        && faster r self)
              (all_results racers).

(** "Ties broken by input order": of two finishers of a race with equal
    times, the one that comes first in the input has the smaller place. *)
Definition ties_broken_by_input_order (racers : list Racer) : Prop :=
  forall l1 r1 l2 r2 l3 a b p1 p2,
    all_results racers = l1 ++ r1 :: l2 ++ r2 :: l3 ->
    race r1 = race r2 -> time r1 = Some a -> time r2 = Some b -> a == b ->
    place racers r1 = Some p1 -> place racers r2 = Some p2 ->
    (p1 < p2)%nat.

(** The raw points of a result, as a number. *)
Definition raw_of (racers : list Racer) (rs : list Race) (r : Result) : Q :=
  match raw_points_value racers rs r with
  | Ok (Some p) => p
  | _ => 0
  end.

(** ** The archive object *)

(** The entry of a racer whose averages are settled. *)
Definition entry_memo (prevseason : gmap string (RaceType -> Q))
    (lszeroes : RaceType -> Q) (w : world) (rc : Racer) : gmap string Q :=
  list_to_map
    (map (fun this => (RaceType_name this,
                       best_avg_memo prevseason lszeroes w rc this))
         all_RaceType).

(** The entry under the reserved key. *)
Definition zeroes_map (w : world) : gmap string Q :=
  list_to_map (map (fun this => (RaceType_name this, zeroes w this))
                   all_RaceType).

Definition insert_entry (prevseason : gmap string (RaceType -> Q))
    (lszeroes : RaceType -> Q) (w : world)
    (obj : gmap string (gmap string Q)) (rc : Racer)
    : gmap string (gmap string Q) :=
  <[name rc := entry_memo prevseason lszeroes w rc]> obj.

(** The claim as it was written, for one run: the archive maps the name of
    every racer to the raw category averages of that racer. *)
Definition archive_holds_raw_averages
    (prevseason : gmap string (RaceType -> Q)) (lszeroes : RaceType -> Q)
    (racers : list Racer) (rs : list Race) : Prop :=
  forall obj w',
    season prevseason lszeroes racers (init_world rs) = Ok (obj, w') ->
    forall rc rt, In rc racers ->
      exists e avg v,
        obj !! name rc = Some e /\
        category_average prevseason lszeroes racers rc rt w' = Ok (avg, w') /\
        e !! RaceType_name rt = Some v /\ v == avg.

(** ** The design document's words for a time field *)

Section TimeFields.
Variable Decimal : string -> option Q.

(** A decimal seconds value: a string the constructor accepts. *)
Definition is_decimal (s : string) : bool :=
  match Decimal s with Some _ => true | None => false end.

(** A value in minutes and seconds: a decimal, a colon, a decimal. *)
Definition is_minutes_seconds (s : string) : bool :=
  str_contains ":" s
  && is_decimal (fst (str_partition ":" s))
  && is_decimal (snd (str_partition ":" s)).

(** One of the three status tokens. *)
Definition is_token (s : string) : bool :=
  String.eqb s "DNF" || String.eqb s "DNS" || String.eqb s "DSQ".

Definition accepted (s : string) : bool :=
  String.eqb s "" || is_decimal s || is_minutes_seconds s || is_token s.
End TimeFields.

(** ** A small season *)

(** Last season's archive: one racer known, and the zero factors. *)
Definition ex_archive : gmap string (gmap string Q) :=
  <["A" := <["GS" := 50]> (<["SC" := 700]> ∅)]>
    (<[data_zeroes := <["GS" := 20]> (<["SC" := 30]> (<["CL" := 40]> ∅))]> ∅).

Definition ex_prevseason : gmap string (RaceType -> Q) :=
  clamp_entry <$> ex_archive.

Definition ex_lszeroes : RaceType -> Q :=
  clamp_entry (<["GS" := 20]> (<["SC" := 30]> (<["CL" := 40]> ∅))).

(** One giant slalom; A finishes in 60 seconds, B, injured, in 63, C does
    not finish. *)
Definition ex_rs : list Race := [Race_init GS "H1" None].

Definition ex_rA : Result := Result_init (TDec 60) 0.
Definition ex_rB : Result := Result_init (TDec 63) 0.
Definition ex_rC : Result := Result_init (TTok DNF) 0.

Definition ex_A : Racer := mkRacer "A" [ex_rA] M false.
Definition ex_B : Racer := mkRacer "B" [ex_rB] F true.
Definition ex_C : Racer := mkRacer "C" [ex_rC] M false.

Definition ex_racers : list Racer := [ex_A; ex_B; ex_C].

(** The world after the warm-up pass, and the archive object. *)
Definition ex_warm : world :=
  match warm_up ex_prevseason ex_lszeroes ex_racers (init_world ex_rs) with
  | Ok (_, w) => w
  | Raise _ => init_world ex_rs
  end.

Definition ex_obj : gmap string (gmap string Q) :=
  match season ex_prevseason ex_lszeroes ex_racers (init_world ex_rs) with
  | Ok (obj, _) => obj
  | Raise _ => ∅
  end.

(** The same race with its penalty given in the header. *)
Definition ex_rs_given : list Race := [Race_init GS "H1" (Some (VStr "5.0"))].

(** Two racers with the same time, written [60] and [60.0]. *)
Definition tie_rA : Result := Result_init (TDec 60) 0.
Definition tie_rB : Result := Result_init (TDec 60.0) 0.

Definition tie_racers : list Racer :=
  [mkRacer "A" [tie_rA] M false; mkRacer "B" [tie_rB] F false].

(** A decimal constructor for unsigned numerals with an optional fraction,
    enough for the tables of the examples. *)
Definition digit_value (c : ascii) : option Z :=
  let n := Z.of_nat (nat_of_ascii c) in
  if ((48 <=? n) && (n <=? 57))%Z then Some (n - 48)%Z else None.

Fixpoint digits_value (acc : Z) (s : string) : option Z :=
  match s with
  | EmptyString => Some acc
  | String c s' =>
      match digit_value c with
      | Some d => digits_value (10 * acc + d)%Z s'
      | None => None
      end
  end.

Definition ex_Decimal (s : string) : option Q :=
  let p := str_partition "." s in
  if String.eqb (fst p) "" then None
  else
    match digits_value 0 (fst p), digits_value 0 (snd p) with
    | Some n, Some f =>
        Some (inject_Z n
              + inject_Z f / inject_Z (10 ^ Z.of_nat (String.length (snd p))))
    | _, _ => None
    end.

(** A results table: the header, two racers, and a racer whose time is
    not a time. *)
Definition ex_rows : list (list string) :=
  [["name"; "inj"; "H1#GS"];
   ["A#M"; ""; "60"];
   ["B#F"; "inj"; "1:03"];
   ["C#M"; ""; "fast"]].

(** ** More words for results, rosters and tables *)

(** The result is in race [i] and finished. *)
Definition finisher_of (i : nat) (r : Result) : bool :=
  (race r =? i)%nat && finished r.

(** The racers of the roster tied at the key [k]. *)
Definition tied_at (key : Racer -> Q) (k : Q) (l : list Racer) : list Racer :=
  List.filter (fun rc => Qeq_bool (key rc) k) l.

(** The zero factors of a season without results, as the archive holds
    them: the scale factors. *)
Definition initial_zeroes : gmap string Q :=
  list_to_map (map (fun this => (RaceType_name this, ffactor this))
                   all_RaceType).

(** The name of a category. *)
Definition is_category_name (c : string) : Prop :=
  c = "GS" \/ c = "SC" \/ c = "CL".

(** ** More of the small season *)

(** The value and the world of a computation that returns. *)
Definition value_of {A : Type} (d : A) (m : res (A * world)) : A :=
  match m with Ok (a, _) => a | Raise _ => d end.

Definition world_of {A : Type} (d : world) (m : res (A * world)) : world :=
  match m with Ok (_, w) => w | Raise _ => d end.

(** The world after the best time of the giant slalom has been asked for,
    and after its penalty has. *)
Definition ex_timed : world :=
  world_of (init_world ex_rs) (best_time ex_racers 0 (init_world ex_rs)).

Definition ex_pen : pyval :=
  value_of (VStr "") (penalty ex_prevseason ex_racers 0 ex_timed).

Definition ex_scored : world :=
  world_of ex_timed (penalty ex_prevseason ex_racers 0 ex_timed).

(** The points of A, asked for first of all, and the world after that. *)
Definition ex_pts : option Q :=
  value_of None (points ex_prevseason ex_racers ex_rA (init_world ex_rs)).

Definition ex_pointed : world :=
  world_of (init_world ex_rs)
           (points ex_prevseason ex_racers ex_rA (init_world ex_rs)).

(** The best two and the average of B, after the warm-up pass. *)

Definition ex_two : list Q :=
  value_of [] (best_two ex_prevseason ex_lszeroes ex_racers ex_B GS ex_warm).

Definition ex_avg : Q :=
  value_of 0 (best_avg ex_prevseason ex_lszeroes ex_racers ex_B GS ex_warm).

(** The ranking of the small season. *)
Definition ex_sorted : list Racer :=
  value_of [] (sort_racers ex_prevseason ex_lszeroes ex_racers ex_warm).

(** The same race when A is timed at zero, and when nobody starts. *)
Definition zero_rA : Result := Result_init (TDec 0) 0.

Definition zero_racers : list Racer :=
  [mkRacer "A" [zero_rA] M false; ex_B].

Definition idle_racers : list Racer :=
  [mkRacer "A" [Result_init TNone 0] M false;
   mkRacer "B" [Result_init (TTok DNS) 0] F false].

(** The table of the small season, and what the loader makes of it. *)
Definition good_rows : list (list string) :=
  [["A#M"; ""; "60"];
   ["B#F"; "inj"; "1:03"];
   ["C#M"; ""; "DNF"]].

Definition good_header : list string := ["name"; "inj"; "H1#GS"].

Definition good_loaded : loader :=
  match load_results ex_Decimal (good_header :: good_rows) with
  | Ok st => st
  | Raise _ => mkLoader [] [] None None
  end.

(** The loader after the header and the row of A. *)
Definition after_A : loader :=
  match racer_row ex_Decimal (mkLoader ex_rs [] None None)
                  ["A#M"; ""; "60"] with
  | Ok st => st
  | Raise _ => mkLoader [] [] None None
  end.

(** An archive without the reserved key. *)
Definition bad_archive : gmap string (gmap string Q) :=
  <["A" := <["GS" := 50]> ∅]> ∅.

(** ** The LaTeX output (lines 327 to 391) *)

(** The names of class [Gender] (lines 60 to 80) and [RaceType.fullname]
    (lines 34 to 42). *)
Definition glongname (self : Gender) : string :=
  match self with M => "Mens" | F => "Ladies" end.

Definition ilongname (self : Gender) : string :=
  match self with M => "Male" | F => "Female" end.

Definition shortname (self : Gender) : string :=
  match self with M => "M" | F => "L" end.

Definition fullname (self : RaceType) : string :=
  match self with
  | GS => "Giant Slalom"
  | SC => "Sprint Classic"
  | CL => "Classic"
  end.

Definition Gender_eqb (a b : Gender) : bool :=
  match a, b with
  | M, M | F, F => true
  | _, _ => false
  end.

(** The newline character and [''.join(l)]. *)
Definition nl : string := String "010"%char EmptyString.

Definition join (l : list string) : string := String.concat "" l.

(** [x in l] for a list of decimals: some element equals [x]. *)
Definition in_list (x : Q) (l : list Q) : bool := existsb (Qeq_bool x) l.

(** [len(races)] *)
Definition nraces : Comp nat := fun w => Ok (length (races w), w).

Section Output.
Variable prevseason : gmap string (RaceType -> Q).
Variable lszeroes : RaceType -> Q.
(** The conversions ["%.2f" % d] of a decimal and ["%d" % n] of an
    integer. *)
Variable fmt2 : Q -> string.
Variable fmtd : Z -> string.

(** ["%.2f" % v] for a penalty and for the points of a result: a string
    and [None] are no numbers. *)
Definition fmt2_penalty (v : pyval) : Comp string :=
  match v with
  | VDec d => ret (fmt2 d)
  | VStr _ => raise TypeError
  end.

Definition fmt2_points (v : option Q) : Comp string :=
  match v with
  | Some d => ret (fmt2 d)
  | None => raise TypeError
  end.

(** [("$\\dagger$" if racers[k].inj else "")] *)
Definition dagger (rc : Racer) : string :=
  if inj rc then "$\dagger$" else "".

(** *** seasontable (lines 329 to 336) *)

(** What line 334 adds to [out] for one racer. *)
Definition seasontable_row (racers : list Racer) (rc : Racer) : Comp string :=
  let* cells :=
    mapM (fun racetype =>
            let* v := best_avg prevseason lszeroes racers rc racetype in
            ret (" & " +:+ fmt2 v))
         all_RaceType in
  let* s := season_avg prevseason lszeroes racers rc in
  ret (name rc +:+ dagger rc +:+ join cells
       +:+ " & " +:+ fmt2 s +:+ " \\" +:+ nl).

Definition seasontable (racers : list Racer) (g : Gender) : Comp string :=
  let out := "\begin{tabular}{l"
             +:+ join (map (fun _ => " c") all_RaceType) +:+ " c}" +:+ nl in
  let out := out +:+ "\textbf{" +:+ glongname g +:+ "' Points}"
             +:+ join (map (fun racetype => " & " +:+ RaceType_name racetype)
                           all_RaceType)
             +:+ " & Average\\" +:+ nl +:+ "\hline" +:+ nl in
  let* out :=
    foldM (fun out rc =>
             if Gender_eqb (gender rc) g
             then let* row := seasontable_row racers rc in ret (out +:+ row)
             else ret out)
          out racers in
  ret (out +:+ "\end{tabular}" +:+ nl +:+ nl).

(** *** The detail tables (lines 365 to 390) *)

(** [''.join((f(k) if races[k].rtype is racetype else '')
            for k in range(len(races)))] *)
Definition race_cells (f : nat -> Race -> Comp string) (racetype : RaceType)
    : Comp string :=
  let* n := nraces in
  let* cells :=
    mapM (fun k =>
            let* rc := get_race k in
            if RaceType_eqb (rtype rc) racetype then f k rc else ret "")
         (seq 0 n) in
  ret (join cells).

(** Lines 374 to 376: the number of columns. *)
Definition column_count (racetype : RaceType) : Comp nat :=
  let* n := nraces in
  foldM (fun i k =>
           let* rc := get_race k in
           ret (if RaceType_eqb (rtype rc) racetype then S i else i))
        2%nat (seq 0 n).

(** Lines 372 and 378: the head of the table. *)
Definition table_head (racetype : RaceType) : Comp string :=
  let* names :=
    race_cells (fun _ rc => ret (" & " +:+ rname rc)) racetype in
  ret ("Racer's Name & Last Season (penalized)" +:+ names
       +:+ " \\" +:+ nl +:+ "\hline" +:+ nl).

(** Line 380: the penalties of the races of the category. *)
Definition penalties_line (racers : list Racer) (racetype : RaceType)
    : Comp string :=
  let* cells :=
    race_cells (fun k _ =>
                  let* p := penalty prevseason racers k in
                  let* s := fmt2_penalty p in
                  ret (" & " +:+ s))
               racetype in
  ret ("Race Penalties $\longrightarrow$ &" +:+ cells
       +:+ " \\" +:+ nl +:+ "\hline" +:+ nl).

(** Lines 384 to 388: what is written for column [j] in the row of a
    racer. *)
Definition detail_cell (racers : list Racer) (racetype : RaceType)
    (rc : Racer) (j : nat) : Comp string :=
  let* rcj := get_race j in
  if RaceType_eqb (rtype rcj) racetype
  then
    match results rc !! j with
    | None => raise IndexError
    | Some r =>
        let* p := points prevseason racers r in
        match p with
        | Some _ =>
            let* p1 := points prevseason racers r in
            let* two := best_two prevseason lszeroes racers rc racetype in
            let* p2 := points prevseason racers r in
            let* s := fmt2_points p2 in
            let bold := match p1 with
                        | Some v => in_list v two
                        | None => false
                        end in
            ret (" & " +:+ (if bold then "\textbf{" +:+ s +:+ "}" else s))
        | None => ret " & ---"
        end
    end
  else ret "".

(** Lines 382 to 389: the row of a racer. *)
Definition detail_row (racers : list Racer) (racetype : RaceType)
    (rc : Racer) : Comp string :=
  let lp := last_penalized prevseason lszeroes rc racetype in
  let* two := best_two prevseason lszeroes racers rc racetype in
  let s := fmt2 (last_penalized prevseason lszeroes rc racetype) in
  let first := name rc +:+ dagger rc +:+ " & "
               +:+ (if in_list lp two then "\textbf{" +:+ s +:+ "}" else s) in
  let* n := nraces in
  let* cells := mapM (detail_cell racers racetype rc) (seq 0 n) in
  ret (first +:+ join cells +:+ " \\" +:+ nl).

(** One pass of the loop of line 365: the roster sorted for the category
    and what is written. *)
Definition category_table (racers : list Racer) (racetype : RaceType)
    : Comp (list Racer * string) :=
  let* keys :=
    mapM (fun rc => best_avg prevseason lszeroes racers rc racetype)
         racers in
  let racers := map fst (sort_by snd (zip racers keys)) in
  let* cols := race_cells (fun _ _ => ret " c") racetype in
  let* head1 := table_head racetype in
  let* i := column_count racetype in
  let* head2 := table_head racetype in
  let* pens := penalties_line racers racetype in
  let* rows := mapM (detail_row racers racetype) racers in
  ret (racers,
       "\clearpage" +:+ nl
       +:+ "{\sffamily \bfseries \LARGE " +:+ fullname racetype
       +:+ " Points Detail \par}" +:+ nl
       +:+ "Race points for the " +:+ RaceType_name racetype
       +:+ " category are listed below. The two best points for each racer are in \textbf{bold}. The last season's penalized points may be used twice."
       +:+ " A dagger ($\dagger$) next to a racer's name indicates the racer was injured for the season and was given only a 22\% penalty on the last season rather than 44\%."
       +:+ "\begin{longtable}{l c" +:+ cols +:+ "}" +:+ nl
       +:+ head1
       +:+ "\endfirsthead" +:+ nl
       +:+ "\multicolumn{" +:+ fmtd (Z.of_nat i)
       +:+ "}{c}{\emph{Continued from previous page}}\\ \\" +:+ nl
       +:+ head2
       +:+ "\endhead" +:+ nl
       +:+ pens
       +:+ join rows
       +:+ "\end{longtable}" +:+ nl).

(** *** What is written to [output.tex] (lines 338 to 391) *)

Definition zero_lines : Comp string :=
  let* l :=
    mapM (fun racetype =>
            let* z := get_zero racetype in
            ret (RaceType_name racetype +:+ ": " +:+ fmt2 z +:+ nl +:+ nl))
         all_RaceType in
  ret (join l).

Definition output (year : Z) (racers : list Racer) : Comp string :=
  let* ladies := seasontable racers F in
  let* zs := zero_lines in
  let* mens := seasontable racers M in
  let* tables :=
    foldM (fun st racetype =>
             let* t := category_table (fst st) racetype in
             ret (fst t, snd st +:+ snd t))
          (racers, EmptyString) all_RaceType in
  ret ("\batchmode" +:+ nl
       +:+ "\documentclass{article}" +:+ nl
       +:+ "\usepackage[landscape,margin=2cm]{geometry}" +:+ nl
       +:+ "\usepackage{adjustbox}" +:+ nl
       +:+ "\usepackage{longtable}" +:+ nl
       +:+ "\begin{document}" +:+ nl
       +:+ "\centering" +:+ nl
       +:+ "{\bfseries \sffamily \huge United States Telemark Ski Association \par}"
       +:+ nl
       +:+ "{\sffamily \LARGE " +:+ fmtd year
       +:+ " National Points List \par}" +:+ nl
       +:+ "\vspace{10 pt}\hfill" +:+ nl
       +:+ "\adjustbox{valign=t}{\begin{minipage}{0.49\textwidth}" +:+ nl
       +:+ "\centering" +:+ nl
       +:+ ladies
       +:+ "\begin{center}" +:+ nl
       +:+ "\textbf{Zero Factors}" +:+ nl +:+ nl
       +:+ zs
       +:+ "\end{center}" +:+ nl
       +:+ "\begin{flushleft}" +:+ nl
       +:+ "{\small A dagger ($\dagger$) next to a racer's name indicates the racer was injured for the season and was given only a 22\% penalty on the last season rather than 44\%.\par}"
       +:+ nl
       +:+ "\end{flushleft}" +:+ nl
       +:+ "\end{minipage}}" +:+ nl
       +:+ "\adjustbox{valign=t}{\begin{minipage}{0.49\textwidth}" +:+ nl
       +:+ "\centering" +:+ nl
       +:+ mens
       +:+ "\end{minipage}}" +:+ nl
       +:+ snd tables
       +:+ "\end{document}" +:+ nl).

(** The script from the end of loading to the end of the [with] block of
    line 338: the archive object handed to [json.dump] and the text
    written to [output.tex]. *)
Definition season_output (year : Z) (racers : list Racer)
    : Comp (gmap string (gmap string Q) * string) :=
  let* _ := warm_up prevseason lszeroes racers in
  let* sorted := sort_racers prevseason lszeroes racers in
  let* obj := seasonobj prevseason lszeroes sorted in
  let* tex := output year sorted in
  ret (obj, tex).
End Output.

(** The script from line 47 to line 391. *)
Definition script_output (Decimal : string -> option Q) (fmt2 : Q -> string)
    (fmtd : Z -> string) (year : Z)
    (archive : option (gmap string (gmap string Q)))
    (rows : list (list string))
    : res (gmap string (gmap string Q) * string) :=
  match archive with
  | None => Raise FileNotFoundError
  | Some obj =>
      res_bind (load_prevseason obj) (fun ps =>
      res_bind (load_results Decimal rows) (fun st =>
        eval (season_output (fst ps) (snd ps) fmt2 fmtd year (l_racers st))
             (init_world (l_races st))))
  end.

(** ** Computations that cannot return *)

(** From every world in which [P] holds, [m] raises. *)
Definition fails {A : Type} (P : world -> Prop) (m : Comp A) : Prop :=
  forall w, P w -> exists e, m w = Raise e.

(** [P] survives every evaluation of the engine. *)
Definition stable (P : world -> Prop) : Prop :=
  forall w w', descends w w' -> P w -> P w'.

(** Race [k] is of category [rt]; and it holds the string [s] for a
    penalty. *)
Definition category_race (k : nat) (rt : RaceType) (w : world) : Prop :=
  exists r, races w !! k = Some r /\ rtype r = rt.

Definition string_race (k : nat) (rt : RaceType) (s : string) (w : world)
    : Prop :=
  exists r, races w !! k = Some r /\ rtype r = rt /\
            _sto_penalty r = Some (VStr s).

(** ** The world the output is written in *)

(** No race holds a string for a penalty. *)
Definition no_string (w : world) : Prop :=
  forall k r s, races w !! k = Some r -> _sto_penalty r <> Some (VStr s).

(** Every racer has a result for each of the [n] races, numbered by its
    column: no row of the table was shorter than the header. *)
Definition full_rows (n : nat) (R : list Racer) : bool :=
  forallb (fun rc => indexed_from 0 (results rc)
                     && (length (results rc) =? n)%nat)
          R.

(** There are [n] races, none with a string for a penalty, the zero factors
    are [z], and the averages of every racer of [R] are settled. *)
Definition ready (prevseason : gmap string (RaceType -> Q))
    (lszeroes : RaceType -> Q) (n : nat) (z : RaceType -> Q)
    (R : list Racer) (w : world) : Prop :=
  length (races w) = n /\ zeroes w = z /\ no_string w /\
  forall rc rt, In rc R -> settled prevseason lszeroes w rc rt.

(** ** Tables for the output *)

(** Conversions that leave a mark where a number goes. *)
Definition mark2 (d : Q) : string := "0.00".
Definition markd (n : Z) : string := "0".

(** The table of the small season with a penalty in the header, and with a
    second race that the row of B has no field for. *)
Definition given_rows : list (list string) :=
  [["name"; "inj"; "H1#GS#5.0"];
   ["A#M"; ""; "DNF"]].

Definition short_rows : list (list string) :=
  [["name"; "inj"; "H1#GS"; "V#SC"];
   ["A#M"; ""; "60"; "50"];
   ["B#F"; "inj"; "1:03"]].

Definition loaded (rows : list (list string)) : loader :=
  match load_results ex_Decimal rows with
  | Ok st => st
  | Raise _ => mkLoader [] [] None None
  end.

(** * Properties *)

(** ** Comparisons, minimum, sorting *)

Lemma Qltb_lt (x y : Q) : Qltb x y = true <-> x < y.
Proof.
  unfold Qltb. rewrite Qlt_alt. destruct (x ?= y); split; congruence.
Qed.

Lemma Qltb_ge (x y : Q) : Qltb x y = false <-> y <= x.
Proof.
  split; intros H.
  - apply Qnot_lt_le. intros L. apply Qltb_lt in L. congruence.
  - destruct (Qltb x y) eqn:E; [|reflexivity].
    apply Qltb_lt in E. apply Qle_not_lt in H. contradiction.
Qed.

Lemma pymin_le_r (a b : Q) : pymin a b <= b.
Proof.
  unfold pymin. destruct (Qltb b a) eqn:E.
  - apply Qle_refl.
  - apply Qltb_ge in E. exact E.
Qed.

Lemma pymin_le_l (a b : Q) : pymin a b <= a.
Proof.
  unfold pymin. destruct (Qltb b a) eqn:E.
  - apply Qltb_lt in E. apply Qlt_le_weak. exact E.
  - apply Qle_refl.
Qed.

Lemma pymin_cases (a b : Q) : pymin a b = a \/ pymin a b = b.
Proof. unfold pymin. destruct (Qltb b a); auto. Qed.

Lemma RaceType_eqb_eq (a b : RaceType) : RaceType_eqb a b = true <-> a = b.
Proof. destruct a, b; simpl; split; congruence. Qed.

Lemma RaceType_eqb_refl (a : RaceType) : RaceType_eqb a a = true.
Proof. destruct a; reflexivity. Qed.

Lemma RaceType_eqb_neq (a b : RaceType) : RaceType_eqb a b = false <-> a <> b.
Proof. destruct a, b; simpl; split; congruence. Qed.

Lemma In_drop_In {X : Type} (n : nat) (l : list X) (y : X) : In y (drop n l) -> In y l.
Proof.
  revert n. induction l as [|z l IH]; intros [|n]; simpl; auto.
  intros H. right. eapply IH, H.
Qed.

Lemma In_take_In {X : Type} (n : nat) (l : list X) (y : X) : In y (take n l) -> In y l.
Proof.
  revert n. induction l as [|z l IH]; intros [|n]; simpl; auto.
  - tauto.
  - intros [H|H]; [auto|right; eapply IH, H].
Qed.

Section SortingFacts.
Context {X : Type} (key : X -> Q).

Lemma insert_by_perm (x : X) (l : list X) :
  Permutation (x :: l) (insert_by key x l).
Proof.
  induction l as [|y l IH]; simpl.
  - reflexivity.
  - destruct (Qltb (key y) (key x)).
    + rewrite perm_swap. constructor. exact IH.
    + reflexivity.
Qed.

Lemma sort_by_perm (l : list X) : Permutation l (sort_by key l).
Proof.
  induction l as [|x l IH]; simpl.
  - reflexivity.
  - rewrite <- insert_by_perm. constructor. exact IH.
Qed.

Lemma sort_by_length (l : list X) : length (sort_by key l) = length l.
Proof. symmetry. apply Permutation_length, sort_by_perm. Qed.

Lemma insert_by_sorted (x : X) (l : list X) :
  StronglySorted (key_le key) l -> StronglySorted (key_le key) (insert_by key x l).
Proof.
  induction 1 as [|y l Hs IH Hall]; simpl.
  - repeat constructor.
  - destruct (Qltb (key y) (key x)) eqn:E.
    + constructor; [exact IH|].
      apply Qltb_lt in E.
      rewrite List.Forall_forall. intros z Hz.
      apply (Permutation_in _ (Permutation_sym (insert_by_perm x l))) in Hz.
      destruct Hz as [<-|Hz].
      * apply Qlt_le_weak, E.
      * rewrite List.Forall_forall in Hall. apply Hall, Hz.
    + apply Qltb_ge in E.
      constructor; [constructor; assumption|].
      constructor; [exact E|].
      rewrite List.Forall_forall in Hall |- *. intros z Hz.
      unfold key_le in *. eapply Qle_trans; [exact E|]. apply Hall, Hz.
Qed.

Lemma sort_by_sorted (l : list X) : StronglySorted (key_le key) (sort_by key l).
Proof.
  induction l as [|x l IH]; simpl.
  - constructor.
  - apply insert_by_sorted, IH.
Qed.

(** The first [n] elements of a sorted list are below all the others. *)
Lemma sorted_take_drop (n : nat) (l : list X) :
  StronglySorted (key_le key) l ->
  forall x y, In x (take n l) -> In y (drop n l) -> key x <= key y.
Proof.
  intros Hs. revert n. induction Hs as [|z l Hs IH Hall]; intros n x y.
  - destruct n; simpl; tauto.
  - destruct n as [|n]; simpl; [tauto|].
    intros [<-|Hx] Hy.
    + rewrite List.Forall_forall in Hall. apply Hall.
      eapply In_drop_In. exact Hy.
    + eapply IH; eassumption.
Qed.
End SortingFacts.

(** ** The monad *)

Lemma bind_Ok {A B : Type} (m : Comp A) (k : A -> Comp B) w v w' :
  bind m k w = Ok (v, w') <->
  exists a w1, m w = Ok (a, w1) /\ k a w1 = Ok (v, w').
Proof.
  unfold bind. destruct (m w) as [[a w1]|e].
  - split; [eauto|]. intros (a' & w1' & E & H). congruence.
  - split; [discriminate|]. intros (a' & w1' & E & H). discriminate.
Qed.

Lemma bind_Ok_intro {A B : Type} (m : Comp A) (k : A -> Comp B) w a w1 :
  m w = Ok (a, w1) -> bind m k w = k a w1.
Proof. unfold bind. intros ->. reflexivity. Qed.

Lemma bind_Raise_intro {A B : Type} (m : Comp A) (k : A -> Comp B) w e :
  m w = Raise e -> bind m k w = Raise e.
Proof. unfold bind. intros ->. reflexivity. Qed.

Lemma get_race_Ok i w v w' :
  get_race i w = Ok (v, w') <-> races w !! i = Some v /\ w' = w.
Proof.
  unfold get_race. destruct (races w !! i); split.
  - intros [= -> ->]. auto.
  - intros [[= ->] ->]. reflexivity.
  - discriminate.
  - intros [[=] _].
Qed.

Lemma lift_Ok {A : Type} (m : res A) w v w' :
  lift m w = Ok (v, w') <-> m = Ok v /\ w' = w.
Proof.
  unfold lift. destruct m; split.
  - intros [= -> ->]. auto.
  - intros [[= ->] ->]. reflexivity.
  - discriminate.
  - intros [[=] _].
Qed.

(** Inversion of a successful run, one step at a time. *)
Ltac inv_run H :=
  match type of H with
  | bind _ _ _ = Ok _ =>
      let a := fresh "a" in let w1 := fresh "w" in
      let H1 := fresh "Hm" in let H2 := fresh "Hk" in
      apply bind_Ok in H; destruct H as (a & w1 & H1 & H2)
  | get_race _ _ = Ok _ =>
      apply get_race_Ok in H; destruct H as [H ->]
  | lift _ _ = Ok _ =>
      apply lift_Ok in H; destruct H as [H ->]
  | ret _ _ = Ok _ => unfold ret in H; injection H as <- <-
  | raise _ _ = Ok _ => discriminate H
  end.

(** Inversion of a successful run, all the way. *)
Ltac inv_runs :=
  repeat match goal with
  | H : bind _ _ _ = Ok _ |- _ =>
      let H1 := fresh "Hm" in
      apply bind_Ok in H; destruct H as (? & ? & H1 & H)
  | H : get_race _ _ = Ok _ |- _ =>
      apply get_race_Ok in H; destruct H as [H ->]
  | H : lift _ _ = Ok _ |- _ =>
      apply lift_Ok in H; destruct H as [H ->]
  | H : ret _ _ = Ok _ |- _ => unfold ret in H; injection H as <- <-
  | H : raise _ _ = Ok _ |- _ => discriminate H
  end.

(** ** Frames *)

Section Frames.
Context (R : world -> world -> Prop) `{!PreOrder R}.

Lemma frames_ret {A : Type} (a : A) : frames R (ret a).
Proof. intros w v w' [= <- <-]. reflexivity. Qed.

Lemma frames_raise {A : Type} (e : exn) : frames R (@raise A e).
Proof. intros w v w' [=]. Qed.

Lemma frames_lift {A : Type} (m : res A) : frames R (lift m).
Proof. intros w v w' H. inv_run H. reflexivity. Qed.

Lemma frames_get_race (i : nat) : frames R (get_race i).
Proof. intros w v w' H. inv_run H. reflexivity. Qed.

Lemma frames_get_zero (rt : RaceType) : frames R (get_zero rt).
Proof. intros w v w' [= <- <-]. reflexivity. Qed.

Lemma frames_bind {A B : Type} (m : Comp A) (k : A -> Comp B) :
  frames R m -> (forall a, frames R (k a)) -> frames R (bind m k).
Proof.
  intros Hm Hk w v w' H. inv_run H.
  etransitivity; [eapply Hm|eapply Hk]; eassumption.
Qed.

Lemma frames_foldM {A B : Type} (f : B -> A -> Comp B) (l : list A) :
  (forall acc a, frames R (f acc a)) -> forall acc, frames R (foldM f acc l).
Proof.
  intros Hf. induction l as [|a l IH]; intros acc; simpl.
  - apply frames_ret.
  - apply frames_bind; [apply Hf|]. intros acc'. apply IH.
Qed.

Lemma frames_mapM {A B : Type} (f : A -> Comp B) (l : list A) :
  (forall a, frames R (f a)) -> frames R (mapM f l).
Proof.
  intros Hf. induction l as [|a l IH]; simpl.
  - apply frames_ret.
  - apply frames_bind; [apply Hf|]. intros b.
    apply frames_bind; [apply IH|]. intros bs. apply frames_ret.
Qed.
End Frames.

Lemma frames_weaken {A : Type} (R R' : world -> world -> Prop) (m : Comp A) :
  (forall w w', R w w' -> R' w w') -> frames R m -> frames R' m.
Proof. intros HR Hm w v w' H. eapply HR, Hm, H. Qed.

#[export] Instance race_keeps_preorder : PreOrder race_keeps.
Proof.
  split.
  - intros r. repeat split; auto.
  - intros r1 r2 r3 (T1 & P1 & B1) (T2 & P2 & B2). repeat split.
    + congruence.
    + congruence.
    + auto.
Qed.

#[export] Instance race_grows_preorder : PreOrder race_grows.
Proof.
  split.
  - intros r. repeat split; auto.
  - intros r1 r2 r3 (T1 & P1 & B1) (T2 & P2 & B2). repeat split.
    + congruence.
    + auto.
    + auto.
Qed.

#[export] Instance same_zeroes_preorder (R : Race -> Race -> Prop)
  `{!PreOrder R} : PreOrder (same_zeroes R).
Proof.
  split.
  - intros w. split; reflexivity.
  - intros w1 w2 w3 [Z1 F1] [Z2 F2]. split.
    + congruence.
    + etransitivity; eassumption.
Qed.

#[export] Instance keeps_preorder : PreOrder keeps.
Proof. unfold keeps. apply _. Qed.

#[export] Instance grows_preorder : PreOrder grows.
Proof. unfold grows. apply _. Qed.

#[export] Instance races_grow_preorder : PreOrder races_grow.
Proof.
  split.
  - intros w. unfold races_grow. reflexivity.
  - intros w1 w2 w3 F1 F2. unfold races_grow in *.
    etransitivity; eassumption.
Qed.

Lemma race_keeps_grows r r' : race_keeps r r' -> race_grows r r'.
Proof.
  intros (T & P & B). repeat split; auto. intros v Hv. congruence.
Qed.

Lemma keeps_grows w w' : keeps w w' -> grows w w'.
Proof.
  intros [Z F]. split; [exact Z|].
  eapply Forall2_impl; [exact F|]. apply race_keeps_grows.
Qed.

Lemma grows_races_grow w w' : grows w w' -> races_grow w w'.
Proof. intros [_ F]. exact F. Qed.

(** Updating one race relates the worlds if it relates the race. *)
Lemma same_zeroes_upd (R : Race -> Race -> Prop) `{!PreOrder R}
    (i : nat) (f : Race -> Race) (w : world) :
  (forall r, races w !! i = Some r -> R r (f r)) ->
  same_zeroes R w (mkWorld (alter f i (races w)) (zeroes w)).
Proof.
  intros Hf. split; [reflexivity|]. simpl.
  apply Forall2_lookup. intros j.
  destruct (decide (i = j)) as [->|Hne].
  - rewrite list_lookup_alter_eq.
    destruct (races w !! j) as [r|] eqn:E; simpl; constructor.
    apply Hf. reflexivity.
  - rewrite list_lookup_alter_ne by exact Hne.
    destruct (races w !! j); constructor. reflexivity.
Qed.

Lemma same_zeroes_lookup (R : Race -> Race -> Prop) w w' i r :
  same_zeroes R w w' -> races w !! i = Some r ->
  exists r', races w' !! i = Some r' /\ R r r'.
Proof.
  intros [_ F] E. eapply Forall2_lookup_l in F; eauto.
Qed.

Lemma same_zeroes_lookup_r (R : Race -> Race -> Prop) w w' i r' :
  same_zeroes R w w' -> races w' !! i = Some r' ->
  exists r, races w !! i = Some r /\ R r r'.
Proof.
  intros [_ F] E. eapply Forall2_lookup_r in F; eauto.
Qed.

(** ** The race-level operations only add to the memo fields *)

Section ScoringFrames.
Variable prevseason : gmap string (RaceType -> Q).
Variable lszeroes : RaceType -> Q.
Variable racers : list Racer.

Lemma upd_race_keeps i f w v w' :
  upd_race i f w = Ok (v, w') ->
  (forall r, races w !! i = Some r -> race_keeps r (f r)) ->
  keeps w w'.
Proof.
  unfold upd_race. intros [= <- <-] Hf. apply same_zeroes_upd; [apply _|].
  exact Hf.
Qed.

Lemma upd_race_lookup i f w v w' r :
  upd_race i f w = Ok (v, w') -> races w !! i = Some r ->
  races w' !! i = Some (f r).
Proof.
  unfold upd_race. intros [= <- <-] E. simpl.
  rewrite list_lookup_alter_eq, E. reflexivity.
Qed.

Lemma best_time_keeps i : frames keeps (best_time racers i).
Proof.
  intros w v w' H. unfold best_time in H. inv_run H. inv_run Hm.
  destruct (stored_best a) eqn:E.
  - inv_run Hk. reflexivity.
  - inv_run Hk. inv_run Hk0.
    eapply upd_race_keeps; [exact Hm0|].
    intros r Hr. assert (r = a) as -> by congruence.
    repeat split; simpl; auto. intros b. congruence.
Qed.

Lemma best_time_post i w b w' :
  best_time racers i w = Ok (b, w') ->
  exists rc, races w' !! i = Some rc /\ stored_best rc = Some b.
Proof.
  intros H. unfold best_time in H. inv_run H. inv_run Hm.
  destruct (stored_best a) eqn:E.
  - inv_run Hk. eauto.
  - inv_run Hk. inv_run Hk0.
    eapply upd_race_lookup in Hm0; [|exact Hm]. eauto.
Qed.

Lemma raw_points_keeps r : frames keeps (raw_points racers r).
Proof.
  unfold raw_points. destruct (time r) as [t|].
  - apply frames_bind; [apply _|apply best_time_keeps|]. intros b.
    apply frames_bind; [apply _|apply frames_lift, _|]. intros q.
    apply frames_bind; [apply _|apply frames_get_race, _|]. intros rc.
    apply frames_ret, _.
  - apply frames_ret, _.
Qed.

Lemma raw_points_post r w v w' t :
  raw_points racers r w = Ok (v, w') -> time r = Some t ->
  exists rc b q,
    races w' !! race r = Some rc /\ stored_best rc = Some b /\
    dec_div t b = Ok q /\ v = Some ((q - 1) * ffactor (rtype rc)).
Proof.
  intros H Ht. unfold raw_points in H. rewrite Ht in H.
  inv_run H. inv_run Hk. inv_run Hm0. inv_run Hk0. inv_run Hm1. inv_run Hk.
  apply best_time_post in Hm as (rc & E1 & E2).
  assert (rc = a1) as -> by congruence.
  exists a1, a, a0. auto.
Qed.

Lemma A_pure i w v w' : A prevseason racers i w = Ok (v, w') -> w' = w.
Proof.
  intros H. unfold A in H. inv_run H. inv_run Hm. inv_run Hk. reflexivity.
Qed.

Lemma A_keeps i : frames keeps (A prevseason racers i).
Proof. intros w v w' H. apply A_pure in H as ->. reflexivity. Qed.

Lemma BC_keeps i : frames keeps (BC prevseason racers i).
Proof.
  unfold BC.
  apply frames_bind; [apply _|apply frames_get_race, _|]. intros rc.
  apply frames_foldM; [apply _|]. intros acc l.
  apply frames_bind; [apply _|apply raw_points_keeps|]. intros [p|].
  - apply frames_ret, _.
  - apply frames_raise.
Qed.

Lemma set_sto_BC_keeps b c r : race_keeps r (set_sto_BC b c r).
Proof. repeat split; simpl; auto. Qed.

Lemma B_keeps i : frames keeps (B prevseason racers i).
Proof.
  unfold B.
  apply frames_bind; [apply _|apply frames_get_race, _|]. intros rc.
  destruct (_sto_B rc).
  - apply frames_ret, _.
  - apply frames_bind; [apply _|apply BC_keeps|]. intros bc.
    apply frames_bind; [apply _| |intros; apply frames_ret, _].
    intros w v w' H. eapply upd_race_keeps; [exact H|].
    intros; apply set_sto_BC_keeps.
Qed.

Lemma C_keeps i : frames keeps (C prevseason racers i).
Proof.
  unfold C.
  apply frames_bind; [apply _|apply frames_get_race, _|]. intros rc.
  destruct (_sto_C rc).
  - apply frames_ret, _.
  - apply frames_bind; [apply _|apply BC_keeps|]. intros bc.
    apply frames_bind; [apply _| |intros; apply frames_ret, _].
    intros w v w' H. eapply upd_race_keeps; [exact H|].
    intros; apply set_sto_BC_keeps.
Qed.

(** [penalty] returns with its value stored, and only adds to the memo. *)
Lemma penalty_grows_post i w v w' :
  penalty prevseason racers i w = Ok (v, w') ->
  grows w w' /\
  exists rc, races w' !! i = Some rc /\ _sto_penalty rc = Some v.
Proof.
  intros H. unfold penalty in H. inv_run H. inv_run Hm.
  destruct (_sto_penalty a) eqn:E.
  - inv_run Hk. split; [reflexivity|eauto].
  - inv_run Hk. inv_run Hk0. inv_run Hk. inv_run Hk0. inv_run Hk.
    apply A_pure in Hm0 as ->.
    apply B_keeps in Hm1. apply C_keeps in Hm2.
    assert (K : keeps w w2) by (etransitivity; eassumption).
    destruct (same_zeroes_lookup _ _ _ _ _ K Hm) as (r2 & E2 & T & P & Bq).
    split.
    + etransitivity; [apply keeps_grows, K|].
      unfold upd_race in Hm3. injection Hm3 as <- <-.
      apply same_zeroes_upd; [apply _|].
      intros r Hr. assert (r = r2) as -> by congruence.
      repeat split; simpl; auto. intros v. congruence.
    + eapply upd_race_lookup in Hm3; [|exact E2]. eauto.
Qed.

Lemma penalty_grows i : frames grows (penalty prevseason racers i).
Proof. intros w v w' H. apply penalty_grows_post in H. tauto. Qed.

Lemma points_grows r : frames grows (points prevseason racers r).
Proof.
  unfold points. destruct (time r) as [t|].
  - apply frames_bind; [apply _| |].
    { eapply frames_weaken; [apply keeps_grows|apply raw_points_keeps]. }
    intros rp.
    apply frames_bind; [apply _|apply penalty_grows|]. intros pen.
    destruct rp, pen; try apply frames_raise. apply frames_ret, _.
  - apply frames_ret, _.
Qed.

(** A stored value survives. *)
Lemma points_memo_grows w w' r x :
  races_grow w w' -> points_memo w r = Some x -> points_memo w' r = Some x.
Proof.
  intros F H. unfold points_memo in *.
  destruct (time r) as [t|]; [|discriminate].
  destruct (races w !! race r) as [rc|] eqn:E; [|discriminate].
  eapply Forall2_lookup_l in F as (rc' & E' & T & P & Bq); [|exact E].
  rewrite E'.
  destruct (stored_best rc) as [b|]; [|discriminate].
  destruct (_sto_penalty rc) as [[p|s]|]; try discriminate.
  rewrite (Bq b eq_refl), (P (VDec p) eq_refl), T. exact H.
Qed.

(** After [points] has returned, the value can be read from the memo. *)
Lemma points_post r w v w' t :
  points prevseason racers r w = Ok (v, w') -> time r = Some t ->
  exists x, v = Some x /\ points_memo w' r = Some x.
Proof.
  intros H Ht. unfold points in H. rewrite Ht in H.
  inv_run H. inv_run Hk.
  eapply raw_points_post in Hm as (rc & b & q & E & Eb & Eq & ->); [|exact Ht].
  apply penalty_grows_post in Hm0 as [G (rc' & E' & Ep)].
  destruct a0 as [p|s]; [|discriminate]. inv_run Hk0.
  exists ((q - 1) * ffactor (rtype rc) + p). split; [reflexivity|].
  destruct (same_zeroes_lookup _ _ _ _ _ G E) as (rc2 & E2 & T & P & Bq).
  assert (rc2 = rc') as -> by congruence.
  unfold points_memo. rewrite Ht, E', (Bq b Eb), Ep, Eq, T. reflexivity.
Qed.
End ScoringFrames.

(** A value in the memo is what [points] returns, whatever the roster, and
    the world stays as it is. *)
Lemma points_of_memo prevseason racers w r x :
  points_memo w r = Some x ->
  points prevseason racers r w = Ok (Some x, w).
Proof.
  intros H. unfold points_memo in H. unfold points, raw_points.
  destruct (time r) as [t|]; [|discriminate].
  destruct (races w !! race r) as [rc|] eqn:E; [|discriminate].
  destruct (stored_best rc) as [b|] eqn:Eb; [|discriminate].
  destruct (_sto_penalty rc) as [[p|s]|] eqn:Ep; try discriminate.
  destruct (dec_div t b) as [q|e] eqn:Eq; [|discriminate].
  injection H as <-.
  assert (Hg : get_race (race r) w = Ok (rc, w))
    by (unfold get_race; rewrite E; reflexivity).
  assert (Hb : best_time racers (race r) w = Ok (b, w)).
  { unfold best_time. rewrite (bind_Ok_intro _ _ _ _ _ Hg), Eb. reflexivity. }
  assert (Hp : penalty prevseason racers (race r) w = Ok (VDec p, w)).
  { unfold penalty. rewrite (bind_Ok_intro _ _ _ _ _ Hg), Ep. reflexivity. }
  erewrite bind_Ok_intro; cycle 1.
  { rewrite (bind_Ok_intro _ _ _ _ _ Hb).
    erewrite bind_Ok_intro; [|unfold lift; rewrite Eq; reflexivity].
    rewrite (bind_Ok_intro _ _ _ _ _ Hg). reflexivity. }
  rewrite (bind_Ok_intro _ _ _ _ _ Hp). reflexivity.
Qed.

(** ** The racer-level operations and the memo *)

Lemma season_memo_grows w w' rt l ps :
  races_grow w w' -> season_memo w rt l = Some ps ->
  season_memo w' rt l = Some ps.
Proof.
  intros F. revert ps. induction l as [|r l IH]; intros ps H; simpl in *.
  - exact H.
  - destruct (time r) as [t|]; [|auto].
    destruct (races w !! race r) as [rc|] eqn:E; [|discriminate].
    pose proof F as F'.
    eapply Forall2_lookup_l in F' as (rc' & E' & T & _); [|exact E].
    rewrite E', T.
    destruct (RaceType_eqb (rtype rc) rt); [|auto].
    destruct (points_memo w r) as [p|] eqn:Ep; [|discriminate].
    destruct (season_memo w rt l) as [ps'|]; [|discriminate].
    rewrite (points_memo_grows _ _ _ _ F Ep), (IH _ eq_refl). exact H.
Qed.

Section RacerFrames.
Variable prevseason : gmap string (RaceType -> Q).
Variable lszeroes : RaceType -> Q.
Variable racers : list Racer.

Lemma season_points_unfold rc rt :
  season_points prevseason racers rc rt
  = foldM (season_step prevseason racers rt) [] (results rc).
Proof. reflexivity. Qed.

Lemma season_step_grows rt acc r : frames grows (season_step prevseason racers rt acc r).
Proof.
  unfold season_step. destruct (time r) as [t|]; [|apply frames_ret, _].
  apply frames_bind; [apply _|apply frames_get_race, _|]. intros rc.
  destruct (RaceType_eqb (rtype rc) rt); [|apply frames_ret, _].
  apply frames_bind; [apply _|apply points_grows|]. intros [v|].
  - apply frames_ret, _.
  - apply frames_raise.
Qed.

Lemma season_points_grows rc rt :
  frames grows (season_points prevseason racers rc rt).
Proof.
  rewrite season_points_unfold. apply frames_foldM; [apply _|].
  intros acc r. apply season_step_grows.
Qed.

Lemma season_fold_post rt l acc w v w' :
  foldM (season_step prevseason racers rt) acc l w = Ok (v, w') ->
  exists ps, v = acc ++ ps /\ season_memo w' rt l = Some ps.
Proof.
  revert acc w. induction l as [|r l IH]; intros acc w H; simpl in H.
  - inv_run H. exists []. rewrite app_nil_r. auto.
  - inv_run H.
    assert (G : grows w0 w').
    { eapply frames_foldM; [apply _| |exact Hk].
      intros; apply season_step_grows. }
    apply IH in Hk as (ps & -> & Hps).
    unfold season_step in Hm. simpl.
    destruct (time r) as [t|] eqn:Et.
    + inv_run Hm. inv_run Hm0.
      assert (G0 : grows w w0).
      { destruct (RaceType_eqb (rtype a0) rt).
        - inv_run Hk. destruct a1; inv_run Hk0.
          eapply points_grows; eassumption.
        - inv_run Hk. reflexivity. }
      assert (G1 : grows w w') by (etransitivity; eassumption).
      destruct (same_zeroes_lookup _ _ _ _ _ G1 Hm0) as (rc' & E' & T & _).
      rewrite E', T.
      destruct (RaceType_eqb (rtype a0) rt).
      * inv_run Hk.
        eapply points_post in Hm as (x & -> & Hx); [|exact Et].
        inv_run Hk0.
        rewrite (points_memo_grows _ _ _ _ (grows_races_grow _ _ G) Hx), Hps.
        exists (x :: ps). rewrite <- app_assoc. auto.
      * inv_run Hk. eauto.
    + inv_run Hm. eauto.
Qed.

Lemma season_points_post rc rt w v w' :
  season_points prevseason racers rc rt w = Ok (v, w') ->
  season_memo w' rt (results rc) = Some v.
Proof.
  rewrite season_points_unfold. intros H.
  apply season_fold_post in H as (ps & -> & H). exact H.
Qed.

Lemma season_fold_of_memo rt l acc w ps :
  season_memo w rt l = Some ps ->
  foldM (season_step prevseason racers rt) acc l w = Ok (acc ++ ps, w).
Proof.
  revert acc ps. induction l as [|r l IH]; intros acc ps H; simpl in *.
  - injection H as <-. rewrite app_nil_r. reflexivity.
  - unfold season_step at 1.
    destruct (time r) as [t|]; [|rewrite bind_Ok_intro with (a := acc) (w1 := w);
                                  [auto|reflexivity]].
    destruct (races w !! race r) as [rc|] eqn:E; [|discriminate].
    assert (Hg : get_race (race r) w = Ok (rc, w))
      by (unfold get_race; rewrite E; reflexivity).
    destruct (RaceType_eqb (rtype rc) rt) eqn:Ert.
    + destruct (points_memo w r) as [p|] eqn:Ep; [|discriminate].
      destruct (season_memo w rt l) as [ps'|]; [|discriminate].
      injection H as <-.
      erewrite bind_Ok_intro; cycle 1.
      { rewrite (bind_Ok_intro _ _ _ _ _ Hg), Ert.
        rewrite (bind_Ok_intro _ _ _ _ _
                   (points_of_memo prevseason racers _ _ _ Ep)).
        reflexivity. }
      rewrite (IH _ _ eq_refl), <- app_assoc. reflexivity.
    + erewrite bind_Ok_intro; cycle 1.
      { rewrite (bind_Ok_intro _ _ _ _ _ Hg), Ert. reflexivity. }
      auto.
Qed.

Lemma best_two_grows rc rt :
  frames grows (best_two prevseason lszeroes racers rc rt).
Proof.
  unfold best_two.
  apply frames_bind; [apply _|apply season_points_grows|]. intros l.
  apply frames_ret, _.
Qed.

Lemma best_two_post rc rt w v w' :
  best_two prevseason lszeroes racers rc rt w = Ok (v, w') ->
  best_two_memo prevseason lszeroes w' rc rt = Some v.
Proof.
  intros H. unfold best_two in H. inv_run H. inv_run Hk.
  apply season_points_post in Hm. unfold best_two_memo. rewrite Hm.
  reflexivity.
Qed.

Lemma best_two_of_memo rc rt w v :
  best_two_memo prevseason lszeroes w rc rt = Some v ->
  best_two prevseason lszeroes racers rc rt w = Ok (v, w).
Proof.
  unfold best_two_memo, best_two. intros H.
  destruct (season_memo w rt (results rc)) as [ps|] eqn:E; [|discriminate].
  injection H as <-.
  rewrite season_points_unfold.
  rewrite (bind_Ok_intro _ _ _ _ _ (season_fold_of_memo _ _ [] _ _ E)).
  reflexivity.
Qed.

(** What one evaluation of [best_avg] does. *)
Lemma best_avg_post rc rt w v w' :
  best_avg prevseason lszeroes racers rc rt w = Ok (v, w') ->
  exists avg w1,
    best_two_memo prevseason lszeroes w1 rc rt <> None /\
    avg_memo prevseason lszeroes w1 rc rt = Some avg /\
    grows w w1 /\ w' = lower_zero rt avg w1 /\ v = avg - zeroes w' rt.
Proof.
  intros H. unfold best_avg in H. inv_run H.
  pose proof (best_two_grows _ _ _ _ _ Hm) as G.
  apply best_two_post in Hm.
  destruct a as [|t0 [|t1 l]]; try discriminate.
  inv_run Hk. unfold get_zero in Hm0. injection Hm0 as <- <-.
  inv_run Hk0. inv_run Hk.
  unfold get_zero in Hm1. injection Hm1 as <- <-. inv_run Hk0.
  exists ((t0 + t1) / 2), w0. split; [congruence|].
  split; [unfold avg_memo; rewrite Hm; reflexivity|].
  split; [exact G|].
  unfold lower_zero.
  destruct (Qltb ((t0 + t1) / 2) (zeroes w0 rt)).
  - unfold set_zero in Hm0. injection Hm0 as <-. auto.
  - inv_run Hm0. auto.
Qed.

Lemma best_avg_of_memo rc rt w avg :
  avg_memo prevseason lszeroes w rc rt = Some avg ->
  best_avg prevseason lszeroes racers rc rt w
  = Ok (avg - zeroes (lower_zero rt avg w) rt, lower_zero rt avg w).
Proof.
  unfold avg_memo. intros H.
  destruct (best_two_memo prevseason lszeroes w rc rt) as [l|] eqn:E;
    [|discriminate].
  destruct l as [|t0 [|t1 l]]; try discriminate. injection H as <-.
  unfold best_avg.
  rewrite (bind_Ok_intro _ _ _ _ _ (best_two_of_memo _ _ _ _ E)).
  unfold lower_zero, bind, get_zero.
  destruct (Qltb ((t0 + t1) / 2) (zeroes w rt)); reflexivity.
Qed.
End RacerFrames.

Lemma best_two_memo_grows prevseason lszeroes w w' rc rt l :
  races_grow w w' ->
  best_two_memo prevseason lszeroes w rc rt = Some l ->
  best_two_memo prevseason lszeroes w' rc rt = Some l.
Proof.
  unfold best_two_memo. intros F H.
  destruct (season_memo w rt (results rc)) as [ps|] eqn:E; [|discriminate].
  rewrite (season_memo_grows _ _ _ _ _ F E). exact H.
Qed.

Lemma avg_memo_grows prevseason lszeroes w w' rc rt x :
  races_grow w w' ->
  avg_memo prevseason lszeroes w rc rt = Some x ->
  avg_memo prevseason lszeroes w' rc rt = Some x.
Proof.
  unfold avg_memo. intros F H.
  destruct (best_two_memo prevseason lszeroes w rc rt) as [l|] eqn:E;
    [|discriminate].
  rewrite (best_two_memo_grows _ _ _ _ _ _ _ F E). exact H.
Qed.

Lemma lower_zero_races rt avg w : races (lower_zero rt avg w) = races w.
Proof. unfold lower_zero. destruct (Qltb avg (zeroes w rt)); reflexivity. Qed.

Lemma lower_zero_races_grow rt avg w : races_grow w (lower_zero rt avg w).
Proof. unfold races_grow. rewrite lower_zero_races. reflexivity. Qed.

(** ** Zero factors *)

Lemma upd_zero_same rt v z : upd_zero rt v z rt = v.
Proof. unfold upd_zero. rewrite RaceType_eqb_refl. reflexivity. Qed.

Lemma upd_zero_other rt rt' v z : rt' <> rt -> upd_zero rt v z rt' = z rt'.
Proof.
  intros H. unfold upd_zero. apply RaceType_eqb_neq in H. rewrite H.
  reflexivity.
Qed.

Lemma lower_zero_le rt avg w rt' :
  zeroes (lower_zero rt avg w) rt' <= zeroes w rt'.
Proof.
  unfold lower_zero. destruct (Qltb avg (zeroes w rt)) eqn:E; simpl.
  - unfold upd_zero. destruct (RaceType_eqb rt' rt) eqn:Er.
    + apply RaceType_eqb_eq in Er as ->. apply Qltb_lt in E.
      apply Qlt_le_weak, E.
    + apply Qle_refl.
  - apply Qle_refl.
Qed.

Lemma lower_zero_le_avg rt avg w : zeroes (lower_zero rt avg w) rt <= avg.
Proof.
  unfold lower_zero. destruct (Qltb avg (zeroes w rt)) eqn:E; simpl.
  - rewrite upd_zero_same. apply Qle_refl.
  - apply Qltb_ge in E. exact E.
Qed.

Lemma lower_zero_cases rt avg w :
  lower_zero rt avg w = w \/
  (avg < zeroes w rt /\
   zeroes (lower_zero rt avg w) = upd_zero rt avg (zeroes w)).
Proof.
  unfold lower_zero. destruct (Qltb avg (zeroes w rt)) eqn:E; simpl.
  - right. apply Qltb_lt in E. auto.
  - left. reflexivity.
Qed.

Lemma lower_zero_id rt avg w : zeroes w rt <= avg -> lower_zero rt avg w = w.
Proof.
  intros H. unfold lower_zero. apply Qltb_ge in H. rewrite H. reflexivity.
Qed.

#[export] Instance descends_preorder : PreOrder descends.
Proof.
  split.
  - intros w. split; [reflexivity|]. intros rt. apply Qle_refl.
  - intros w1 w2 w3 [F1 Z1] [F2 Z2]. split.
    + etransitivity; eassumption.
    + intros rt. eapply Qle_trans; [apply Z2|apply Z1].
Qed.

Lemma grows_descends w w' : grows w w' -> descends w w'.
Proof.
  intros [Z F]. split; [exact F|]. intros rt. rewrite Z. apply Qle_refl.
Qed.

Lemma lower_zero_descends rt avg w : descends w (lower_zero rt avg w).
Proof.
  split; [apply lower_zero_races_grow|]. intros rt'. apply lower_zero_le.
Qed.

Section ZeroFactors.
Variable prevseason : gmap string (RaceType -> Q).
Variable lszeroes : RaceType -> Q.

Local Abbreviation settled := (settled prevseason lszeroes).
Local Abbreviation attained := (attained prevseason lszeroes).
Local Abbreviation avg_memo := (avg_memo prevseason lszeroes).

Lemma settled_descends w w' rc rt :
  descends w w' -> settled w rc rt -> settled w' rc rt.
Proof.
  intros [F Z] (avg & E & L). exists avg. split.
  - eapply avg_memo_grows; eassumption.
  - eapply Qle_trans; [apply Z|exact L].
Qed.

(** A settled average is returned as it is and changes nothing, whatever
    the roster. *)
Lemma settled_best_avg w rc rt avg :
  avg_memo w rc rt = Some avg -> zeroes w rt <= avg ->
  forall R, best_avg prevseason lszeroes R rc rt w
            = Ok (avg - zeroes w rt, w).
Proof.
  intros E L R. rewrite (best_avg_of_memo _ _ _ _ _ _ _ E).
  rewrite (lower_zero_id _ _ _ L). reflexivity.
Qed.

Lemma best_avg_descends R rc rt :
  frames descends (best_avg prevseason lszeroes R rc rt).
Proof.
  intros w v w' H.
  apply best_avg_post in H as (avg & w1 & _ & E & G & -> & _).
  etransitivity; [apply grows_descends, G|apply lower_zero_descends].
Qed.

Lemma best_avg_settles R rc rt w v w' :
  best_avg prevseason lszeroes R rc rt w = Ok (v, w') -> settled w' rc rt.
Proof.
  intros H. apply best_avg_post in H as (avg & w1 & _ & E & G & -> & _).
  exists avg. split.
  - eapply avg_memo_grows; [apply lower_zero_races_grow|exact E].
  - apply lower_zero_le_avg.
Qed.

(** The zero factors after one evaluation of [best_avg]. *)
Lemma best_avg_zeroes R rc rt w v w' :
  best_avg prevseason lszeroes R rc rt w = Ok (v, w') ->
  zeroes w' = zeroes w \/
  exists avg, avg_memo w' rc rt = Some avg /\ avg < zeroes w rt /\
              zeroes w' = upd_zero rt avg (zeroes w).
Proof.
  intros H. apply best_avg_post in H as (avg & w1 & _ & E & [Z F] & -> & _).
  destruct (lower_zero_cases rt avg w1) as [->|[L U]].
  - left. exact Z.
  - right. exists avg. rewrite Z in L, U. split; [|auto].
    eapply avg_memo_grows; [apply lower_zero_races_grow|exact E].
Qed.

Lemma best_avg_attained R rc rt w v w' rt' :
  best_avg prevseason lszeroes R rc rt w = Ok (v, w') ->
  attained [rc] w w' rt'.
Proof.
  intros H. destruct (best_avg_zeroes _ _ _ _ _ _ H) as [Z|(avg & E & L & U)].
  - left. rewrite Z. reflexivity.
  - destruct (RaceType_eqb rt' rt) eqn:Er.
    + apply RaceType_eqb_eq in Er as ->. right. exists rc.
      split; [left; reflexivity|]. rewrite U, upd_zero_same. exact E.
    + left. rewrite U. unfold upd_zero. rewrite Er. reflexivity.
Qed.

Lemma attained_trans l1 l2 w1 w2 w3 rt :
  attained l1 w1 w2 rt -> attained l2 w2 w3 rt -> races_grow w2 w3 ->
  attained (l1 ++ l2) w1 w3 rt.
Proof.
  intros [Z1|(rc & I1 & E1)] [Z2|(rc2 & I2 & E2)] F.
  - left. congruence.
  - right. exists rc2. split; [apply in_or_app; auto|exact E2].
  - right. exists rc. split; [apply in_or_app; auto|].
    rewrite Z2. eapply avg_memo_grows; eassumption.
  - right. exists rc2. split; [apply in_or_app; auto|exact E2].
Qed.

Lemma attained_weaken l l' w w' rt :
  (forall rc, In rc l -> In rc l') -> attained l w w' rt ->
  attained l' w w' rt.
Proof.
  intros Hl [Z|(rc & I & E)]; [left; exact Z|right; eauto].
Qed.

(** [season_avg]: the three categories in turn. *)
Lemma season_avg_post R rc w v w' :
  season_avg prevseason lszeroes R rc w = Ok (v, w') ->
  descends w w' /\ (forall rt, settled w' rc rt) /\
  (forall rt, attained [rc] w w' rt).
Proof.
  intros H. unfold season_avg, all_RaceType in H. simpl in H. inv_runs.
  match goal with
  | H1 : best_avg _ _ _ _ GS _ = _, H2 : best_avg _ _ _ _ SC _ = _,
    H3 : best_avg _ _ _ _ CL _ = _ |- _ =>
      rename H1 into Hm0; rename H2 into Hm1; rename H3 into Hm2
  end.
  pose proof (best_avg_descends _ _ _ _ _ _ Hm0) as D1.
  pose proof (best_avg_descends _ _ _ _ _ _ Hm1) as D2.
  pose proof (best_avg_descends _ _ _ _ _ _ Hm2) as D3.
  pose proof (best_avg_settles _ _ _ _ _ _ Hm0) as S1.
  pose proof (best_avg_settles _ _ _ _ _ _ Hm1) as S2.
  pose proof (best_avg_settles _ _ _ _ _ _ Hm2) as S3.
  split; [|split].
  - etransitivity; [exact D1|]. etransitivity; eassumption.
  - intros [| |].
    + eapply settled_descends; [|exact S1]. etransitivity; eassumption.
    + eapply settled_descends; eassumption.
    + exact S3.
  - intros rt.
    pose proof (best_avg_attained _ _ _ _ _ _ rt Hm0) as A1.
    pose proof (best_avg_attained _ _ _ _ _ _ rt Hm1) as A2.
    pose proof (best_avg_attained _ _ _ _ _ _ rt Hm2) as A3.
    pose proof (attained_trans _ _ _ _ _ _ A1 A2 (proj1 D2)) as A12.
    pose proof (attained_trans _ _ _ _ _ _ A12 A3 (proj1 D3)) as A123.
    eapply attained_weaken; [|exact A123].
    simpl. intros x [->|[->|[->|[]]]]; left; reflexivity.
Qed.

Lemma season_avg_descends R rc :
  frames descends (season_avg prevseason lszeroes R rc).
Proof. intros w v w' H. apply season_avg_post in H. tauto. Qed.

(** The warm-up pass over any list of racers. *)
Lemma warm_up_fold_post R l w v w' :
  foldM (fun _ rc =>
           let* _ := season_avg prevseason lszeroes R rc in ret tt)
        tt l w = Ok (v, w') ->
  descends w w' /\ (forall rc rt, In rc l -> settled w' rc rt) /\
  (forall rt, attained l w w' rt).
Proof.
  revert w. induction l as [|rc l IH]; intros w H; simpl in H.
  - inv_run H. split; [reflexivity|]. split; [intros ? ? []|].
    intros rt. left. reflexivity.
  - inv_run H. inv_run Hm. inv_run Hk0.
    apply season_avg_post in Hm0 as (D1 & S1 & A1).
    apply IH in Hk as (D2 & S2 & A2).
    split; [etransitivity; eassumption|]. split.
    + intros rc' rt [<-|I].
      * eapply settled_descends; [exact D2|apply S1].
      * apply S2, I.
    + intros rt.
      apply (attained_trans [rc] l _ _ _ _ (A1 rt) (A2 rt) (proj1 D2)).
Qed.

Lemma warm_up_post racers w v w' :
  warm_up prevseason lszeroes racers w = Ok (v, w') ->
  descends w w' /\ (forall rc rt, In rc racers -> settled w' rc rt) /\
  (forall rt, attained racers w w' rt).
Proof. apply warm_up_fold_post. Qed.

(** Every evaluation descends. *)
Lemma evaluation_descends w w' :
  evaluation prevseason lszeroes w w' -> descends w w'.
Proof.
  intros [R i v H|R r v H|R i v H|R i v H|R i v H|R i v H|R i v H|R r v H
         |R rc rt v H|R rc rt v H|R rc v H].
  - apply grows_descends, keeps_grows. eapply best_time_keeps, H.
  - apply grows_descends, keeps_grows. eapply raw_points_keeps, H.
  - apply grows_descends, keeps_grows. eapply A_keeps, H.
  - apply grows_descends, keeps_grows. eapply BC_keeps, H.
  - apply grows_descends, keeps_grows. eapply B_keeps, H.
  - apply grows_descends, keeps_grows. eapply C_keeps, H.
  - apply grows_descends. eapply penalty_grows, H.
  - apply grows_descends. eapply points_grows, H.
  - apply grows_descends. eapply best_two_grows, H.
  - eapply best_avg_descends, H.
  - eapply season_avg_descends, H.
Qed.

Lemma reachable_descends rs w :
  reachable prevseason lszeroes rs w -> descends (init_world rs) w.
Proof.
  unfold reachable. induction 1 as [|w1 w2 w3 H _ IH].
  - reflexivity.
  - etransitivity; [apply evaluation_descends, H|exact IH].
Qed.
End ZeroFactors.

Section CategoryAverage.
Variable prevseason : gmap string (RaceType -> Q).
Variable lszeroes : RaceType -> Q.

Lemma best_two_memo_length w rc rt l :
  best_two_memo prevseason lszeroes w rc rt = Some l -> length l = 2%nat.
Proof.
  unfold best_two_memo.
  destruct (season_memo w rt (results rc)) as [ps|]; [|discriminate].
  intros [= <-]. rewrite length_take. unfold pysort.
  rewrite sort_by_length, length_app. simpl length.
  replace (length ps + 2)%nat with (S (S (length ps))) by lia. reflexivity.
Qed.

Lemma best_two_memo_avg w rc rt l :
  best_two_memo prevseason lszeroes w rc rt = Some l ->
  exists t0 t1, l = [t0; t1] /\
    avg_memo prevseason lszeroes w rc rt = Some ((t0 + t1) / 2).
Proof.
  intros H. pose proof (best_two_memo_length _ _ _ _ H) as L.
  destruct l as [|t0 [|t1 [|t2 l]]]; try discriminate.
  exists t0, t1. split; [reflexivity|]. unfold avg_memo. rewrite H.
  reflexivity.
Qed.

(** [best_avg] is [category_average] followed by the update of the zero
    factor. *)
Lemma best_avg_unfold R rc rt w :
  best_avg prevseason lszeroes R rc rt w =
  bind (category_average prevseason lszeroes R rc rt)
       (fun avg w1 => Ok (avg - zeroes (lower_zero rt avg w1) rt,
                          lower_zero rt avg w1)) w.
Proof.
  unfold best_avg, category_average, bind.
  destruct (best_two prevseason lszeroes R rc rt w) as [[l w1]|e];
    [|reflexivity].
  destruct l as [|t0 [|t1 l]]; try reflexivity.
  unfold get_zero, lower_zero, ret.
  destruct (Qltb ((t0 + t1) / 2) (zeroes w1 rt)); reflexivity.
Qed.

Lemma category_average_of_memo R rc rt w avg :
  avg_memo prevseason lszeroes w rc rt = Some avg ->
  category_average prevseason lszeroes R rc rt w = Ok (avg, w).
Proof.
  unfold avg_memo. intros H.
  destruct (best_two_memo prevseason lszeroes w rc rt) as [l|] eqn:E;
    [|discriminate].
  destruct l as [|t0 [|t1 l]]; try discriminate. injection H as <-.
  unfold category_average.
  rewrite (bind_Ok_intro _ _ _ _ _ (best_two_of_memo _ _ _ _ _ _ _ E)).
  reflexivity.
Qed.

Lemma category_average_grows R rc rt :
  frames grows (category_average prevseason lszeroes R rc rt).
Proof.
  unfold category_average.
  apply frames_bind; [apply _|apply best_two_grows|].
  intros [|t0 [|t1 l]]; try apply frames_raise. apply frames_ret, _.
Qed.

(** The zero factors after one evaluation of [best_avg], in terms of the
    raw category average computed on the way. *)
Lemma best_avg_update R rc rt w v w' :
  best_avg prevseason lszeroes R rc rt w = Ok (v, w') ->
  exists avg w1,
    category_average prevseason lszeroes R rc rt w = Ok (avg, w1) /\
    v = avg - zeroes w' rt /\
    (zeroes w' = zeroes w \/
     (avg < zeroes w rt /\ zeroes w' = upd_zero rt avg (zeroes w))).
Proof.
  rewrite best_avg_unfold. intros H. apply bind_Ok in H as (avg & w1 & E & H).
  injection H as <- <-. exists avg, w1. split; [exact E|].
  split; [reflexivity|].
  apply category_average_grows in E as [Z _].
  destruct (lower_zero_cases rt avg w1) as [->|[L U]].
  - left. exact Z.
  - right. rewrite Z in L, U. auto.
Qed.

(** Evaluating [best_avg] a second time returns the same value and leaves
    the world as it is. *)
Lemma best_avg_twice R R' rc rt w v w' :
  best_avg prevseason lszeroes R rc rt w = Ok (v, w') ->
  best_avg prevseason lszeroes R' rc rt w' = Ok (v, w').
Proof.
  intros H. apply best_avg_post in H as (avg & w1 & _ & E & G & -> & ->).
  assert (E' : avg_memo prevseason lszeroes (lower_zero rt avg w1) rc rt
               = Some avg).
  { eapply avg_memo_grows; [apply lower_zero_races_grow|exact E]. }
  apply settled_best_avg; [exact E'|apply lower_zero_le_avg].
Qed.

Lemma settled_best_avg_memo R rc rt w :
  settled prevseason lszeroes w rc rt ->
  best_avg prevseason lszeroes R rc rt w
  = Ok (best_avg_memo prevseason lszeroes w rc rt, w).
Proof.
  intros (a & E & L). unfold best_avg_memo. rewrite E.
  apply settled_best_avg; assumption.
Qed.

Lemma settled_season_avg R rc w :
  (forall rt, settled prevseason lszeroes w rc rt) ->
  season_avg prevseason lszeroes R rc w
  = Ok (season_avg_memo prevseason lszeroes w rc, w).
Proof.
  intros S. unfold season_avg, season_avg_memo, all_RaceType. simpl.
  erewrite bind_Ok_intro; [reflexivity|].
  rewrite (bind_Ok_intro _ _ _ _ _ (settled_best_avg_memo R _ _ _ (S GS))).
  erewrite bind_Ok_intro; [reflexivity|].
  rewrite (bind_Ok_intro _ _ _ _ _ (settled_best_avg_memo R _ _ _ (S SC))).
  erewrite bind_Ok_intro; [reflexivity|].
  rewrite (bind_Ok_intro _ _ _ _ _ (settled_best_avg_memo R _ _ _ (S CL))).
  reflexivity.
Qed.
End CategoryAverage.

(** C1.  A zero factor starts at the scale factor of its category; an
    evaluation of [best_avg] leaves it alone or sets it to the racer's raw
    category average, and only when that is strictly smaller; so no
    evaluation of the engine ever raises a zero factor, and at every point
    of a run each zero factor is at most the scale factor; after the warm-up
    pass each zero factor is the minimum of the scale factor and of the raw
    category averages of all racers: it is below all of them and equal to
    one of them. *)
Theorem zero_factor_run (prevseason : gmap string (RaceType -> Q))
    (lszeroes : RaceType -> Q) :
  (forall rs rt, zeroes (init_world rs) rt = ffactor rt) /\
  (forall R rc rt w v w',
      best_avg prevseason lszeroes R rc rt w = Ok (v, w') ->
      exists avg w1,
        category_average prevseason lszeroes R rc rt w = Ok (avg, w1) /\
        (zeroes w' = zeroes w \/
         (avg < zeroes w rt /\ zeroes w' = upd_zero rt avg (zeroes w)))) /\
  (forall w w', evaluation prevseason lszeroes w w' ->
      forall rt, zeroes w' rt <= zeroes w rt) /\
  (forall rs w, reachable prevseason lszeroes rs w ->
      forall rt, zeroes w rt <= ffactor rt) /\
  (forall rs racers w',
      warm_up prevseason lszeroes racers (init_world rs) = Ok (tt, w') ->
      forall rt,
        zeroes w' rt <= ffactor rt /\
        (forall rc, In rc racers ->
           exists avg,
             category_average prevseason lszeroes racers rc rt w'
             = Ok (avg, w') /\
             zeroes w' rt <= avg) /\
        (zeroes w' rt = ffactor rt \/
         exists rc avg,
           In rc racers /\
           category_average prevseason lszeroes racers rc rt w'
           = Ok (avg, w') /\
           zeroes w' rt = avg)).
Proof.
  split; [reflexivity|]. split; [|split; [|split]].
  - intros R rc rt w v w' H.
    apply best_avg_update in H as (avg & w1 & E & _ & U). eauto.
  - intros w w' H. apply evaluation_descends in H. apply H.
  - intros rs w H rt. apply reachable_descends in H as [_ Z]. apply (Z rt).
  - intros rs racers w' H rt.
    apply warm_up_post in H as ([_ Z] & S & A). split; [apply (Z rt)|].
    split.
    + intros rc I. destruct (S rc rt I) as (avg & E & L). exists avg.
      split; [|exact L]. apply category_average_of_memo, E.
    + destruct (A rt) as [E|(rc & I & E)]; [left; exact E|right].
      exists rc, (zeroes w' rt). split; [exact I|]. split; [|reflexivity].
      apply category_average_of_memo, E.
Qed.

(** C10.  Evaluating [best_avg] twice in succession returns the same value
    both times, and the second evaluation changes nothing, so no zero
    factor; once the warm-up pass has evaluated the season average of every
    racer, every later evaluation of [best_avg] and [season_avg] for a racer
    of the roster returns a value fixed by the racer (and category) alone,
    whatever the order of the evaluations and whatever the order of the
    roster, and leaves the world, so every zero factor, as it is. *)
Theorem best_avg_idempotent (prevseason : gmap string (RaceType -> Q))
    (lszeroes : RaceType -> Q) :
  (forall R rc rt w v w',
      best_avg prevseason lszeroes R rc rt w = Ok (v, w') ->
      best_avg prevseason lszeroes R rc rt w' = Ok (v, w')) /\
  (forall racers w0 w1,
      warm_up prevseason lszeroes racers w0 = Ok (tt, w1) ->
      exists (avg : Racer -> RaceType -> Q) (savg : Racer -> Q),
        forall R rc, In rc racers ->
          (forall rt,
              best_avg prevseason lszeroes R rc rt w1 = Ok (avg rc rt, w1)) /\
          season_avg prevseason lszeroes R rc w1 = Ok (savg rc, w1)).
Proof.
  split.
  - intros R rc rt w v w'. apply best_avg_twice.
  - intros racers w0 w1 H. apply warm_up_post in H as (_ & S & _).
    exists (best_avg_memo prevseason lszeroes w1),
           (season_avg_memo prevseason lszeroes w1).
    intros R rc I. split.
    + intros rt. apply settled_best_avg_memo, S, I.
    + apply settled_season_avg. intros rt. apply S, I.
Qed.

(** ** The memo fields hold the right values *)

Section Soundness.
Variable prevseason : gmap string (RaceType -> Q).
Variable lszeroes : RaceType -> Q.
Variable racers : list Racer.
Variable rs : list Race.

Local Abbreviation memo_ok := (memo_ok prevseason racers rs).
Local Abbreviation sound := (sound prevseason racers rs).
Local Abbreviation race_ok := (race_ok prevseason racers rs).

Lemma memo_ok_lookup w i r0 :
  memo_ok w -> rs !! i = Some r0 ->
  exists r, races w !! i = Some r /\ race_ok i r0 r.
Proof.
  intros [L H] E.
  destruct (races w !! i) as [r|] eqn:Er.
  - eauto.
  - apply lookup_ge_None in Er. apply lookup_lt_Some in E. lia.
Qed.

Lemma memo_ok_lookup_None w i :
  memo_ok w -> rs !! i = None -> races w !! i = None.
Proof.
  intros [L H] E. apply lookup_ge_None in E. apply lookup_ge_None. lia.
Qed.

Lemma memo_ok_upd w i f :
  memo_ok w ->
  (forall r0 r, rs !! i = Some r0 -> races w !! i = Some r ->
                race_ok i r0 r -> race_ok i r0 (f r)) ->
  memo_ok (mkWorld (alter f i (races w)) (zeroes w)).
Proof.
  intros [L H] Hf. split; simpl.
  - rewrite length_alter. exact L.
  - intros j r0 r E Er. destruct (decide (i = j)) as [->|Hne].
    + rewrite list_lookup_alter_eq in Er.
      destruct (races w !! j) as [r1|] eqn:E1; [|discriminate].
      injection Er as <-. eapply Hf; eauto.
    + rewrite list_lookup_alter_ne in Er by exact Hne. eauto.
Qed.

Lemma memo_ok_zeroes w z : memo_ok w -> memo_ok (mkWorld (races w) z).
Proof. intros [L H]. split; simpl; assumption. Qed.

Lemma memo_ok_init : forallb fresh rs = true -> memo_ok (init_world rs).
Proof.
  intros F. split; [reflexivity|]. simpl. intros i r0 r E Er.
  assert (r = r0) as -> by congruence.
  rewrite forallb_forall in F.
  assert (Hf : fresh r0 = true).
  { apply F. apply list_elem_of_In. eapply list_elem_of_lookup_2, E. }
  unfold fresh in Hf.
  destruct (_sto_B r0) eqn:EB; [discriminate|].
  destruct (_sto_C r0) eqn:EC; [discriminate|].
  destruct (stored_best r0) eqn:Eb; [discriminate|].
  repeat split; try (intros ?; rewrite ?EB, ?EC, ?Eb; discriminate).
  - intros v Hv. unfold penalty_value. rewrite E, Hv. reflexivity.
  - auto.
Qed.

Lemma sound_ret {A : Type} (a : A) : sound (ret a) (Ok a).
Proof. intros w H. exists w. auto. Qed.

Lemma sound_raise {A : Type} (e : exn) : sound (@raise A e) (Raise e).
Proof. intros w H. reflexivity. Qed.

Lemma sound_lift {A : Type} (m : res A) : sound (lift m) m.
Proof. intros w H. destruct m; [exists w; auto|reflexivity]. Qed.

Lemma sound_bind {A B : Type} (m : Comp A) (k : A -> Comp B) v (kv : A -> res B) :
  sound m v -> (forall a, sound (k a) (kv a)) ->
  sound (bind m k) (res_bind v kv).
Proof.
  intros Hm Hk w H. specialize (Hm w H). destruct v as [a|e]; simpl.
  - destruct Hm as (w1 & E & H1). rewrite (bind_Ok_intro _ _ _ _ _ E).
    apply Hk, H1.
  - rewrite (bind_Raise_intro _ _ _ _ Hm). reflexivity.
Qed.

Lemma sound_foldM {A B : Type} (f : B -> A -> Comp B) fv (l : list A) :
  (forall acc a, sound (f acc a) (fv acc a)) ->
  forall acc, sound (foldM f acc l) (res_foldM fv acc l).
Proof.
  intros Hf. induction l as [|a l IH]; intros acc; simpl.
  - apply sound_ret.
  - apply sound_bind; [apply Hf|]. intros acc'. apply IH.
Qed.

(** What a sound operation does when it returns. *)
Lemma sound_Ok {A : Type} (m : Comp A) value w v w' :
  sound m value -> memo_ok w -> m w = Ok (v, w') ->
  value = Ok v /\ memo_ok w'.
Proof.
  intros Hs H E. specialize (Hs w H). destruct value as [a|e].
  - destruct Hs as (w1 & E1 & H1). split; congruence.
  - congruence.
Qed.

(** After reading race [self], continue with the race as the world has
    it. *)
Lemma sound_get_race {A : Type} (i : nat) (k : Race -> Comp A) value :
  (forall r0, rs !! i = Some r0 ->
     forall w r, memo_ok w -> races w !! i = Some r -> race_ok i r0 r ->
       match value with
       | Ok v => exists w', k r w = Ok (v, w') /\ memo_ok w'
       | Raise e => k r w = Raise e
       end) ->
  (rs !! i = None -> value = Raise IndexError) ->
  sound (bind (get_race i) k) value.
Proof.
  intros HS HN w H. unfold bind, get_race.
  destruct (rs !! i) as [r0|] eqn:E.
  - destruct (memo_ok_lookup _ _ _ H E) as (r & Er & Hr). rewrite Er.
    eapply HS; eauto.
  - rewrite (memo_ok_lookup_None _ _ H E), (HN eq_refl). reflexivity.
Qed.

Lemma best_time_sound i :
  sound (best_time racers i) (best_time_value racers rs i).
Proof.
  unfold best_time. apply sound_get_race.
  - intros r0 E w r H Er (T & Hb & HB & HC & HP & HO).
    unfold best_time_value. rewrite E.
    destruct (stored_best r) as [b|] eqn:Eb.
    + rewrite (Hb b eq_refl). exists w. auto.
    + eexists. split; [reflexivity|].
      apply memo_ok_upd; [exact H|].
      intros r0' r' E' Er' (T' & Hb' & HB' & HC' & HP' & HO').
      repeat split; simpl; auto. congruence.
  - intros E. unfold best_time_value. rewrite E. reflexivity.
Qed.

Lemma raw_points_sound r :
  sound (raw_points racers r) (raw_points_value racers rs r).
Proof.
  unfold raw_points, raw_points_value.
  destruct (time r) as [t|]; [|apply sound_ret].
  intros w H. pose proof (best_time_sound (race r) w H) as Hb.
  unfold best_time_value in Hb.
  destruct (rs !! race r) as [r0|] eqn:E.
  - destruct Hb as (w1 & Eb & H1). rewrite (bind_Ok_intro _ _ _ _ _ Eb).
    destruct (dec_div t (best_scan racers (race r))) as [q|e]; simpl.
    + destruct (memo_ok_lookup _ _ _ H1 E) as (rc & Er & (T & _)).
      exists w1. split; [|exact H1].
      unfold bind, lift, get_race. rewrite Er, T. reflexivity.
    + reflexivity.
  - rewrite (bind_Raise_intro _ _ _ _ Hb). reflexivity.
Qed.

Lemma A_sound i : sound (A prevseason racers i) (A_value prevseason racers rs i).
Proof.
  unfold A. apply sound_get_race.
  - intros r0 E w r H Er (T & _). unfold A_value. rewrite E, T.
    exists w. auto.
  - intros E. unfold A_value. rewrite E. reflexivity.
Qed.

Lemma BC_sound i :
  sound (BC prevseason racers i) (BC_value prevseason racers rs i).
Proof.
  unfold BC. apply sound_get_race.
  - intros r0 E w r H Er (T & _). unfold BC_value. rewrite E, T.
    eapply (sound_foldM _ (BC_step_value racers rs)); [|exact H].
    intros acc l. unfold BC_step_value.
    apply sound_bind; [apply raw_points_sound|]. intros [p|].
    + apply sound_ret.
    + apply sound_raise.
  - intros E. unfold BC_value. rewrite E. reflexivity.
Qed.

Lemma set_sto_BC_ok i r0 r b c :
  BC_value prevseason racers rs i = Ok (b, c) ->
  race_ok i r0 r -> race_ok i r0 (set_sto_BC b c r).
Proof.
  intros E (T & Hb & HB & HC & HP & HO). repeat split; simpl; auto.
  - intros b' [= <-]. eauto.
  - intros c' [= <-]. eauto.
Qed.

Lemma B_sound i :
  sound (B prevseason racers i)
        (res_bind (BC_value prevseason racers rs i) (fun bc => Ok (fst bc))).
Proof.
  unfold B. apply sound_get_race.
  - intros r0 E w r H Er (T & Hb & HB & HC & HP & HO).
    destruct (_sto_B r) as [b|] eqn:EB.
    + destruct (HB b eq_refl) as (c & -> & _). simpl. exists w. auto.
    + pose proof (BC_sound i w H) as HBC.
      destruct (BC_value prevseason racers rs i) as [[b c]|e] eqn:EBC; simpl.
      * destruct HBC as (w1 & E1 & H1).
        rewrite (bind_Ok_intro _ _ _ _ _ E1). simpl.
        eexists. split; [reflexivity|].
        apply memo_ok_upd; [exact H1|].
        intros r0' r' _ _. apply set_sto_BC_ok, EBC.
      * rewrite (bind_Raise_intro _ _ _ _ HBC). reflexivity.
  - intros E. unfold BC_value. rewrite E. reflexivity.
Qed.

Lemma C_sound i :
  sound (C prevseason racers i)
        (res_bind (BC_value prevseason racers rs i) (fun bc => Ok (snd bc))).
Proof.
  unfold C. apply sound_get_race.
  - intros r0 E w r H Er (T & Hb & HB & HC & HP & HO).
    destruct (_sto_C r) as [c|] eqn:EC.
    + destruct (HC c eq_refl) as (b & -> & _). simpl. exists w. auto.
    + pose proof (BC_sound i w H) as HBC.
      destruct (BC_value prevseason racers rs i) as [[b c]|e] eqn:EBC; simpl.
      * destruct HBC as (w1 & E1 & H1).
        rewrite (bind_Ok_intro _ _ _ _ _ E1). simpl.
        eexists. split; [reflexivity|].
        apply memo_ok_upd; [exact H1|].
        intros r0' r' _ _. apply set_sto_BC_ok, EBC.
      * rewrite (bind_Raise_intro _ _ _ _ HBC). reflexivity.
  - intros E. unfold BC_value. rewrite E. reflexivity.
Qed.

Lemma penalty_sound i :
  sound (penalty prevseason racers i) (penalty_value prevseason racers rs i).
Proof.
  unfold penalty. apply sound_get_race.
  - intros r0 E w r H Er (T & Hb & HB & HC & HP & HO).
    destruct (_sto_penalty r) as [v|] eqn:EP.
    + rewrite (HP v eq_refl). exists w. auto.
    + assert (E0 : _sto_penalty r0 = None).
      { destruct (_sto_penalty r0) as [v|] eqn:E0; [|reflexivity].
        discriminate (HO v eq_refl). }
      unfold penalty_value. rewrite E, E0.
      pose proof (A_sound i w H) as HA.
      destruct (A_value prevseason racers rs i) as [a|e] eqn:EA;
        [|unfold A_value in EA; rewrite E in EA; discriminate].
      destruct HA as (w1 & E1 & H1). rewrite (bind_Ok_intro _ _ _ _ _ E1).
      pose proof (B_sound i w1 H1) as HB1.
      destruct (BC_value prevseason racers rs i) as [[b c]|e] eqn:EBC;
        simpl in HB1 |- *.
      * destruct HB1 as (w2 & E2 & H2).
        pose proof (C_sound i w2 H2) as HC2. rewrite EBC in HC2.
        simpl in HC2. destruct HC2 as (w3 & E3 & H3).
        rewrite (bind_Ok_intro _ _ _ _ _ E2), (bind_Ok_intro _ _ _ _ _ E3).
        eexists. split; [reflexivity|].
        apply memo_ok_upd; [exact H3|].
        intros r0' r' E' Er' (T' & Hb' & HB' & HC' & HP' & HO').
        repeat split; simpl; auto.
        -- intros v [= <-]. unfold penalty_value.
           rewrite E, E0, EA, EBC. reflexivity.
        -- intros v Hv. congruence.
      * rewrite (bind_Raise_intro _ _ _ _ HB1). reflexivity.
  - intros E. unfold penalty_value. rewrite E. reflexivity.
Qed.

Lemma points_sound r :
  sound (points prevseason racers r) (points_value prevseason racers rs r).
Proof.
  unfold points, points_value. destruct (time r) as [t|]; [|apply sound_ret].
  apply sound_bind; [apply raw_points_sound|]. intros rp.
  apply sound_bind; [apply penalty_sound|]. intros pen.
  destruct rp, pen; try apply sound_raise. apply sound_ret.
Qed.

Lemma season_step_sound rt acc r :
  sound (season_step prevseason racers rt acc r)
        (season_step_value prevseason racers rs rt acc r).
Proof.
  unfold season_step, season_step_value.
  destruct (time r) as [t|]; [|apply sound_ret].
  apply sound_get_race.
  - intros r0 E w rc H Er (T & _). rewrite E, T.
    destruct (RaceType_eqb (rtype r0) rt); [|exists w; auto].
    revert w H Er. intros w H _. revert w H.
    apply sound_bind; [apply points_sound|]. intros [v|].
    + apply sound_ret.
    + apply sound_raise.
  - intros E. rewrite E. reflexivity.
Qed.

Lemma best_two_sound rc rt :
  sound (best_two prevseason lszeroes racers rc rt)
        (best_two_value prevseason lszeroes racers rs rc rt).
Proof.
  unfold best_two, best_two_value, season_points.
  apply sound_bind.
  - apply sound_foldM. intros acc r. apply season_step_sound.
  - intros l. apply sound_ret.
Qed.

(** Lowering a zero factor does not touch the races. *)
Lemma lower_zero_memo_ok rt avg w : memo_ok w -> memo_ok (lower_zero rt avg w).
Proof.
  intros H. unfold lower_zero. destruct (Qltb avg (zeroes w rt)); [|exact H].
  apply memo_ok_zeroes, H.
Qed.

Lemma best_avg_memo_ok rc rt w v w' :
  memo_ok w -> best_avg prevseason lszeroes racers rc rt w = Ok (v, w') ->
  memo_ok w'.
Proof.
  intros H E. unfold best_avg in E. apply bind_Ok in E as (l & w1 & E1 & E).
  apply (sound_Ok _ _ _ _ _ (best_two_sound rc rt) H) in E1 as [_ H1].
  destruct l as [|t0 [|t1 l]]; try discriminate.
  unfold bind, get_zero in E.
  destruct (Qltb ((t0 + t1) / 2) (zeroes w1 rt)).
  - unfold set_zero in E. injection E as <- <-. apply memo_ok_zeroes, H1.
  - unfold ret in E. injection E as <- <-. exact H1.
Qed.

Lemma season_avg_memo_ok rc w v w' :
  memo_ok w -> season_avg prevseason lszeroes racers rc w = Ok (v, w') ->
  memo_ok w'.
Proof.
  intros H E. unfold season_avg, all_RaceType in E. simpl in E. inv_runs.
  repeat match goal with
  | H : memo_ok ?w, E : best_avg _ _ _ _ _ ?w = Ok (_, ?w1) |- _ =>
      apply (best_avg_memo_ok _ _ _ _ _ H) in E
  end.
  assumption.
Qed.

Lemma evaluation_on_memo_ok w w' :
  memo_ok w -> evaluation_on prevseason lszeroes racers w w' -> memo_ok w'.
Proof.
  intros H [i v E|r v E|i v E|i v E|i v E|i v E|i v E|r v E|rc rt v E
            |rc rt v E|rc v E].
  - eapply (sound_Ok _ _ _ _ _ (best_time_sound i)); eassumption.
  - eapply (sound_Ok _ _ _ _ _ (raw_points_sound r)); eassumption.
  - eapply (sound_Ok _ _ _ _ _ (A_sound i)); eassumption.
  - eapply (sound_Ok _ _ _ _ _ (BC_sound i)); eassumption.
  - eapply (sound_Ok _ _ _ _ _ (B_sound i)); eassumption.
  - eapply (sound_Ok _ _ _ _ _ (C_sound i)); eassumption.
  - eapply (sound_Ok _ _ _ _ _ (penalty_sound i)); eassumption.
  - eapply (sound_Ok _ _ _ _ _ (points_sound r)); eassumption.
  - eapply (sound_Ok _ _ _ _ _ (best_two_sound rc rt)); eassumption.
  - eapply best_avg_memo_ok; eassumption.
  - eapply season_avg_memo_ok; eassumption.
Qed.

Lemma run_on_memo_ok w :
  forallb fresh rs = true -> run_on prevseason lszeroes racers rs w ->
  memo_ok w.
Proof.
  intros F H. unfold run_on in H. revert w H. apply rtc_ind_r.
  - apply memo_ok_init, F.
  - intros w1 w2 _ E H1. eapply evaluation_on_memo_ok; eassumption.
Qed.
End Soundness.

(** ** The best time of a race *)

Lemma xle_refl a : xle a a.
Proof. destruct a; simpl; [apply Qle_refl|exact I]. Qed.

Lemma xle_trans a b c : xle a b -> xle b c -> xle a c.
Proof.
  destruct a, b, c; simpl; try tauto. apply Qle_trans.
Qed.

Section BestScan.
Variable i : nat.

Lemma scan_step_le best r : xle (scan_step i best r) best.
Proof.
  unfold scan_step. destruct (time r) as [t|]; [|apply xle_refl].
  destruct (race r =? i)%nat; simpl; [|apply xle_refl].
  destruct (xltb t best) eqn:E; [|apply xle_refl].
  destruct best as [b|]; simpl in *; [|exact I].
  apply Qltb_lt in E. apply Qlt_le_weak, E.
Qed.

Lemma scan_step_below best r t :
  race r = i -> time r = Some t -> xle (scan_step i best r) (Fin t).
Proof.
  intros Hr Ht. unfold scan_step. rewrite Ht, Hr, Nat.eqb_refl. simpl.
  destruct (xltb t best) eqn:E; simpl; [apply Qle_refl|].
  destruct best as [b|]; simpl in *; [|discriminate].
  apply Qltb_ge in E. exact E.
Qed.

Lemma scan_fold_le l best : xle (fold_left (scan_step i) l best) best.
Proof.
  revert best. induction l as [|r l IH]; intros best; simpl.
  - apply xle_refl.
  - eapply xle_trans; [apply IH|apply scan_step_le].
Qed.

Lemma scan_fold_below l best r t :
  In r l -> race r = i -> time r = Some t ->
  xle (fold_left (scan_step i) l best) (Fin t).
Proof.
  revert best. induction l as [|x l IH]; intros best [].
  - subst x. intros Hr Ht. simpl.
    eapply xle_trans; [apply scan_fold_le|apply scan_step_below; assumption].
  - intros Hr Ht. simpl. apply IH; assumption.
Qed.

Lemma scan_fold_attained l best :
  fold_left (scan_step i) l best = best \/
  exists r t, In r l /\ race r = i /\ time r = Some t /\
              fold_left (scan_step i) l best = Fin t.
Proof.
  revert best. induction l as [|x l IH]; intros best; simpl.
  - left. reflexivity.
  - destruct (IH (scan_step i best x)) as [E|(r & t & I & Hr & Ht & E)].
    + rewrite E. unfold scan_step.
      destruct (time x) as [t|] eqn:Et; [|left; reflexivity].
      destruct (race x =? i)%nat eqn:Ex; simpl; [|left; reflexivity].
      destruct (xltb t best); [|left; reflexivity].
      right. exists x, t. apply Nat.eqb_eq in Ex. auto.
    + right. exists r, t. auto.
Qed.
End BestScan.

Lemma best_scan_unfold racers i :
  best_scan racers i = fold_left (scan_step i) (all_results racers) Inf.
Proof. reflexivity. Qed.

(** The best time of a race with a finisher is the least finished time. *)
Lemma best_scan_least racers r t :
  In r (all_results racers) -> time r = Some t ->
  exists best,
    best_scan racers (race r) = Fin best /\
    (exists x, In x (all_results racers) /\ race x = race r /\
               time x = Some best) /\
    (forall x t', In x (all_results racers) -> race x = race r ->
                  time x = Some t' -> best <= t').
Proof.
  intros I Ht. rewrite best_scan_unfold.
  pose proof (scan_fold_below (race r) _ Inf r t I eq_refl Ht) as L.
  destruct (scan_fold_attained (race r) (all_results racers) Inf)
    as [E|(x & b & Ix & Hx & Hb & E)].
  - rewrite E in L. destruct L.
  - exists b. split; [exact E|]. split; [eauto|].
    intros y t' Iy Hy Hty.
    pose proof (scan_fold_below (race r) _ Inf y t' Iy Hy Hty) as L'.
    rewrite E in L'. exact L'.
Qed.

Lemma positive_in_spec racers i r t :
  positive_in racers i = true -> In r (all_results racers) -> race r = i ->
  time r = Some t -> 0 < t.
Proof.
  unfold positive_in. rewrite forallb_forall. intros H I Hr Ht.
  specialize (H r I). rewrite Ht, Hr, Nat.eqb_refl in H. simpl in H.
  apply Qltb_lt, H.
Qed.

Lemma all_positive_in racers i :
  all_positive racers = true -> positive_in racers i = true.
Proof.
  unfold all_positive, positive_in. rewrite !forallb_forall. intros H r I.
  specialize (H r I). destruct (time r); [|reflexivity].
  rewrite H. apply orb_true_r.
Qed.

Lemma dec_div_pos t b : 0 < b -> dec_div t (Fin b) = Ok (t / b).
Proof.
  intros H. unfold dec_div.
  destruct (Qeq_bool b 0) eqn:E; [|reflexivity].
  apply Qeq_bool_eq in E. rewrite E in H. apply Qlt_irrefl in H. destruct H.
Qed.

Lemma ffactor_pos rt : 0 < ffactor rt.
Proof. destruct rt; reflexivity. Qed.

(** The arithmetic of raw points. *)
Lemma raw_nonneg t b f : 0 < b -> b <= t -> 0 < f -> 0 <= (t / b - 1) * f.
Proof.
  intros Hb Ht Hf. apply Qmult_le_0_compat; [|apply Qlt_le_weak, Hf].
  assert (1 <= t / b); [|lra].
  apply Qle_shift_div_l; [exact Hb|]. lra.
Qed.

Lemma raw_zero_iff t b f :
  0 < b -> 0 < f -> ((t / b - 1) * f == 0 <-> t == b).
Proof.
  intros Hb Hf. split; intros H.
  - assert (H1 : t / b - 1 == 0).
    { apply Qmult_integral in H as [H|H]; [exact H|]. lra. }
    assert (H2 : t / b == 1) by lra.
    assert (H3 : t == (t / b) * b) by (field; lra).
    rewrite H3, H2. ring.
  - rewrite H. field. lra.
Qed.

(** The value of [raw_points] for a finished result of the roster. *)
Lemma raw_points_value_Ok racers rs r t rc :
  In r (all_results racers) -> time r = Some t -> rs !! race r = Some rc ->
  positive_in racers (race r) = true ->
  exists best,
    best_scan racers (race r) = Fin best /\ 0 < best /\ best <= t /\
    raw_points_value racers rs r
    = Ok (Some ((t / best - 1) * ffactor (rtype rc))).
Proof.
  intros I Ht E P.
  destruct (best_scan_least racers r t I Ht) as (b & Eb & (x & Ix & Hx & Hb) & L).
  exists b. split; [exact Eb|].
  assert (Pb : 0 < b) by (eapply positive_in_spec; eassumption).
  split; [exact Pb|]. split; [apply (L r t I eq_refl Ht)|].
  unfold raw_points_value. rewrite Ht, E, Eb, (dec_div_pos _ _ Pb).
  reflexivity.
Qed.

Lemma best_time_stored R i w rc b :
  races w !! i = Some rc -> stored_best rc = Some b ->
  best_time R i w = Ok (b, w).
Proof.
  intros E Eb. unfold best_time, bind, get_race. rewrite E, Eb. reflexivity.
Qed.


(** ** The penalized carry *)

Lemma pymin_Qmin (a b : Q) : pymin a b == Qmin a b.
Proof.
  unfold pymin. destruct (Qltb b a) eqn:E.
  - apply Qltb_lt in E. symmetry. apply Q.min_r. apply Qlt_le_weak, E.
  - apply Qltb_ge in E. symmetry. apply Q.min_l. exact E.
Qed.

(** C5.  The penalized carry of a racer in a category is the minimum of
    the scale factor and of [1.22 * carried + 0.22 * last zero] for an
    injured racer, [1.44 * carried + 0.44 * last zero] otherwise, where the
    carried score is the racer's entry in last season's archive or the scale
    factor for a racer the archive does not know; in both cases it is at
    most the scale factor. *)
Theorem last_penalized_cap (prevseason : gmap string (RaceType -> Q))
    (lszeroes : RaceType -> Q) (self : Racer) (racetype : RaceType) :
  let carried_score :=
    match prevseason !! name self with
    | Some entry => entry racetype
    | None => ffactor racetype
    end in
  last_penalized prevseason lszeroes self racetype ==
    (if inj self
     then Qmin (1.22 * carried_score + 0.22 * lszeroes racetype)
               (ffactor racetype)
     else Qmin (1.44 * carried_score + 0.44 * lszeroes racetype)
               (ffactor racetype)) /\
  last_penalized prevseason lszeroes self racetype <= ffactor racetype.
Proof.
  intros c. unfold last_penalized.
  assert (Hc : ls prevseason self racetype = c).
  { unfold ls, c. destruct (prevseason !! name self); reflexivity. }
  rewrite Hc. destruct (inj self); split;
    first [apply pymin_Qmin|apply pymin_le_r].
Qed.

(** ** The place *)

Section Place.
Variable racers : list Racer.

Lemma place_fold self l n :
  fold_left (place_step self) l n
  = (n + length (List.filter
                   (fun r => (race r =? race self)%nat && finished r
                             && faster r self) l))%nat.
Proof.
  revert n. induction l as [|r l IH]; intros n; simpl.
  - lia.
  - rewrite IH. unfold place_step, faster, time_ltb.
    destruct ((race r =? race self)%nat && finished r
              && match time r, time self with
                 | Some x, Some y => Qltb x y
                 | _, _ => false
                 end); simpl; lia.
Qed.

Lemma place_count self :
  finished self = true ->
  place racers self = Some (1 + length (faster_finishers racers self))%nat.
Proof.
  intros F. unfold place. rewrite F. simpl. f_equal.
  apply (place_fold self (all_results racers) 1).
Qed.

Lemma Qltb_comp_r x a b : a == b -> Qltb x a = Qltb x b.
Proof. intros E. unfold Qltb. rewrite E. reflexivity. Qed.

Lemma faster_tie r self other a b :
  time self = Some a -> time other = Some b -> a == b ->
  faster r self = faster r other.
Proof.
  intros Ha Hb E. unfold faster. rewrite Ha, Hb.
  destruct (time r); [|reflexivity]. apply Qltb_comp_r, E.
Qed.
End Place.

(** C6, as amended.  The place of a result that did not finish is [None];
    the place of a finished result is one plus the number of finished
    results of the same race with a strictly smaller time; so two finishers
    of a race with equal times have the same place: ties are not broken. *)
Theorem place_rank (racers : list Racer) (self : Result) :
  (finished self = false -> place racers self = None) /\
  (finished self = true ->
   place racers self
   = Some (1 + length (faster_finishers racers self))%nat) /\
  (forall other a b,
      race other = race self ->
      time self = Some a -> time other = Some b -> a == b ->
      place racers other = place racers self).
Proof.
  split; [|split].
  - intros F. unfold place. rewrite F. reflexivity.
  - apply place_count.
  - intros other a b Hr Ha Hb E.
    assert (Fs : finished self = true).
    { unfold time in Ha. destruct (finished self); [reflexivity|discriminate]. }
    assert (Fo : finished other = true).
    { unfold time in Hb. destruct (finished other);
        [reflexivity|discriminate]. }
    rewrite (place_count racers self Fs), (place_count racers other Fo).
    do 3 f_equal. unfold faster_finishers. rewrite Hr.
    apply filter_ext. intros r.
    rewrite (faster_tie r self other a b Ha Hb E). reflexivity.
Qed.

(** ** A roster numbered by the loader *)

Lemma indexed_from_lookup k l j r :
  indexed_from k l = true -> l !! j = Some r -> race r = (k + j)%nat.
Proof.
  revert k j. induction l as [|x l IH]; intros k j H E; [discriminate|].
  simpl in H. apply andb_true_iff in H as [Hx Hl].
  destruct j as [|j]; simpl in E.
  - injection E as <-. apply Nat.eqb_eq in Hx. lia.
  - rewrite (IH (S k) j Hl E). lia.
Qed.

(** The results of a numbered list that are in race [i] and pass [p]. *)
Lemma indexed_from_filter (p : Result -> bool) i k l :
  indexed_from k l = true ->
  List.filter (fun r => (race r =? i)%nat && p r) l
  = if (k <=? i)%nat
    then match l !! (i - k)%nat with
         | Some r => if p r then [r] else []
         | None => []
         end
    else [].
Proof.
  revert k. induction l as [|x l IH]; intros k H; simpl.
  - destruct (k <=? i)%nat; [|reflexivity].
    destruct (i - k)%nat; reflexivity.
  - simpl in H. apply andb_true_iff in H as [Hx Hl].
    apply Nat.eqb_eq in Hx. rewrite (IH (S k) Hl), Hx.
    destruct (Nat.eqb_spec k i) as [->|Hne].
    + replace (S i <=? i)%nat with false
        by (symmetry; apply Nat.leb_gt; lia).
      rewrite Nat.leb_refl, Nat.sub_diag. simpl.
      destruct (p x); reflexivity.
    + destruct (Nat.leb_spec k i) as [Hle|Hgt].
      * replace (S k <=? i)%nat with true
          by (symmetry; apply Nat.leb_le; lia).
        replace (i - k)%nat with (S (i - S k)) by lia. reflexivity.
      * replace (S k <=? i)%nat with false
          by (symmetry; apply Nat.leb_gt; lia).
        reflexivity.
Qed.

Lemma indexed_from_filter_0 (p : Result -> bool) i l :
  indexed_from 0 l = true ->
  List.filter (fun r => (race r =? i)%nat && p r) l
  = match l !! i with
    | Some r => if p r then [r] else []
    | None => []
    end.
Proof.
  intros H. rewrite (indexed_from_filter p i 0 l H). simpl.
  rewrite Nat.sub_0_r. reflexivity.
Qed.

Lemma indexed_from_has_result (p : Result -> bool) i rc :
  indexed_from 0 (results rc) = true ->
  has_result p i rc
  = match results rc !! i with
    | Some r => p r
    | None => false
    end.
Proof.
  intros H. unfold has_result.
  assert (E : existsb (fun r => (race r =? i)%nat && p r) (results rc)
              = existsb (fun _ => true)
                  (List.filter (fun r => (race r =? i)%nat && p r)
                               (results rc))).
  { generalize (results rc). intros l. induction l as [|x l IH]; simpl.
    - reflexivity.
    - destruct ((race x =? i)%nat && p x); simpl; [reflexivity|exact IH]. }
  rewrite E, (indexed_from_filter_0 p i _ H).
  destruct (results rc !! i) as [r|]; [|reflexivity].
  destruct (p r); reflexivity.
Qed.

Lemma roster_wf_indexed n racers rc :
  roster_wf n racers = true -> In rc racers ->
  indexed_from 0 (results rc) = true /\ (length (results rc) <= n)%nat.
Proof.
  unfold roster_wf. rewrite forallb_forall. intros H I.
  specialize (H rc I). apply andb_true_iff in H as [H1 H2].
  split; [exact H1|]. apply Nat.leb_le, H2.
Qed.

Lemma roster_wf_result n racers rc r :
  roster_wf n racers = true -> In rc racers -> In r (results rc) ->
  results rc !! race r = Some r /\ (race r < n)%nat.
Proof.
  intros H I Ir. destruct (roster_wf_indexed _ _ _ H I) as [Hi Hl].
  apply list_elem_of_In, list_elem_of_lookup in Ir as [j Ej].
  pose proof (indexed_from_lookup 0 _ j r Hi Ej) as Hr. simpl in Hr.
  rewrite Hr. split; [exact Ej|]. apply lookup_lt_Some in Ej. lia.
Qed.

Lemma in_all_results racers rc r :
  In rc racers -> In r (results rc) -> In r (all_results racers).
Proof.
  intros I Ir. unfold all_results. apply in_flat_map. eauto.
Qed.

(** The pairs of the roster that pass a test on the result, racer by
    racer. *)
Lemma roster_filter (p : Result -> bool) i l :
  (forall rc, In rc l -> indexed_from 0 (results rc) = true) ->
  map fst (List.filter (fun x => (race (snd x) =? i)%nat && p (snd x))
                       (flat_map (fun rc => map (pair rc) (results rc)) l))
  = List.filter (has_result p i) l.
Proof.
  induction l as [|rc l IH]; intros H; simpl; [reflexivity|].
  rewrite List.filter_app, map_app, IH by (intros; apply H; right; assumption).
  assert (Hi : indexed_from 0 (results rc) = true) by (apply H; left; reflexivity).
  rewrite (indexed_from_has_result p i rc Hi).
  assert (E : List.filter (fun x => (race (snd x) =? i)%nat && p (snd x))
                          (map (pair rc) (results rc))
              = map (pair rc)
                    (List.filter (fun r => (race r =? i)%nat && p r)
                                 (results rc))).
  { generalize (results rc). intros l0. induction l0 as [|x l0 IH0]; simpl.
    - reflexivity.
    - destruct ((race x =? i)%nat && p x); simpl; rewrite IH0; reflexivity. }
  rewrite E, (indexed_from_filter_0 p i _ Hi).
  destruct (results rc !! i) as [r|]; [|reflexivity].
  destruct (p r); reflexivity.
Qed.

Lemma flat_map_ext_In {X Y : Type} (f g : X -> list Y) (l : list X) :
  (forall x, In x l -> f x = g x) -> flat_map f l = flat_map g l.
Proof.
  induction l as [|x l IH]; intros H; simpl; [reflexivity|].
  rewrite (H x) by (left; reflexivity).
  rewrite IH by (intros; apply H; right; assumption). reflexivity.
Qed.

Section PenaltyWords.
Variable prevseason : gmap string (RaceType -> Q).
Variable racers : list Racer.

Lemma points_start_starters n i rt :
  roster_wf n racers = true ->
  points_start prevseason racers i rt
  = map (fun rc => ls prevseason rc rt) (starters racers i).
Proof.
  intros H. unfold points_start, starters.
  rewrite <- (roster_filter started i racers)
    by (intros rc I; apply (roster_wf_indexed _ _ _ H I)).
  rewrite map_map. reflexivity.
Qed.

Lemma tt_finish_top_ten n i :
  roster_wf n racers = true -> tt_finish racers i = top_ten racers i.
Proof.
  intros H. unfold tt_finish, top_ten.
  rewrite <- (roster_filter (fun r => finished r && place_le_10 racers r)
                i racers)
    by (intros rc I; apply (roster_wf_indexed _ _ _ H I)).
  f_equal. apply filter_ext. intros [rc r]. simpl.
  rewrite andb_assoc. reflexivity.
Qed.

(** A racer of the top ten of race [i] has its result there, finished. *)
Lemma top_ten_result n i rc :
  roster_wf n racers = true -> In rc (top_ten racers i) ->
  In rc racers /\
  exists r t, results rc !! i = Some r /\ race r = i /\ time r = Some t.
Proof.
  intros H I. unfold top_ten in I. apply filter_In in I as [I Hp].
  split; [exact I|].
  destruct (roster_wf_indexed _ _ _ H I) as [Hi _].
  rewrite (indexed_from_has_result _ i rc Hi) in Hp.
  destruct (results rc !! i) as [r|] eqn:E; [|discriminate].
  apply andb_true_iff in Hp as [F _].
  exists r. unfold time. rewrite F.
  pose proof (indexed_from_lookup 0 _ i r Hi E) as Hr.
  unfold finished in F. destruct (result r); [|discriminate].
  destruct (_time r) as [t|]; [|discriminate].
  exists t. auto.
Qed.

(** The list [points_finish] pairs each racer of the top ten with its
    result in the race. *)
Lemma points_finish_top_ten n i rt :
  roster_wf n racers = true ->
  points_finish prevseason racers i rt
  = flat_map (fun rc => match results rc !! i with
                        | Some r => [(ls prevseason rc rt, r)]
                        | None => []
                        end)
             (top_ten racers i).
Proof.
  intros H. unfold points_finish. rewrite (tt_finish_top_ten n i H).
  apply flat_map_ext_In. intros rc I.
  destruct (top_ten_result n i rc H I) as (Ir & _).
  destruct (roster_wf_indexed _ _ _ H Ir) as [Hi _].
  pose proof (indexed_from_filter_0 (fun _ => true) i _ Hi) as E.
  assert (E' : List.filter (fun r => (race r =? i)%nat) (results rc)
               = List.filter (fun r => (race r =? i)%nat && true) (results rc)).
  { apply filter_ext. intros r. rewrite andb_true_r. reflexivity. }
  rewrite E', E. destruct (results rc !! i); reflexivity.
Qed.
End PenaltyWords.

(** ** The race penalty *)

Lemma insert_by_map {X Y : Type} (g : X -> Y) (key : X -> Q) (key' : Y -> Q)
    (x : X) (l : list X) :
  (forall x, key' (g x) = key x) ->
  insert_by key' (g x) (map g l) = map g (insert_by key x l).
Proof.
  intros H. induction l as [|y l IH]; simpl; [reflexivity|].
  rewrite !H. destruct (Qltb (key y) (key x)); simpl; [|reflexivity].
  rewrite IH. reflexivity.
Qed.

Lemma sort_by_map {X Y : Type} (g : X -> Y) (key : X -> Q) (key' : Y -> Q)
    (l : list X) :
  (forall x, key' (g x) = key x) ->
  sort_by key' (map g l) = map g (sort_by key l).
Proof.
  intros H. induction l as [|x l IH]; simpl; [reflexivity|].
  rewrite IH. apply insert_by_map, H.
Qed.

Section PenaltyValue.
Variable prevseason : gmap string (RaceType -> Q).
Variable racers : list Racer.
Variable rs : list Race.

Lemma BC_fold_value acc (chosen : list (Q * Result)) :
  (forall l, In l chosen ->
     exists p, raw_points_value racers rs (snd l) = Ok (Some p)) ->
  res_foldM (BC_step_value racers rs) acc chosen
  = Ok (fold_left Qplus (map fst chosen) (fst acc),
        fold_left Qplus (map (fun l => raw_of racers rs (snd l)) chosen)
                  (snd acc)).
Proof.
  revert acc. induction chosen as [|l chosen IH]; intros acc H.
  - destruct acc; reflexivity.
  - destruct (H l (or_introl eq_refl)) as (p & Ep).
    change (res_foldM (BC_step_value racers rs) acc (l :: chosen))
      with (res_bind (BC_step_value racers rs acc l)
              (fun acc' => res_foldM (BC_step_value racers rs) acc' chosen)).
    unfold BC_step_value at 1. rewrite Ep.
    cbn [res_bind]. rewrite IH by (intros; apply H; right; assumption).
    cbn [map fold_left fst snd].
    replace (raw_of racers rs (snd l)) with p
      by (unfold raw_of; rewrite Ep; reflexivity).
    reflexivity.
Qed.

Lemma flat_map_singletons {X Y Z : Type} (g : X -> option Y)
    (h : X -> Y -> Z) (d : X -> Y) (l : list X) :
  (forall x, In x l -> g x <> None) ->
  flat_map (fun x => match g x with Some y => [h x y] | None => [] end) l
  = map (fun x => h x (match g x with Some y => y | None => d x end)) l.
Proof.
  induction l as [|x l IH]; intros H; simpl; [reflexivity|].
  rewrite IH by (intros; apply H; right; assumption).
  specialize (H x (or_introl eq_refl)).
  destruct (g x); [reflexivity|congruence].
Qed.

(** The pairs of [points_finish] under the loader's numbering: one per
    racer of the top ten, each with a finished result of the race. *)
Lemma points_finish_pairs i rt :
  roster_wf (length rs) racers = true ->
  exists f : Racer -> Result,
    points_finish prevseason racers i rt
    = map (fun rc => (ls prevseason rc rt, f rc)) (top_ten racers i) /\
    forall rc, In rc (top_ten racers i) ->
      In rc racers /\ In (f rc) (results rc) /\ race (f rc) = i /\
      exists t, time (f rc) = Some t.
Proof.
  intros H.
  exists (fun rc => match results rc !! i with
                    | Some r => r
                    | None => mkResult None FIN i
                    end).
  split.
  - rewrite (points_finish_top_ten prevseason racers _ i rt H).
    apply (flat_map_singletons (fun rc => results rc !! i)
             (fun rc r => (ls prevseason rc rt, r))).
    intros rc I. destruct (top_ten_result racers _ i rc H I)
      as (_ & r & t & E & _). congruence.
  - intros rc I. destruct (top_ten_result racers _ i rc H I)
      as (Ir & r & t & E & Hr & Ht).
    rewrite E. split; [exact Ir|]. split.
    + apply list_elem_of_In. eapply list_elem_of_lookup_2, E.
    + eauto.
Qed.

(** The sums [B] and [C] of a race with positive times. *)
Lemma BC_value_Ok i rc :
  roster_wf (length rs) racers = true -> positive_in racers i = true ->
  rs !! i = Some rc ->
  exists f : Racer -> Result,
    (forall r, In r (top_ten racers i) ->
       In (f r) (results r) /\ race (f r) = i /\
       raw_points_value racers rs (f r)
       = Ok (Some (raw_of racers rs (f r)))) /\
    let pairs := map (fun r => (ls prevseason r (rtype rc),
                                raw_of racers rs (f r)))
                     (top_ten racers i) in
    let five := take 5 (sort_by fst pairs) in
    BC_value prevseason racers rs i
    = Ok (pysum (map fst five), pysum (map snd five)).
Proof.
  intros H P E.
  destruct (points_finish_pairs i (rtype rc) H) as (f & Epf & Hf).
  assert (Hraw : forall r, In r (top_ten racers i) ->
            raw_points_value racers rs (f r)
            = Ok (Some (raw_of racers rs (f r)))).
  { intros r I. destruct (Hf r I) as (Ir & If & Hr & t & Ht).
    assert (E' : rs !! race (f r) = Some rc) by (rewrite Hr; exact E).
    assert (P' : positive_in racers (race (f r)) = true)
      by (rewrite Hr; exact P).
    destruct (raw_points_value_Ok racers rs (f r) t rc
                (in_all_results _ _ _ Ir If) Ht E' P')
      as (best & _ & _ & _ & Ev).
    unfold raw_of. rewrite Ev. reflexivity. }
  exists f. split.
  { intros r I. destruct (Hf r I) as (_ & If & Hr & _). auto. }
  intros pairs five. unfold BC_value. rewrite E, Epf.
  set (pf := map (fun r => (ls prevseason r (rtype rc), f r))
                 (top_ten racers i)).
  set (g := fun l : Q * Result => (fst l, raw_of racers rs (snd l))).
  assert (Epairs : pairs = map g pf).
  { unfold pairs, pf. rewrite map_map. reflexivity. }
  assert (Efive : five = map g (take 5 (sort_by fst pf))).
  { unfold five. rewrite Epairs.
    rewrite (sort_by_map g fst fst) by reflexivity.
    apply firstn_map. }
  rewrite BC_fold_value.
  - rewrite Efive, !map_map. reflexivity.
  - intros l Il. apply In_take_In in Il.
    apply (Permutation_in _ (Permutation_sym (sort_by_perm fst pf))) in Il.
    unfold pf in Il. apply in_map_iff in Il as (r & <- & Ir).
    eexists. apply Hraw, Ir.
Qed.
End PenaltyValue.


(** ** The best two *)

Lemma time_finished r : finished r = true <-> exists t, time r = Some t.
Proof.
  unfold time, finished.
  destruct (result r); destruct (_time r); split; intros H;
    try discriminate; try (destruct H; discriminate); eauto.
Qed.

Lemma season_memo_points w rt l ps :
  season_memo w rt l = Some ps ->
  Forall2 (fun r p => points_memo w r = Some p)
          (List.filter (fun r => finished r && in_category (races w) rt r) l)
          ps.
Proof.
  revert ps. induction l as [|r l IH]; intros ps H; simpl in *.
  - injection H as <-. constructor.
  - destruct (time r) as [t|] eqn:Et.
    + assert (F : finished r = true) by (apply time_finished; eauto).
      rewrite F. unfold in_category at 1. simpl.
      destruct (races w !! race r) as [rc|]; [|discriminate].
      destruct (RaceType_eqb (rtype rc) rt); [|auto].
      destruct (points_memo w r) as [p|] eqn:Ep; [|discriminate].
      destruct (season_memo w rt l) as [ps'|]; [|discriminate].
      injection H as <-. constructor; [exact Ep|]. apply IH. reflexivity.
    + assert (F : finished r = false).
      { destruct (finished r) eqn:F; [|reflexivity].
        apply time_finished in F as [t Ht]. congruence. }
      rewrite F. simpl. auto.
Qed.

(** What [best_two] returns when it returns: two values, the least two of
    the points of the racer's finished results in the category together
    with two copies of the penalized carry. *)
Lemma best_two_smallest (prevseason : gmap string (RaceType -> Q))
    (lszeroes : RaceType -> Q) (racers : list Racer) (self : Racer)
    (racetype : RaceType) (w : world) (l : list Q) (w' : world) :
  best_two prevseason lszeroes racers self racetype w = Ok (l, w') ->
  let lp := last_penalized prevseason lszeroes self racetype in
  exists pts rest,
    Forall2 (fun r p => eval (points prevseason racers r) w' = Ok (Some p))
            (List.filter
               (fun r => finished r && in_category (races w') racetype r)
               (results self))
            pts /\
    length l = 2%nat /\
    Permutation (pts ++ [lp; lp]) (l ++ rest) /\
    (forall x y, In x l -> In y rest -> x <= y) /\
    (pts = [] -> l = [lp; lp]).
Proof.
  intros H lp. apply best_two_post in H.
  pose proof (best_two_memo_length _ _ _ _ _ _ H) as L.
  unfold best_two_memo in H.
  destruct (season_memo w' racetype (results self)) as [ps|] eqn:E;
    [|discriminate].
  injection H as <-. fold lp in L |- *.
  exists ps, (drop 2 (pysort (ps ++ [lp; lp]))). split; [|split; [|split; [|split]]].
  - eapply Forall2_impl; [apply season_memo_points, E|].
    intros r p Hp. unfold eval.
    rewrite (points_of_memo prevseason racers _ _ _ Hp). reflexivity.
  - exact L.
  - rewrite take_drop. apply sort_by_perm.
  - intros x y Hx Hy.
    apply (sorted_take_drop (fun q : Q => q) 2 (pysort (ps ++ [lp; lp]))
             (sort_by_sorted _ _) x y Hx Hy).
  - intros ->. unfold pysort. simpl.
    replace (Qltb lp lp) with false; [reflexivity|].
    symmetry. apply Qltb_ge, Qle_refl.
Qed.

(** ** When the points of a racer can be computed *)

Section PointsDefined.
Variable prevseason : gmap string (RaceType -> Q).
Variable lszeroes : RaceType -> Q.
Variable racers : list Racer.
Variable rs : list Race.
Hypothesis Hwf : roster_wf (length rs) racers = true.
Hypothesis Hpos : all_positive racers = true.
Hypothesis Hnum : numeric_penalties rs = true.

Lemma penalty_value_Ok i rc :
  rs !! i = Some rc -> exists p, penalty_value prevseason racers rs i = Ok (VDec p).
Proof.
  intros E. unfold penalty_value. rewrite E.
  destruct (_sto_penalty rc) as [[p|s]|] eqn:Ep.
  - eauto.
  - unfold numeric_penalties in Hnum. rewrite forallb_forall in Hnum.
    assert (I : In rc rs).
    { apply list_elem_of_In. eapply list_elem_of_lookup_2, E. }
    specialize (Hnum rc I). rewrite Ep in Hnum. discriminate.
  - destruct (BC_value_Ok prevseason racers rs i rc Hwf
                (all_positive_in racers i Hpos) E) as (f & _ & EBC).
    cbv zeta in EBC. unfold A_value. rewrite E, EBC. simpl. eauto.
Qed.

Lemma points_value_Ok rc r t :
  In rc racers -> In r (results rc) -> time r = Some t ->
  exists p, points_value prevseason racers rs r = Ok (Some p).
Proof.
  intros I Ir Ht.
  destruct (roster_wf_result _ _ _ _ Hwf I Ir) as [_ Hlt].
  destruct (lookup_lt_is_Some_2 rs (race r) Hlt) as [rc0 E].
  destruct (raw_points_value_Ok racers rs r t rc0
              (in_all_results _ _ _ I Ir) Ht E
              (all_positive_in racers _ Hpos)) as (best & _ & _ & _ & Ev).
  destruct (penalty_value_Ok (race r) rc0 E) as (p & Ep).
  unfold points_value. rewrite Ht, Ev, Ep. simpl. eauto.
Qed.

Lemma season_fold_value_Ok rc rt l acc :
  In rc racers -> (forall r, In r l -> In r (results rc)) ->
  exists v, res_foldM (season_step_value prevseason racers rs rt) acc l = Ok v.
Proof.
  intros I. revert acc. induction l as [|r l IH]; intros acc Hl; simpl.
  - eauto.
  - assert (Ir : In r (results rc)) by (apply Hl; left; reflexivity).
    assert (Hl' : forall x, In x l -> In x (results rc))
      by (intros; apply Hl; right; assumption).
    unfold season_step_value at 1.
    destruct (time r) as [t|] eqn:Ht; [|simpl; apply IH, Hl'].
    destruct (roster_wf_result _ _ _ _ Hwf I Ir) as [_ Hlt].
    destruct (lookup_lt_is_Some_2 rs (race r) Hlt) as [rc0 E]. rewrite E.
    destruct (RaceType_eqb (rtype rc0) rt); [|simpl; apply IH, Hl'].
    destruct (points_value_Ok rc r t I Ir Ht) as (p & ->). simpl.
    apply IH, Hl'.
Qed.

(** With the loader's numbering, positive times and no string for a
    penalty, [best_two] returns, in every world of a run. *)
Lemma best_two_returns rc rt w :
  forallb fresh rs = true ->
  run_on prevseason lszeroes racers rs w -> In rc racers ->
  exists l w', best_two prevseason lszeroes racers rc rt w = Ok (l, w').
Proof.
  intros F Hrun I.
  pose proof (run_on_memo_ok _ _ _ _ _ F Hrun) as Hok.
  pose proof (best_two_sound prevseason lszeroes racers rs rc rt w Hok) as Hs.
  unfold best_two_value in Hs.
  destruct (season_fold_value_Ok rc rt (results rc) [] I (fun r H => H))
    as (v & Ev).
  rewrite Ev in Hs. simpl in Hs. destruct Hs as (w' & E & _). eauto.
Qed.
End PointsDefined.

(** ** The archive object *)

Section Archive.
Variable prevseason : gmap string (RaceType -> Q).
Variable lszeroes : RaceType -> Q.

Local Abbreviation settled := (settled prevseason lszeroes).
Local Abbreviation entry_memo := (entry_memo prevseason lszeroes).
Local Abbreviation insert_entry := (insert_entry prevseason lszeroes).

Lemma mapM_season_avg_settled R l w :
  (forall rc rt, In rc l -> settled w rc rt) ->
  mapM (season_avg prevseason lszeroes R) l w
  = Ok (map (season_avg_memo prevseason lszeroes w) l, w).
Proof.
  induction l as [|rc l IH]; intros S; simpl; [reflexivity|].
  rewrite (bind_Ok_intro _ _ _ _ _
             (settled_season_avg prevseason lszeroes R rc w
                (fun rt => S rc rt (or_introl eq_refl)))).
  rewrite (bind_Ok_intro _ _ _ _ _
             (IH (fun rc' rt I => S rc' rt (or_intror I)))).
  reflexivity.
Qed.

Lemma sort_racers_settled racers w :
  (forall rc rt, In rc racers -> settled w rc rt) ->
  exists sorted,
    sort_racers prevseason lszeroes racers w = Ok (sorted, w) /\
    Permutation racers sorted.
Proof.
  intros S. unfold sort_racers.
  rewrite (bind_Ok_intro _ _ _ _ _ (mapM_season_avg_settled racers racers w S)).
  eexists. split; [reflexivity|].
  set (keys := map (season_avg_memo prevseason lszeroes w) racers).
  rewrite <- (sort_by_perm snd (zip racers keys)).
  rewrite fst_zip; [reflexivity|]. unfold keys. rewrite length_map. lia.
Qed.

Lemma racer_entry_settled R rc w :
  (forall rt, settled w rc rt) ->
  racer_entry prevseason lszeroes R rc w = Ok (entry_memo w rc, w).
Proof.
  intros S. unfold racer_entry, all_RaceType. simpl.
  erewrite bind_Ok_intro; [reflexivity|].
  erewrite bind_Ok_intro; cycle 1.
  { rewrite (bind_Ok_intro _ _ _ _ _
               (settled_best_avg_memo _ _ R _ _ _ (S GS))). reflexivity. }
  erewrite bind_Ok_intro; [reflexivity|].
  erewrite bind_Ok_intro; cycle 1.
  { rewrite (bind_Ok_intro _ _ _ _ _
               (settled_best_avg_memo _ _ R _ _ _ (S SC))). reflexivity. }
  erewrite bind_Ok_intro; [reflexivity|].
  erewrite bind_Ok_intro; cycle 1.
  { rewrite (bind_Ok_intro _ _ _ _ _
               (settled_best_avg_memo _ _ R _ _ _ (S CL))). reflexivity. }
  reflexivity.
Qed.

Lemma seasonobj_fold_settled R l acc w :
  (forall rc rt, In rc l -> settled w rc rt) ->
  foldM (fun obj rc =>
           let* e := racer_entry prevseason lszeroes R rc in
           ret (<[name rc := e]> obj))
        acc l w
  = Ok (fold_left (insert_entry w) l acc, w).
Proof.
  revert acc. induction l as [|rc l IH]; intros acc S; simpl; [reflexivity|].
  erewrite bind_Ok_intro; cycle 1.
  { rewrite (bind_Ok_intro _ _ _ _ _
               (racer_entry_settled R rc w
                  (fun rt => S rc rt (or_introl eq_refl)))).
    reflexivity. }
  apply IH. intros rc' rt I. apply S. right. exact I.
Qed.

(** The entry under a key after the loop: that of a racer with this name,
    or what was there before. *)
Lemma fold_insert_lookup w l acc k :
  (exists rc, In rc l /\ name rc = k /\
              fold_left (insert_entry w) l acc !! k = Some (entry_memo w rc)) \/
  ((forall rc, In rc l -> name rc <> k) /\
   fold_left (insert_entry w) l acc !! k = acc !! k).
Proof.
  revert acc. induction l as [|rc l IH]; intros acc; simpl.
  - right. split; [intros ? []|reflexivity].
  - destruct (IH (insert_entry w acc rc)) as [(rc' & I & N & E)|[N E]].
    + left. exists rc'. auto.
    + destruct (decide (name rc = k)) as [Hk|Hk].
      * left. exists rc. split; [left; reflexivity|]. split; [exact Hk|].
        rewrite E. unfold insert_entry. rewrite Hk. apply lookup_insert_eq.
      * right. split.
        -- intros rc' [<-|I]; [exact Hk|apply N, I].
        -- rewrite E. unfold insert_entry. apply lookup_insert_ne. exact Hk.
Qed.

Lemma entry_memo_lookup w rc rt :
  entry_memo w rc !! RaceType_name rt
  = Some (best_avg_memo prevseason lszeroes w rc rt).
Proof. destruct rt; reflexivity. Qed.

Lemma zeroes_entry_run w : zeroes_entry w = Ok (zeroes_map w, w).
Proof. reflexivity. Qed.

Lemma zeroes_map_lookup w rt :
  zeroes_map w !! RaceType_name rt = Some (zeroes w rt).
Proof. destruct rt; reflexivity. Qed.

(** The three stages of [season]. *)
Lemma season_stages racers w0 obj w' :
  season prevseason lszeroes racers w0 = Ok (obj, w') ->
  exists sorted,
    warm_up prevseason lszeroes racers w0 = Ok (tt, w') /\
    Permutation racers sorted /\
    obj = <[data_zeroes := zeroes_map w']>
            (fold_left (insert_entry w') sorted ∅).
Proof.
  intros H. unfold season in H. apply bind_Ok in H as ([] & w1 & Hw & H).
  pose proof (warm_up_post _ _ _ _ _ _ Hw) as (_ & S & _).
  destruct (sort_racers_settled racers w1 S) as (sorted & Es & Hp).
  rewrite (bind_Ok_intro _ _ _ _ _ Es) in H.
  assert (S' : forall rc rt, In rc sorted -> settled w1 rc rt).
  { intros rc rt I. apply S. eapply Permutation_in; [|exact I].
    symmetry. exact Hp. }
  unfold seasonobj in H.
  rewrite (bind_Ok_intro _ _ _ _ _ (seasonobj_fold_settled sorted sorted ∅ w1 S'))
    in H.
  rewrite (bind_Ok_intro _ _ _ _ _ (zeroes_entry_run w1)) in H.
  injection H as <- <-. exists sorted. auto.
Qed.
End Archive.


(** ** Loading an archive *)

Lemma valid_entry_keys (e : gmap string Q) :
  (forall k v, e !! k = Some v -> exists rt, RaceType_of_name k = Some rt) ->
  valid_entry e = true.
Proof.
  intros H. unfold valid_entry. apply forallb_forall. intros [k v] I.
  apply list_elem_of_In, elem_of_map_to_list in I.
  cbn [fst]. destruct (H k v I) as (rt & ->). reflexivity.
Qed.

Lemma category_map_valid (f : RaceType -> Q) :
  valid_entry (list_to_map (map (fun this => (RaceType_name this, f this))
                                all_RaceType)) = true.
Proof.
  apply valid_entry_keys. intros k v H.
  apply elem_of_list_to_map_2 in H. simpl in H.
  repeat (apply elem_of_cons in H as [H|H];
          [injection H as -> _; eexists; reflexivity|]).
  apply elem_of_nil in H. destruct H.
Qed.

(** The carried score after loading an archive. *)
Lemma load_prevseason_ls obj prevseason lszeroes (self : Racer) rt :
  load_prevseason obj = Ok (prevseason, lszeroes) ->
  ls prevseason self rt
  = match obj !! name self with
    | Some e => clamp_entry e rt
    | None => ffactor rt
    end.
Proof.
  unfold load_prevseason.
  destruct (forallb (fun kv => valid_entry (snd kv)) (map_to_list obj));
    [|discriminate].
  destruct ((clamp_entry <$> obj) !! data_zeroes); [|discriminate].
  intros [= <- <-]. unfold ls. rewrite lookup_fmap.
  destruct (obj !! name self); reflexivity.
Qed.

Lemma load_prevseason_Ok obj z :
  (forall k e, obj !! k = Some e -> valid_entry e = true) ->
  obj !! data_zeroes = Some z ->
  load_prevseason obj = Ok (clamp_entry <$> obj, clamp_entry z).
Proof.
  intros Hv Hz. unfold load_prevseason.
  replace (forallb (fun kv => valid_entry (snd kv)) (map_to_list obj))
    with true.
  - rewrite lookup_fmap, Hz. reflexivity.
  - symmetry. apply forallb_forall. intros [k e] I.
    apply list_elem_of_In, elem_of_map_to_list in I. simpl. eapply Hv, I.
Qed.

Lemma clamp_entry_min e rt v :
  e !! RaceType_name rt = Some v ->
  clamp_entry e rt == Qmin v (ffactor rt).
Proof.
  intros E. unfold clamp_entry. rewrite E.
  change (pymin v (ffactor rt) == Qmin v (ffactor rt)). apply pymin_Qmin.
Qed.

Lemma clamp_entry_absent e rt :
  e !! RaceType_name rt = None -> clamp_entry e rt = ffactor rt.
Proof. intros E. unfold clamp_entry. rewrite E. reflexivity. Qed.

(** C8.  An archive object written by [season] loads as last season's
    archive, and then the carried score of a racer in a category is the
    value written under the racer's name and the category, clamped at the
    scale factor of the category: the minimum of the two; it is the scale
    factor for a category absent from the racer's entry and for a racer
    absent from the archive. *)
Theorem archive_round_trip (prevseason : gmap string (RaceType -> Q))
    (lszeroes : RaceType -> Q) (racers : list Racer) (w0 : world)
    (obj : gmap string (gmap string Q)) (w' : world) :
  season prevseason lszeroes racers w0 = Ok (obj, w') ->
  exists prevseason' lszeroes',
    load_prevseason obj = Ok (prevseason', lszeroes') /\
    (forall (self : Racer) rt e v,
        obj !! name self = Some e -> e !! RaceType_name rt = Some v ->
        ls prevseason' self rt == Qmin v (ffactor rt)) /\
    (forall (self : Racer) rt e,
        obj !! name self = Some e -> e !! RaceType_name rt = None ->
        ls prevseason' self rt = ffactor rt) /\
    (forall (self : Racer) rt,
        obj !! name self = None -> ls prevseason' self rt = ffactor rt).
Proof.
  intros H.
  destruct (season_stages _ _ _ _ _ _ H) as (sorted & _ & _ & ->).
  set (obj := <[data_zeroes := zeroes_map w']>
                (fold_left (insert_entry prevseason lszeroes w') sorted ∅)).
  assert (Hl : load_prevseason obj
               = Ok (clamp_entry <$> obj, clamp_entry (zeroes_map w'))).
  { apply load_prevseason_Ok; [|apply lookup_insert_eq].
    intros k e E. unfold obj in E.
    destruct (decide (data_zeroes = k)) as [<-|Hk].
    - rewrite lookup_insert_eq in E. injection E as <-.
      apply category_map_valid.
    - rewrite lookup_insert_ne in E by exact Hk.
      destruct (fold_insert_lookup prevseason lszeroes w' sorted ∅ k)
        as [(rc & _ & _ & E')|[_ E']]; rewrite E' in E.
      + injection E as <-. apply category_map_valid.
      + rewrite lookup_empty in E. discriminate. }
  exists (clamp_entry <$> obj), (clamp_entry (zeroes_map w')).
  split; [exact Hl|]. split; [|split].
  - intros self rt e v E Ev.
    rewrite (load_prevseason_ls _ _ _ self rt Hl), E.
    apply clamp_entry_min, Ev.
  - intros self rt e E Ev.
    rewrite (load_prevseason_ls _ _ _ self rt Hl), E.
    apply clamp_entry_absent, Ev.
  - intros self rt E.
    rewrite (load_prevseason_ls _ _ _ self rt Hl), E. reflexivity.
Qed.

(** ** Time fields *)

Lemma token_no_colon (s : string) :
  str_contains ":" s = true -> is_token s = false.
Proof.
  intros H. unfold is_token.
  destruct (String.eqb_spec s "DNF") as [->|_]; [discriminate|].
  destruct (String.eqb_spec s "DNS") as [->|_]; [discriminate|].
  destruct (String.eqb_spec s "DSQ") as [->|_]; [discriminate|].
  reflexivity.
Qed.

Section TimeEval.
Variable Decimal : string -> option Q.

Lemma timeeval_accepted (s : string) :
  is_Ok (timeeval Decimal s) = accepted Decimal s.
Proof.
  unfold timeeval, accepted, is_minutes_seconds, is_decimal.
  destruct (String.eqb s ""); [reflexivity|]. simpl.
  destruct (Decimal s); [reflexivity|]. simpl.
  destruct (str_contains ":" s) eqn:Ec; simpl.
  - rewrite (token_no_colon s Ec).
    destruct (Decimal (fst (str_partition ":" s))); simpl; [|reflexivity].
    destruct (Decimal (snd (str_partition ":" s))); reflexivity.
  - unfold is_token.
    destruct (String.eqb s "DNF"); [reflexivity|].
    destruct (String.eqb s "DNS"); [reflexivity|].
    destruct (String.eqb s "DSQ"); reflexivity.
Qed.

(** The loop over a row stops at an item [timeeval] refuses. *)
Lemma row_items_refused st row i nm ij rr j item :
  row !! j = Some item -> (2 <= i + j)%nat ->
  accepted Decimal item = false ->
  exists e, row_items Decimal st row i nm ij rr = Raise e.
Proof.
  revert i nm ij rr j. induction row as [|x row IH];
    intros i nm ij rr j E L A; [discriminate|].
  destruct j as [|j]; simpl in E.
  - injection E as ->.
    destruct i as [|[|i]]; [lia|lia|]. simpl. unfold row_item.
    rewrite <- timeeval_accepted in A.
    destruct (timeeval Decimal item); [discriminate|]. simpl. eauto.
  - destruct i as [|[|i]]; simpl.
    + eapply IH; [exact E|lia|exact A].
    + eapply IH; [exact E|lia|exact A].
    + destruct (row_item Decimal st x (S (S i))) as [r|e]; simpl; [|eauto].
      eapply IH; [exact E|lia|exact A].
Qed.

Lemma racer_rows_refused st rows row j item :
  In row rows -> row !! (2 + j)%nat = Some item ->
  accepted Decimal item = false ->
  exists e, racer_rows Decimal st rows = Raise e.
Proof.
  revert st. induction rows as [|r rows IH]; intros st I E A; [destruct I|].
  simpl. destruct I as [->|I].
  - unfold racer_row.
    destruct (row_items_refused st row 0 (thisname st) (l_inj st) []
                (2 + j) item E ltac:(lia) A) as (e & ->).
    simpl. eauto.
  - destruct (racer_row Decimal st r) as [st'|e]; simpl; [|eauto].
    eapply IH; eassumption.
Qed.
End TimeEval.


(** ** What the loader builds *)

Lemma indexed_from_app k l r :
  indexed_from k l = true -> race r = (k + length l)%nat ->
  indexed_from k (l ++ [r]) = true.
Proof.
  revert k. induction l as [|x l IH]; intros k H Hr; simpl in *.
  - rewrite Hr. replace (k + 0)%nat with k by lia.
    rewrite Nat.eqb_refl. reflexivity.
  - apply andb_true_iff in H as [Hx Hl]. rewrite Hx. simpl.
    apply IH; [exact Hl|]. lia.
Qed.

Lemma Result_init_race t raceid : race (Result_init t raceid) = raceid.
Proof. destruct t; reflexivity. Qed.

Section LoaderFacts.
Variable Decimal : string -> option Q.

Lemma header_item_fresh item r : header_item item = Ok r -> fresh r = true.
Proof.
  unfold header_item.
  destruct (str_split "#" item !! 1%nat) as [cat|]; [|discriminate].
  destruct (RaceType_of_name cat) as [rt|]; [|discriminate].
  destruct (str_split "#" item !! 2%nat); intros [= <-]; reflexivity.
Qed.

Lemma header_row_fresh row i rs :
  header_row row i = Ok rs -> forallb fresh rs = true.
Proof.
  revert i rs. induction row as [|item row IH]; intros i rs H; simpl in H.
  - injection H as <-. reflexivity.
  - destruct (1 <? i)%nat; [|eapply IH, H].
    destruct (header_item item) as [r|] eqn:Er; [|discriminate]. simpl in H.
    destruct (header_row row (S i)) as [rs'|] eqn:Ers; [|discriminate].
    injection H as <-. simpl.
    rewrite (header_item_fresh _ _ Er), (IH _ _ Ers). reflexivity.
Qed.

(** The results of a row are numbered by their column and fit the
    header. *)
Lemma row_items_indexed st row i nm ij rr nm' ij' rr' :
  row_items Decimal st row i nm ij rr = Ok (nm', ij', rr') ->
  indexed_from 0 rr = true -> length rr = (i - 2)%nat ->
  (length rr <= length (l_races st))%nat ->
  indexed_from 0 rr' = true /\ (length rr' <= length (l_races st))%nat.
Proof.
  revert i nm ij rr. induction row as [|item row IH];
    intros i nm ij rr H Hi Hl Hn; simpl in H.
  - injection H as <- <- <-. auto.
  - destruct i as [|[|i]].
    + eapply IH; [exact H|exact Hi|simpl in *; lia|exact Hn].
    + eapply IH; [exact H|exact Hi|simpl in *; lia|exact Hn].
    + unfold row_item in H.
      destruct (timeeval Decimal item) as [t|]; cbn [res_bind] in H;
        [|discriminate H].
      destruct (l_races st !! (S (S i) - 2)%nat) as [rc|] eqn:E;
        cbn [res_bind] in H; [|discriminate H].
      apply lookup_lt_Some in E.
      eapply IH; [exact H| | |].
      * apply indexed_from_app; [exact Hi|].
        rewrite Result_init_race. simpl in *. lia.
      * rewrite length_app. simpl in *. lia.
      * rewrite length_app. simpl in *. lia.
Qed.

Lemma racer_rows_wf st rows st' :
  racer_rows Decimal st rows = Ok st' ->
  roster_wf (length (l_races st)) (l_racers st) = true ->
  l_races st' = l_races st /\
  roster_wf (length (l_races st')) (l_racers st') = true.
Proof.
  revert st. induction rows as [|row rows IH]; intros st H Hwf; simpl in H.
  - injection H as <-. auto.
  - destruct (racer_row Decimal st row) as [st1|] eqn:E1; [|discriminate].
    simpl in H. unfold racer_row in E1.
    destruct (row_items Decimal st row 0 (thisname st) (l_inj st) [])
      as [[[nm ij] rr]|] eqn:Er; [|discriminate].
    simpl in E1. destruct nm as [nm|]; [|discriminate].
    destruct ij as [b|]; [|discriminate]. injection E1 as <-.
    destruct (row_items_indexed _ _ _ _ _ _ _ _ _ Er eq_refl eq_refl
                ltac:(simpl; lia)) as [Hi Hn].
    apply IH in H.
    + simpl in H. exact H.
    + simpl. unfold roster_wf in *. rewrite forallb_app, Hwf. simpl.
      rewrite Hi. apply Nat.leb_le in Hn. rewrite Hn. reflexivity.
Qed.

(** The loader hands the scoring engine freshly constructed races and a
    roster in which every result is numbered by its column. *)
Lemma load_results_wf rows st :
  load_results Decimal rows = Ok st ->
  forallb fresh (l_races st) = true /\
  roster_wf (length (l_races st)) (l_racers st) = true.
Proof.
  unfold load_results. destruct rows as [|header rows].
  - intros [= <-]. auto.
  - destruct (header_row header 0) as [rs|] eqn:Eh; [|discriminate].
    simpl. intros H.
    destruct (racer_rows_wf _ _ _ H eq_refl) as [Er Hwf].
    split; [|exact Hwf]. rewrite Er. simpl. eapply header_row_fresh, Eh.
Qed.
End LoaderFacts.

(** ** The theorems on the small season *)

Lemma ex_warm_up_run :
  warm_up ex_prevseason ex_lszeroes ex_racers (init_world ex_rs)
  = Ok (tt, ex_warm).
Proof. vm_compute. reflexivity. Defined.

Lemma ex_season_run :
  season ex_prevseason ex_lszeroes ex_racers (init_world ex_rs)
  = Ok (ex_obj, ex_warm).
Proof. vm_compute. reflexivity. Defined.

(** After the warm-up pass of the small season the zero factor of the giant
    slalom is at most 660, below the raw average of every racer, and equal
    to 660 or to the raw average of one of them. *)
Lemma zero_factor_run_witness :
  zeroes ex_warm GS <= ffactor GS /\
  (forall rc, In rc ex_racers ->
     exists avg,
       category_average ex_prevseason ex_lszeroes ex_racers rc GS ex_warm
       = Ok (avg, ex_warm) /\
       zeroes ex_warm GS <= avg) /\
  (zeroes ex_warm GS = ffactor GS \/
   exists rc avg,
     In rc ex_racers /\
     category_average ex_prevseason ex_lszeroes ex_racers rc GS ex_warm
     = Ok (avg, ex_warm) /\
     zeroes ex_warm GS = avg).
Proof.
  apply (proj2 (proj2 (proj2 (proj2
           (zero_factor_run ex_prevseason ex_lszeroes))))
           ex_rs ex_racers ex_warm ex_warm_up_run GS).
Defined.



(** C4, the failing input.  The table has the header [name,inj,H1#GS#5.0]
    and the row [A#M,,60]: one giant slalom with a penalty given in the
    header, one racer who finished it in 60 seconds.  The loader gives the
    race the string for a penalty; [best_two] for the racer and the category
    raises [TypeError], where [Result.points] adds the string to the raw
    points, and returns no two values; the script stops in the warm-up
    pass. *)
Example best_two_override_raises :
  let rows := [["name"; "inj"; "H1#GS#5.0"]; ["A#M"; ""; "60"]] in
  let rs := [Race_init GS "H1" (Some (VStr "5.0"))] in
  let racer := mkRacer "A" [Result_init (TDec 60) 0] M false in
  (exists st, load_results ex_Decimal rows = Ok st /\
              l_races st = rs /\ l_racers st = [racer]) /\
  (forall prevseason lszeroes,
      eval (best_two prevseason lszeroes [racer] racer GS) (init_world rs)
      = Raise TypeError) /\
  script ex_Decimal (Some ex_archive) rows = Raise TypeError.
Proof.
  intros rows rs racer. split; [|split].
  - eexists. split; [vm_compute; reflexivity|]. split; reflexivity.
  - intros prevseason lszeroes. reflexivity.
  - vm_compute. reflexivity.
Qed.

(** C6, the counterexample.  Two racers finish the same race in the same
    time: both have place 1, so the one that comes first in the input does
    not have the smaller place. *)
Lemma place_ties_not_broken : ~ ties_broken_by_input_order tie_racers.
Proof.
  intros H.
  assert (E : 60 == 60.0) by reflexivity.
  specialize (H [] tie_rA [] tie_rB [] 60 60.0 1%nat 1%nat eq_refl eq_refl
                eq_refl eq_refl E eq_refl eq_refl).
  lia.
Qed.

(** The places of B in the small season and of the second of two racers
    with the same time. *)
Lemma place_rank_witness :
  place ex_racers ex_rB
  = Some (1 + length (faster_finishers ex_racers ex_rB))%nat /\
  place tie_racers tie_rB = place tie_racers tie_rA.
Proof.
  split.
  - apply (proj1 (proj2 (place_rank ex_racers ex_rB))). reflexivity.
  - apply (proj2 (proj2 (place_rank tie_racers tie_rA)) tie_rB 60 60.0).
    + reflexivity.
    + reflexivity.
    + reflexivity.
    + reflexivity.
Defined.



(** Loading the archive object of the small season. *)
Lemma archive_round_trip_witness :
  exists prevseason' lszeroes',
    load_prevseason ex_obj = Ok (prevseason', lszeroes') /\
    (forall (self : Racer) rt e v,
        ex_obj !! name self = Some e -> e !! RaceType_name rt = Some v ->
        ls prevseason' self rt == Qmin v (ffactor rt)) /\
    (forall (self : Racer) rt e,
        ex_obj !! name self = Some e -> e !! RaceType_name rt = None ->
        ls prevseason' self rt = ffactor rt) /\
    (forall (self : Racer) rt,
        ex_obj !! name self = None -> ls prevseason' self rt = ffactor rt).
Proof.
  apply (archive_round_trip ex_prevseason ex_lszeroes ex_racers
           (init_world ex_rs) ex_obj ex_warm ex_season_run).
Defined.


(** After the warm-up pass of the small season every evaluation of
    [best_avg] and [season_avg] returns a fixed value and changes
    nothing. *)
Lemma best_avg_idempotent_witness :
  exists (avg : Racer -> RaceType -> Q) (savg : Racer -> Q),
    forall R rc, In rc ex_racers ->
      (forall rt,
          best_avg ex_prevseason ex_lszeroes R rc rt ex_warm
          = Ok (avg rc rt, ex_warm)) /\
      season_avg ex_prevseason ex_lszeroes R rc ex_warm
      = Ok (savg rc, ex_warm).
Proof.
  apply (proj2 (best_avg_idempotent ex_prevseason ex_lszeroes)
           ex_racers (init_world ex_rs) ex_warm ex_warm_up_run).
Defined.

(** ** The scenarios of the design document *)

(** Times of 60 and 63 seconds in a giant slalom: the slower racer has 33
    raw points, the faster one none. *)
Example scenario_raw_points :
  exists vA vB,
    eval (raw_points ex_racers ex_rA) (init_world ex_rs) = Ok (Some vA) /\
    eval (raw_points ex_racers ex_rB) (init_world ex_rs) = Ok (Some vB) /\
    vA == 0 /\ vB == 33.
Proof.
  eexists. eexists. split; [vm_compute; reflexivity|].
  split; [vm_compute; reflexivity|]. split; reflexivity.
Qed.

(** A racer the archive does not know has a penalized carry of 660 in the
    giant slalom: 1.44 times 660 is above the cap. *)
Example scenario_new_racer :
  ex_prevseason !! name ex_C = None /\
  last_penalized ex_prevseason ex_lszeroes ex_C GS == 660.
Proof. split; [vm_compute; reflexivity|reflexivity]. Qed.

(** An injured racer with a carried score of 100, when last season's zero
    factor was 50, has a penalized carry of 133. *)
Example scenario_injured :
  let prevseason : gmap string (RaceType -> Q) := {[ "X" := fun _ => 100 ]} in
  last_penalized prevseason (fun _ => 50) (mkRacer "X" [] M true) GS == 133.
Proof. reflexivity. Qed.

(** ** Results as the loader constructs them *)

Lemma finished_started (r : Result) : finished r = true -> started r = true.
Proof.
  unfold finished, started.
  destruct (result r) as [|[| |]], (_time r); simpl; congruence.
Qed.

Lemma time_Result_init t raceid d :
  time (Result_init t raceid) = Some d <-> t = TDec d.
Proof.
  destruct t as [|d'|k]; unfold time; simpl; split; intros H;
    try discriminate; congruence.
Qed.

(** X1.  What a time field of the table becomes: a result of the race of
    its column; finished exactly for a field that is not empty and is a
    decimal or minutes and seconds; not started exactly for the empty field
    and for DNS, so that DNF and DSQ are starters that did not finish; with
    a time exactly when the field gave a decimal.  And whatever its fields, a
    finished result is a started one. *)
Theorem field_status (Decimal : string -> option Q) (s : string)
    (t : timeval) (raceid : nat) :
  timeeval Decimal s = Ok t ->
  race (Result_init t raceid) = raceid /\
  (finished (Result_init t raceid) = true <->
   s <> "" /\
   (is_decimal Decimal s = true \/ is_minutes_seconds Decimal s = true)) /\
  (started (Result_init t raceid) = false <->
   s = "" \/ (s = "DNS" /\ is_decimal Decimal s = false)) /\
  (forall d, time (Result_init t raceid) = Some d <-> t = TDec d) /\
  (forall r : Result, finished r = true -> started r = true).
Proof.
  intros H. split; [apply Result_init_race|].
  split; [|split; [|split; [apply time_Result_init|apply finished_started]]];
    unfold timeeval in H; unfold is_minutes_seconds, is_decimal.
  - destruct (String.eqb_spec s "") as [->|Hne].
    { injection H as <-. simpl. split; [discriminate|]. intros [N _].
      congruence. }
    destruct (Decimal s) as [d|] eqn:Ed.
    { injection H as <-. simpl. split; auto. }
    destruct (str_contains ":" s) eqn:Ec.
    + destruct (Decimal (fst (str_partition ":" s))) as [m|];
        [|discriminate].
      destruct (Decimal (snd (str_partition ":" s))) as [x|];
        [|discriminate].
      injection H as <-. simpl. split; auto.
    + assert (Hn : finished (Result_init t raceid) = false).
      { destruct (String.eqb s "DNF"); [injection H as <-; reflexivity|].
        destruct (String.eqb s "DNS"); [injection H as <-; reflexivity|].
        destruct (String.eqb s "DSQ"); [injection H as <-; reflexivity|].
        discriminate. }
      rewrite Hn. simpl. split; [discriminate|].
      intros [_ [N|N]]; discriminate.
  - destruct (String.eqb_spec s "") as [->|Hne].
    { injection H as <-. simpl. split; auto. }
    destruct (Decimal s) as [d|] eqn:Ed.
    { injection H as <-. simpl. split; [discriminate|].
      intros [N|[_ N]]; [congruence|discriminate]. }
    destruct (str_contains ":" s) eqn:Ec.
    + destruct (Decimal (fst (str_partition ":" s))) as [m|];
        [|discriminate].
      destruct (Decimal (snd (str_partition ":" s))) as [x|];
        [|discriminate].
      injection H as <-. simpl. split; [discriminate|].
      intros [N|[N _]]; [congruence|]. subst s. discriminate.
    + destruct (String.eqb_spec s "DNF") as [->|_].
      { injection H as <-. simpl. split; [discriminate|].
        intros [N|[N _]]; discriminate. }
      destruct (String.eqb_spec s "DNS") as [->|Hd].
      { injection H as <-. simpl. split; auto. }
      destruct (String.eqb_spec s "DSQ") as [->|_]; [|discriminate].
      injection H as <-. simpl. split; [discriminate|].
      intros [N|[N _]]; discriminate.
Qed.

(** ** The best time of a race, stored *)

Lemma best_scan_Inf R i :
  best_scan R i = Inf <->
  forall r, In r (all_results R) -> race r = i -> time r = None.
Proof.
  rewrite best_scan_unfold. split.
  - intros E r I Hr. destruct (time r) as [t|] eqn:Ht; [|reflexivity].
    pose proof (scan_fold_below i _ Inf r t I Hr Ht) as L.
    rewrite E in L. destruct L.
  - intros H.
    destruct (scan_fold_attained i (all_results R) Inf)
      as [E|(r & t & I & Hr & Ht & _)]; [exact E|].
    rewrite (H r I Hr) in Ht. discriminate.
Qed.

Lemma best_scan_Fin R i t :
  best_scan R i = Fin t ->
  (exists r, In r (all_results R) /\ race r = i /\ time r = Some t) /\
  (forall r t', In r (all_results R) -> race r = i -> time r = Some t' ->
                t <= t').
Proof.
  rewrite best_scan_unfold. intros E. split.
  - destruct (scan_fold_attained i (all_results R) Inf)
      as [E'|(r & t' & I & Hr & Ht & E')]; [congruence|].
    exists r. rewrite E in E'. injection E' as ->. auto.
  - intros r t' I Hr Ht.
    pose proof (scan_fold_below i _ Inf r t' I Hr Ht) as L.
    rewrite E in L. exact L.
Qed.


(** ** The penalized carry of an injured racer *)

Lemma pymin_mono (a a' b : Q) : a <= a' -> pymin a b <= pymin a' b.
Proof.
  intros H. rewrite !pymin_Qmin. apply Q.min_le_compat_r. exact H.
Qed.


(** ** The best two never exceed the penalized carry *)

(** In a sorted list that holds [a] and [b], the second element is at most
    one of them. *)
Lemma sorted_second (a b : Q) (m s : list Q) :
  StronglySorted (key_le (fun x : Q => x)) s -> Permutation (a :: b :: m) s ->
  exists t0 t1 rest, s = t0 :: t1 :: rest /\ t0 <= t1 /\ (t1 <= a \/ t1 <= b).
Proof.
  intros Hs Hp.
  destruct s as [|t0 [|t1 rest]].
  - apply Permutation_length in Hp. discriminate.
  - apply Permutation_length in Hp. discriminate.
  - exists t0, t1, rest. split; [reflexivity|].
    apply StronglySorted_inv in Hs as [Hs1 H0].
    apply StronglySorted_inv in Hs1 as [_ H1].
    rewrite List.Forall_forall in H0, H1.
    split; [apply H0; left; reflexivity|].
    assert (Ia : In a (t0 :: t1 :: rest)).
    { eapply Permutation_in; [exact Hp|left; reflexivity]. }
    destruct Ia as [<-|[<-|Ia]].
    + apply Permutation_cons_inv in Hp.
      assert (Ib : In b (t1 :: rest)).
      { eapply Permutation_in; [exact Hp|left; reflexivity]. }
      right. destruct Ib as [<-|Ib]; [apply Qle_refl|apply H1, Ib].
    + left. apply Qle_refl.
    + left. apply H1, Ia.
Qed.

Section BestTwoBounds.
Variable prevseason : gmap string (RaceType -> Q).
Variable lszeroes : RaceType -> Q.

Lemma best_two_memo_bounds w rc rt l :
  best_two_memo prevseason lszeroes w rc rt = Some l ->
  exists t0 t1, l = [t0; t1] /\ t0 <= t1 /\
    t1 <= last_penalized prevseason lszeroes rc rt.
Proof.
  unfold best_two_memo.
  destruct (season_memo w rt (results rc)) as [ps|]; [|discriminate].
  intros [= <-]. set (lp := last_penalized prevseason lszeroes rc rt).
  destruct (sorted_second lp lp ps (pysort (ps ++ [lp; lp])))
    as (t0 & t1 & rest & E & L01 & L1).
  - apply sort_by_sorted.
  - etransitivity; [|apply sort_by_perm].
    change (lp :: lp :: ps) with ([lp; lp] ++ ps). apply Permutation_app_comm.
  - exists t0, t1. rewrite E. split; [reflexivity|]. split; [exact L01|].
    destruct L1; assumption.
Qed.

Lemma last_penalized_le rc rt :
  last_penalized prevseason lszeroes rc rt <= ffactor rt.
Proof. unfold last_penalized. destruct (inj rc); apply pymin_le_r. Qed.

Lemma avg_memo_bound w rc rt avg :
  avg_memo prevseason lszeroes w rc rt = Some avg ->
  avg <= last_penalized prevseason lszeroes rc rt /\ avg <= ffactor rt.
Proof.
  unfold avg_memo. intros H.
  destruct (best_two_memo prevseason lszeroes w rc rt) as [l|] eqn:E;
    [|discriminate].
  destruct (best_two_memo_bounds _ _ _ _ E) as (t0 & t1 & -> & L01 & L1).
  injection H as <-. pose proof (last_penalized_le rc rt) as Lf.
  split.
  - apply Qle_shift_div_r; [reflexivity|]. lra.
  - apply Qle_shift_div_r; [reflexivity|]. lra.
Qed.
End BestTwoBounds.

(** X4.  When [best_two] returns, it returns two values in ascending
    order, and the larger one is at most the racer's penalized carry, which
    is at most the scale factor: a result can lower what the racer carries
    over, never raise it. *)
Theorem best_two_bounds (prevseason : gmap string (RaceType -> Q))
    (lszeroes : RaceType -> Q) (R : list Racer) (self : Racer)
    (racetype : RaceType) (w : world) (l : list Q) (w' : world) :
  best_two prevseason lszeroes R self racetype w = Ok (l, w') ->
  exists t0 t1,
    l = [t0; t1] /\ t0 <= t1 /\
    t1 <= last_penalized prevseason lszeroes self racetype /\
    last_penalized prevseason lszeroes self racetype <= ffactor racetype.
Proof.
  intros H. apply best_two_post in H.
  destruct (best_two_memo_bounds _ _ _ _ _ _ H) as (t0 & t1 & E & L01 & L1).
  exists t0, t1. split; [exact E|]. split; [exact L01|].
  split; [exact L1|apply last_penalized_le].
Qed.

(** ** What [best_avg] returns is never negative *)

Lemma best_avg_range_one prevseason lszeroes R rc rt w v w' :
  best_avg prevseason lszeroes R rc rt w = Ok (v, w') ->
  0 <= v /\ v <= ffactor rt - zeroes w' rt /\
  exists avg w1,
    category_average prevseason lszeroes R rc rt w = Ok (avg, w1) /\
    (v == 0 <-> avg <= zeroes w rt).
Proof.
  intros H.
  destruct (best_avg_post _ _ _ _ _ _ _ _ H)
    as (avg & w1 & _ & Ea & [Z _] & Ew & Ev).
  pose proof (lower_zero_le_avg rt avg w1) as L. rewrite <- Ew in L.
  destruct (avg_memo_bound _ _ _ _ _ _ Ea) as [_ Lf].
  split; [rewrite Ev; lra|]. split; [rewrite Ev; lra|].
  rewrite best_avg_unfold in H. apply bind_Ok in H as (avg' & w1' & E & H).
  exists avg', w1'. split; [exact E|].
  apply category_average_grows in E as [Z' _].
  injection H as Hv Hw. rewrite <- Hv. unfold lower_zero. rewrite Z'.
  destruct (Qltb avg' (zeroes w rt)) eqn:Eq; simpl.
  - rewrite upd_zero_same. apply Qltb_lt in Eq. split; intros _; lra.
  - rewrite Z'. apply Qltb_ge in Eq. split; intros; lra.
Qed.

(** X5.  Whatever [best_avg] returns lies between zero and the scale
    factor minus the zero factor it leaves behind, and it is zero exactly
    when the racer's raw category average is at or below the zero factor
    found; so the season average, the mean of three such values, is never
    negative either. *)
Theorem best_avg_range (prevseason : gmap string (RaceType -> Q))
    (lszeroes : RaceType -> Q) :
  (forall R rc rt w v w',
      best_avg prevseason lszeroes R rc rt w = Ok (v, w') ->
      0 <= v /\ v <= ffactor rt - zeroes w' rt /\
      exists avg w1,
        category_average prevseason lszeroes R rc rt w = Ok (avg, w1) /\
        (v == 0 <-> avg <= zeroes w rt)) /\
  (forall R rc w v w',
      season_avg prevseason lszeroes R rc w = Ok (v, w') -> 0 <= v).
Proof.
  split; [apply best_avg_range_one|].
  intros R rc w v w' H. unfold season_avg, all_RaceType in H. simpl in H.
  inv_runs.
  repeat match goal with
  | E : best_avg _ _ _ _ _ _ = Ok _ |- _ =>
      apply best_avg_range_one in E as (? & _)
  end.
  unfold pysum. simpl. apply Qle_shift_div_l; [reflexivity|]. lra.
Qed.

(** ** The leader of a category *)

(** X6.  After the warm-up pass over a roster that is not empty, the zero
    factor of a category is the raw category average of one of the racers,
    and that racer's zero-adjusted average is zero for the rest of the
    run, whatever [racers] is bound to: every category has a racer with no
    points. *)
Theorem leader_has_zero (prevseason : gmap string (RaceType -> Q))
    (lszeroes : RaceType -> Q) (rs : list Race) (racers : list Racer)
    (w' : world) :
  warm_up prevseason lszeroes racers (init_world rs) = Ok (tt, w') ->
  racers <> [] ->
  forall rt, exists rc avg,
    In rc racers /\
    category_average prevseason lszeroes racers rc rt w' = Ok (avg, w') /\
    zeroes w' rt == avg /\
    forall R, exists v,
      best_avg prevseason lszeroes R rc rt w' = Ok (v, w') /\ v == 0.
Proof.
  intros H Hne rt. apply warm_up_post in H as ([_ Z] & S & A).
  destruct (A rt) as [E|(rc & I & E)].
  - destruct racers as [|rc l]; [congruence|].
    destruct (S rc rt (or_introl eq_refl)) as (avg & Ea & L).
    destruct (avg_memo_bound _ _ _ _ _ _ Ea) as [_ Lf].
    simpl in E. rewrite E in L.
    exists rc, avg. split; [left; reflexivity|].
    split; [apply category_average_of_memo, Ea|].
    split; [rewrite E; lra|].
    intros R. exists (avg - zeroes w' rt). split.
    + apply settled_best_avg; [exact Ea|rewrite E; exact L].
    + rewrite E. lra.
  - exists rc, (zeroes w' rt). split; [exact I|].
    split; [apply category_average_of_memo, E|].
    split; [reflexivity|].
    intros R. exists (zeroes w' rt - zeroes w' rt). split.
    + apply settled_best_avg; [exact E|apply Qle_refl].
    + lra.
Qed.

(** ** The ranking *)

Section Stability.
Context {X : Type} (key : X -> Q).

Lemma filter_insert_by (k : Q) (x : X) (l : list X) :
  List.filter (fun y => Qeq_bool (key y) k) (insert_by key x l)
  = if Qeq_bool (key x) k
    then x :: List.filter (fun y => Qeq_bool (key y) k) l
    else List.filter (fun y => Qeq_bool (key y) k) l.
Proof.
  induction l as [|y l IH]; simpl.
  - destruct (Qeq_bool (key x) k); reflexivity.
  - destruct (Qltb (key y) (key x)) eqn:E; simpl.
    + rewrite IH.
      destruct (Qeq_bool (key y) k) eqn:Ey; [|reflexivity].
      destruct (Qeq_bool (key x) k) eqn:Ex; [|reflexivity].
      apply Qeq_bool_eq in Ey, Ex. apply Qltb_lt in E. lra.
    + reflexivity.
Qed.

(** The sort is stable: elements with equal keys stay in input order. *)
Lemma sort_by_stable (k : Q) (l : list X) :
  List.filter (fun y => Qeq_bool (key y) k) (sort_by key l)
  = List.filter (fun y => Qeq_bool (key y) k) l.
Proof.
  induction l as [|x l IH]; simpl; [reflexivity|].
  rewrite filter_insert_by, IH. reflexivity.
Qed.
End Stability.

Lemma zip_map_self {X Y : Type} (f : X -> Y) (l : list X) :
  zip l (map f l) = map (fun x => (x, f x)) l.
Proof. induction l as [|x l IH]; simpl; [|rewrite IH]; reflexivity. Qed.

Lemma sort_zip_keys {X : Type} (key : X -> Q) (l : list X) :
  map fst (sort_by snd (zip l (map key l))) = sort_by key l.
Proof.
  rewrite zip_map_self.
  rewrite (sort_by_map (fun x => (x, key x)) key snd) by reflexivity.
  rewrite map_map. simpl. apply map_id.
Qed.

(** X7.  The ranking of line 316, computed after the warm-up pass, changes
    nothing in the world and is the roster rearranged in ascending order of
    the season average every later evaluation returns; racers with equal
    season averages stay in the order of the table. *)
Theorem ranking_order (prevseason : gmap string (RaceType -> Q))
    (lszeroes : RaceType -> Q) (racers : list Racer) (w0 w : world)
    (sorted : list Racer) (w' : world) :
  warm_up prevseason lszeroes racers w0 = Ok (tt, w) ->
  sort_racers prevseason lszeroes racers w = Ok (sorted, w') ->
  w' = w /\ Permutation racers sorted /\
  exists savg : Racer -> Q,
    (forall R rc, In rc racers ->
       season_avg prevseason lszeroes R rc w = Ok (savg rc, w)) /\
    StronglySorted (fun a b => savg a <= savg b) sorted /\
    (forall k, tied_at savg k sorted = tied_at savg k racers).
Proof.
  intros Hw Hs. apply warm_up_post in Hw as (_ & S & _).
  unfold sort_racers in Hs.
  rewrite (bind_Ok_intro _ _ _ _ _
             (mapM_season_avg_settled prevseason lszeroes racers racers w S))
    in Hs.
  injection Hs as <- <-. rewrite sort_zip_keys.
  split; [reflexivity|]. split; [apply sort_by_perm|].
  exists (season_avg_memo prevseason lszeroes w). split; [|split].
  - intros R rc I. apply settled_season_avg. intros rt. apply S, I.
  - apply (sort_by_sorted (season_avg_memo prevseason lszeroes w)).
  - intros k. apply sort_by_stable.
Qed.

(** ** A race nobody started *)

Lemma roster_In racers p :
  In p (roster racers) -> In (fst p) racers /\ In (snd p) (results (fst p)).
Proof.
  unfold roster. intros H. apply in_flat_map in H as (rc & I & H).
  apply in_map_iff in H as (r & <- & Ir). auto.
Qed.

Lemma roster_all_results racers p :
  In p (roster racers) -> In (snd p) (all_results racers).
Proof.
  intros H. apply roster_In in H as [I Ir].
  eapply in_all_results; eassumption.
Qed.

Lemma filter_none {X : Type} (f : X -> bool) (l : list X) :
  (forall x, In x l -> f x = false) -> List.filter f l = [].
Proof.
  induction l as [|x l IH]; intros H; simpl; [reflexivity|].
  rewrite (H x (or_introl eq_refl)). apply IH. intros y I. apply H. right.
  exact I.
Qed.

Section NoStarters.
Variable prevseason : gmap string (RaceType -> Q).
Variable racers : list Racer.
Variable i : nat.
Hypothesis Hno :
  forall r, In r (all_results racers) -> race r = i -> started r = false.

Lemma points_start_none rt : points_start prevseason racers i rt = [].
Proof.
  unfold points_start. rewrite filter_none; [reflexivity|].
  intros p I. destruct (Nat.eqb_spec (race (snd p)) i) as [E|_];
    [|reflexivity].
  simpl. apply Hno; [apply roster_all_results, I|exact E].
Qed.

Lemma tt_finish_none : tt_finish racers i = [].
Proof.
  unfold tt_finish. rewrite filter_none; [reflexivity|].
  intros p I. destruct (Nat.eqb_spec (race (snd p)) i) as [E|_];
    [|reflexivity].
  simpl. destruct (finished (snd p)) eqn:F; [|reflexivity].
  apply finished_started in F.
  rewrite (Hno _ (roster_all_results _ _ I) E) in F. discriminate.
Qed.

Lemma A_none w rc :
  races w !! i = Some rc -> A prevseason racers i w = Ok (0, w).
Proof.
  intros E. unfold A, bind, get_race. rewrite E, points_start_none.
  reflexivity.
Qed.

Lemma BC_none w rc :
  races w !! i = Some rc -> BC prevseason racers i w = Ok ((0, 0), w).
Proof.
  intros E. unfold BC, bind, get_race, points_finish.
  rewrite E, tt_finish_none. reflexivity.
Qed.
End NoStarters.

(** X8.  A race that no result of the roster started (every field of its
    column empty or DNS, or no racer at all) and that was constructed without
    a penalty: the sum A is zero, the sums B and C are zero, and the
    penalty is zero. *)
Theorem penalty_no_starters (prevseason : gmap string (RaceType -> Q))
    (racers : list Racer) (i : nat) (w : world) (rc : Race) :
  races w !! i = Some rc ->
  _sto_penalty rc = None -> _sto_B rc = None -> _sto_C rc = None ->
  (forall r, In r (all_results racers) -> race r = i -> started r = false) ->
  A prevseason racers i w = Ok (0, w) /\
  BC prevseason racers i w = Ok ((0, 0), w) /\
  exists p w',
    penalty prevseason racers i w = Ok (VDec p, w') /\ p == 0.
Proof.
  intros E Ep EB EC Hno.
  pose proof (A_none prevseason racers i Hno w rc E) as HA.
  pose proof (BC_none prevseason racers i Hno w rc E) as HBC.
  split; [exact HA|]. split; [exact HBC|].
  assert (Hg : get_race i w = Ok (rc, w))
    by (unfold get_race; rewrite E; reflexivity).
  set (w1 := mkWorld (alter (set_sto_BC 0 0) i (races w)) (zeroes w)).
  assert (HB : B prevseason racers i w = Ok (0, w1)).
  { unfold B. rewrite (bind_Ok_intro _ _ _ _ _ Hg), EB.
    rewrite (bind_Ok_intro _ _ _ _ _ HBC). reflexivity. }
  assert (HC : C prevseason racers i w1 = Ok (0, w1)).
  { unfold C, bind, get_race. simpl.
    rewrite list_lookup_alter_eq, E. reflexivity. }
  eexists. eexists. split.
  - unfold penalty. rewrite (bind_Ok_intro _ _ _ _ _ Hg), Ep.
    rewrite (bind_Ok_intro _ _ _ _ _ HA), (bind_Ok_intro _ _ _ _ _ HB).
    rewrite (bind_Ok_intro _ _ _ _ _ HC). reflexivity.
  - reflexivity.
Qed.

(** ** A race won in no time *)


(** ** The penalty of a race is at most the scale factor *)

Lemma clamp_entry_le e rt : clamp_entry e rt <= ffactor rt.
Proof.
  unfold clamp_entry. destruct (e !! RaceType_name rt) as [v|];
    [|apply Qle_refl].
  destruct (Qltb (ffactor rt) v) eqn:E; [apply Qle_refl|].
  apply Qltb_ge in E. exact E.
Qed.

Lemma load_prevseason_le obj prevseason lszeroes :
  load_prevseason obj = Ok (prevseason, lszeroes) ->
  (forall (self : Racer) rt, ls prevseason self rt <= ffactor rt) /\
  (forall rt, lszeroes rt <= ffactor rt).
Proof.
  intros H. split.
  - intros self rt. rewrite (load_prevseason_ls _ _ _ self rt H).
    destruct (obj !! name self); [apply clamp_entry_le|apply Qle_refl].
  - unfold load_prevseason in H.
    destruct (forallb (fun kv => valid_entry (snd kv)) (map_to_list obj));
      [|discriminate].
    rewrite lookup_fmap in H.
    destruct (obj !! data_zeroes) as [z|]; [|discriminate].
    injection H as _ <-. intros rt. apply clamp_entry_le.
Qed.

Lemma pysum_take5_le (l : list Q) (f : Q) :
  0 <= f -> (forall x, In x l -> x <= f) -> pysum (take 5 l) <= 5 * f.
Proof.
  intros Hf H. unfold pysum.
  destruct l as [|a [|b [|c [|d [|e l]]]]]; simpl;
    repeat match goal with
    | |- context [Qplus _ ?x] =>
        lazymatch goal with
        | _ : x <= f |- _ => fail
        | _ => assert (x <= f) by (apply H; simpl; tauto)
        end
    end; lra.
Qed.

Lemma pysum_take5_nonneg (l : list Q) :
  (forall x, In x l -> 0 <= x) -> 0 <= pysum (take 5 l).
Proof.
  intros H. unfold pysum.
  destruct l as [|a [|b [|c [|d [|e l]]]]]; simpl;
    repeat match goal with
    | |- context [Qplus _ ?x] =>
        lazymatch goal with
        | _ : 0 <= x |- _ => fail
        | _ => assert (0 <= x) by (apply H; simpl; tauto)
        end
    end; lra.
Qed.

Section PenaltyBound.
Variable prevseason : gmap string (RaceType -> Q).
Variable racers : list Racer.
Variable rs : list Race.

Lemma tt_finish_In i rc : In rc (tt_finish racers i) -> In rc racers.
Proof.
  unfold tt_finish. intros H. apply in_map_iff in H as (p & <- & I).
  apply filter_In in I as [I _]. apply roster_In in I. tauto.
Qed.

Lemma points_finish_In i rt l :
  In l (points_finish prevseason racers i rt) ->
  exists rc, In rc racers /\ In (snd l) (results rc) /\ race (snd l) = i /\
             fst l = ls prevseason rc rt.
Proof.
  unfold points_finish. intros H. apply in_flat_map in H as (rc & I & H).
  apply in_map_iff in H as (r & <- & Ir). apply filter_In in Ir as [Ir Hr].
  exists rc. split; [eapply tt_finish_In, I|]. split; [exact Ir|].
  split; [apply Nat.eqb_eq, Hr|reflexivity].
Qed.

(** A fold that returns has found the raw points of every pair. *)
Lemma BC_fold_returns acc chosen bc :
  res_foldM (BC_step_value racers rs) acc chosen = Ok bc ->
  forall l, In l chosen ->
    exists p, raw_points_value racers rs (snd l) = Ok (Some p).
Proof.
  revert acc. induction chosen as [|x chosen IH]; intros acc H l I;
    [destruct I|].
  simpl in H. unfold BC_step_value at 1 in H.
  destruct (raw_points_value racers rs (snd x)) as [[p|]|e] eqn:E;
    simpl in H; try discriminate.
  destruct I as [<-|I]; [eauto|]. eapply IH; eassumption.
Qed.

Lemma raw_of_nonneg r rc p :
  In r (all_results racers) -> rs !! race r = Some rc ->
  positive_in racers (race r) = true ->
  raw_points_value racers rs r = Ok (Some p) -> 0 <= p.
Proof.
  intros I E P H.
  destruct (time r) as [t|] eqn:Ht;
    [|unfold raw_points_value in H; rewrite Ht in H; discriminate].
  destruct (raw_points_value_Ok racers rs r t rc I Ht E P)
    as (best & _ & Pb & Lb & Ev).
  rewrite Ev in H. injection H as <-.
  apply raw_nonneg; [exact Pb|exact Lb|apply ffactor_pos].
Qed.

Lemma BC_value_bound i rc b c :
  (forall (self : Racer) rt, ls prevseason self rt <= ffactor rt) ->
  rs !! i = Some rc -> positive_in racers i = true ->
  BC_value prevseason racers rs i = Ok (b, c) ->
  b <= 5 * ffactor (rtype rc) /\ 0 <= c.
Proof.
  intros Hls E P H. unfold BC_value in H. rewrite E in H.
  set (pf := points_finish prevseason racers i (rtype rc)) in H.
  pose proof (BC_fold_returns _ _ _ H) as Hret.
  rewrite (BC_fold_value racers rs (0, 0) _ Hret) in H.
  injection H as <- <-. simpl fst. simpl snd.
  assert (Hin : forall l, In l (sort_by fst pf) -> In l pf).
  { intros l I.
    apply (Permutation_in _ (Permutation_sym (sort_by_perm fst pf))), I. }
  rewrite <- !firstn_map. split.
  - apply pysum_take5_le; [apply Qlt_le_weak, ffactor_pos|].
    intros x I. apply in_map_iff in I as (l & <- & I). apply Hin in I.
    apply points_finish_In in I as (r & _ & _ & _ & ->). apply Hls.
  - apply pysum_take5_nonneg.
    intros x I. apply in_map_iff in I as (l & <- & I).
    pose proof (Hin l I) as Ipf.
    apply points_finish_In in Ipf as (r & Ir & Il & Hr & _).
    unfold raw_of.
    destruct (raw_points_value racers rs (snd l)) as [[p|]|e] eqn:Ev;
      try apply Qle_refl.
    eapply raw_of_nonneg; [| | |exact Ev].
    + eapply in_all_results; eassumption.
    + rewrite Hr. exact E.
    + rewrite Hr. exact P.
Qed.

Lemma A_value_bound i rc a :
  (forall (self : Racer) rt, ls prevseason self rt <= ffactor rt) ->
  rs !! i = Some rc ->
  A_value prevseason racers rs i = Ok a -> a <= 5 * ffactor (rtype rc).
Proof.
  intros Hls E H. unfold A_value in H. rewrite E in H. injection H as <-.
  apply pysum_take5_le; [apply Qlt_le_weak, ffactor_pos|].
  intros x I.
  apply (Permutation_in _ (Permutation_sym (sort_by_perm _ _))) in I.
  unfold points_start in I. apply in_map_iff in I as (p & <- & _).
  apply Hls.
Qed.
End PenaltyBound.

(** X10.  With last season's archive loaded by the script and positive
    finished times in the race, the penalty the race computes is a decimal
    and it is at most the scale factor of the category of the race. *)
Theorem penalty_at_most_scale (obj : gmap string (gmap string Q))
    (prevseason : gmap string (RaceType -> Q)) (lszeroes : RaceType -> Q)
    (racers : list Racer) (rs : list Race) (w : world) (i : nat) (rc : Race)
    (v : pyval) (w' : world) :
  load_prevseason obj = Ok (prevseason, lszeroes) ->
  forallb fresh rs = true ->
  run_on prevseason lszeroes racers rs w ->
  rs !! i = Some rc -> _sto_penalty rc = None ->
  positive_in racers i = true ->
  penalty prevseason racers i w = Ok (v, w') ->
  exists p, v = VDec p /\ p <= ffactor (rtype rc).
Proof.
  intros Hl F Hrun E Ep P H.
  pose proof (run_on_memo_ok _ _ _ _ _ F Hrun) as Hok.
  destruct (load_prevseason_le _ _ _ Hl) as [Hls _].
  destruct (sound_Ok prevseason racers rs _ _ w v w'
              (penalty_sound prevseason racers rs i) Hok H) as [Ev _].
  unfold penalty_value in Ev. rewrite E, Ep in Ev.
  destruct (A_value prevseason racers rs i) as [a|] eqn:EA; [|discriminate].
  destruct (BC_value prevseason racers rs i) as [[b c]|] eqn:EBC;
    [|discriminate].
  simpl in Ev. injection Ev as <-. eexists. split; [reflexivity|].
  pose proof (A_value_bound prevseason racers rs i rc a Hls E EA) as La.
  destruct (BC_value_bound prevseason racers rs i rc b c Hls E P EBC)
    as [Lb Lc].
  apply Qle_shift_div_r; [reflexivity|]. lra.
Qed.

(** ** The memo fields only save work *)

Lemma sound_eval {A : Type} prevseason racers rs (m : Comp A) value w :
  sound prevseason racers rs m value -> memo_ok prevseason racers rs w ->
  eval m w = value.
Proof.
  intros Hs Hok. specialize (Hs w Hok). unfold eval. destruct value as [v|e].
  - destruct Hs as (w' & -> & _). reflexivity.
  - rewrite Hs. reflexivity.
Qed.

(** X11.  In a run against one roster, what the operations of a race and of
    a result return, or the exception they raise, does not depend on what
    was evaluated before: in any two worlds of the run [best_time],
    [raw_points], [A], [BC], [penalty], [points] and [best_two] give the
    same outcome. *)
Theorem engine_history_independent
    (prevseason : gmap string (RaceType -> Q)) (lszeroes : RaceType -> Q)
    (racers : list Racer) (rs : list Race) (w1 w2 : world) :
  forallb fresh rs = true ->
  run_on prevseason lszeroes racers rs w1 ->
  run_on prevseason lszeroes racers rs w2 ->
  (forall i, eval (best_time racers i) w1 = eval (best_time racers i) w2) /\
  (forall r, eval (raw_points racers r) w1 = eval (raw_points racers r) w2) /\
  (forall i, eval (A prevseason racers i) w1
             = eval (A prevseason racers i) w2) /\
  (forall i, eval (BC prevseason racers i) w1
             = eval (BC prevseason racers i) w2) /\
  (forall i, eval (penalty prevseason racers i) w1
             = eval (penalty prevseason racers i) w2) /\
  (forall r, eval (points prevseason racers r) w1
             = eval (points prevseason racers r) w2) /\
  (forall rc rt, eval (best_two prevseason lszeroes racers rc rt) w1
                 = eval (best_two prevseason lszeroes racers rc rt) w2).
Proof.
  intros F H1 H2.
  pose proof (run_on_memo_ok _ _ _ _ _ F H1) as Hok1.
  pose proof (run_on_memo_ok _ _ _ _ _ F H2) as Hok2.
  repeat split; intros.
  - rewrite (sound_eval _ _ _ _ _ _ (best_time_sound prevseason racers rs i) Hok1).
    rewrite (sound_eval _ _ _ _ _ _ (best_time_sound prevseason racers rs i) Hok2).
    reflexivity.
  - rewrite (sound_eval _ _ _ _ _ _ (raw_points_sound prevseason racers rs r) Hok1).
    rewrite (sound_eval _ _ _ _ _ _ (raw_points_sound prevseason racers rs r) Hok2).
    reflexivity.
  - rewrite (sound_eval _ _ _ _ _ _ (A_sound prevseason racers rs i) Hok1).
    rewrite (sound_eval _ _ _ _ _ _ (A_sound prevseason racers rs i) Hok2).
    reflexivity.
  - rewrite (sound_eval _ _ _ _ _ _ (BC_sound prevseason racers rs i) Hok1).
    rewrite (sound_eval _ _ _ _ _ _ (BC_sound prevseason racers rs i) Hok2).
    reflexivity.
  - rewrite (sound_eval _ _ _ _ _ _ (penalty_sound prevseason racers rs i) Hok1).
    rewrite (sound_eval _ _ _ _ _ _ (penalty_sound prevseason racers rs i) Hok2).
    reflexivity.
  - rewrite (sound_eval _ _ _ _ _ _ (points_sound prevseason racers rs r) Hok1).
    rewrite (sound_eval _ _ _ _ _ _ (points_sound prevseason racers rs r) Hok2).
    reflexivity.
  - rewrite (sound_eval _ _ _ _ _ _
               (best_two_sound prevseason lszeroes racers rs rc rt) Hok1).
    rewrite (sound_eval _ _ _ _ _ _
               (best_two_sound prevseason lszeroes racers rs rc rt) Hok2).
    reflexivity.
Qed.

(** ** The sums B and C *)

Lemma B_post prevseason racers i w b w' :
  B prevseason racers i w = Ok (b, w') ->
  exists r, races w' !! i = Some r /\ _sto_B r = Some b.
Proof.
  intros H. unfold B in H. inv_run H. inv_run Hm.
  destruct (_sto_B a) eqn:E.
  - inv_run Hk. eauto.
  - inv_run Hk. inv_run Hk0. inv_run Hk.
    apply BC_keeps in Hm0.
    destruct (same_zeroes_lookup _ _ _ _ _ Hm0 Hm) as (r2 & E2 & _).
    eapply upd_race_lookup in Hm1; [|exact E2]. eauto.
Qed.

(** X12.  In a run against one roster the sums [B] and [C] are the two
    components of what [BC] computes, and they raise what it raises; once
    [B] has returned, [C] is stored too: it returns without computing
    anything and leaves the world as it is. *)
Theorem B_C_components (prevseason : gmap string (RaceType -> Q))
    (lszeroes : RaceType -> Q) (racers : list Racer) (rs : list Race)
    (w : world) (i : nat) :
  forallb fresh rs = true ->
  run_on prevseason lszeroes racers rs w ->
  eval (B prevseason racers i) w
  = res_bind (eval (BC prevseason racers i) w) (fun bc => Ok (fst bc)) /\
  eval (C prevseason racers i) w
  = res_bind (eval (BC prevseason racers i) w) (fun bc => Ok (snd bc)) /\
  (forall b w', B prevseason racers i w = Ok (b, w') ->
     exists c, C prevseason racers i w' = Ok (c, w') /\
               eval (BC prevseason racers i) w = Ok (b, c)).
Proof.
  intros F Hrun. pose proof (run_on_memo_ok _ _ _ _ _ F Hrun) as Hok.
  rewrite (sound_eval _ _ _ _ _ _ (B_sound prevseason racers rs i) Hok).
  rewrite (sound_eval _ _ _ _ _ _ (C_sound prevseason racers rs i) Hok).
  rewrite (sound_eval _ _ _ _ _ _ (BC_sound prevseason racers rs i) Hok).
  split; [reflexivity|]. split; [reflexivity|].
  intros b w' H.
  destruct (sound_Ok prevseason racers rs _ _ w b w'
              (B_sound prevseason racers rs i) Hok H) as [_ Hok'].
  destruct (B_post _ _ _ _ _ _ H) as (r & Er & Eb).
  destruct (rs !! i) as [r0|] eqn:E0.
  - destruct (memo_ok_lookup _ _ _ _ _ _ Hok' E0)
      as (r' & Er' & (_ & _ & HB & _)).
    assert (r' = r) as -> by congruence.
    destruct (HB b Eb) as (c & EBC & Ec). exists c. split; [|exact EBC].
    unfold C, bind, get_race. rewrite Er, Ec. reflexivity.
  - rewrite (memo_ok_lookup_None _ _ _ _ _ Hok' E0) in Er. discriminate.
Qed.

(** ** The winner of a race *)

Lemma filter_length_lt {X : Type} (p q : X -> bool) (l : list X) (x : X) :
  (forall y, p y = true -> q y = true) ->
  In x l -> q x = true -> p x = false ->
  (length (List.filter p l) < length (List.filter q l))%nat.
Proof.
  intros Hpq. induction l as [|y l IH]; intros I Hq Hp; [destruct I|].
  assert (Hle : forall m : list X,
            (length (List.filter p m) <= length (List.filter q m))%nat).
  { induction m as [|z m IHm]; simpl; [lia|].
    destruct (p z) eqn:Ez.
    - rewrite (Hpq z Ez). simpl. lia.
    - destruct (q z); simpl; lia. }
  simpl. destruct I as [->|I].
  - rewrite Hp, Hq. simpl. specialize (Hle l). lia.
  - specialize (IH I Hq Hp). destruct (p y) eqn:Ey.
    + rewrite (Hpq y Ey). simpl. lia.
    + destruct (q y); simpl; lia.
Qed.

Lemma Qltb_irrefl (x : Q) : Qltb x x = false.
Proof. apply Qltb_ge, Qle_refl. Qed.

(** X13.  The place of a finished result of the roster lies between one
    and the number of finished results of its race, and it is one exactly
    when the time of the result is the best time of the race, the value the
    scan of [Race.best_time] ends with. *)
Theorem first_place (racers : list Racer) (self : Result) (t : Q) :
  In self (all_results racers) -> time self = Some t ->
  (exists p, place racers self = Some p /\ (1 <= p)%nat /\
     (p <= length (List.filter (finisher_of (race self))
                               (all_results racers)))%nat) /\
  (place racers self = Some 1%nat <->
   exists b, best_scan racers (race self) = Fin b /\ t == b).
Proof.
  intros I Ht.
  assert (F : finished self = true) by (apply time_finished; eauto).
  rewrite (place_count racers self F). split.
  - eexists. split; [reflexivity|]. split; [lia|].
    unfold faster_finishers.
    pose proof (filter_length_lt
                  (fun r => (race r =? race self)%nat && finished r
                            && faster r self)
                  (finisher_of (race self)) (all_results racers) self) as L.
    assert (Hlt : (length (List.filter
                     (fun r => (race r =? race self)%nat && finished r
                               && faster r self) (all_results racers))
                   < length (List.filter (finisher_of (race self))
                                         (all_results racers)))%nat).
    { apply L.
      - intros y Hy. unfold finisher_of.
        apply andb_true_iff in Hy as [Hy _]. exact Hy.
      - exact I.
      - unfold finisher_of. rewrite Nat.eqb_refl, F. reflexivity.
      - unfold faster. rewrite Ht, Qltb_irrefl, andb_false_r. reflexivity. }
    lia.
  - destruct (best_scan_least racers self t I Ht)
      as (b & Eb & (x & Ix & Hx & Htx) & L).
    split.
    + intros H. exists b. split; [exact Eb|].
      apply Qle_antisym; [|apply (L self t I eq_refl Ht)].
      destruct (Qlt_le_dec b t) as [Hlt|Hle]; [|exact Hle].
      exfalso.
      assert (Ifa : In x (faster_finishers racers self)).
      { unfold faster_finishers. apply filter_In. split; [exact Ix|].
        rewrite Hx, Nat.eqb_refl.
        assert (Fx : finished x = true) by (apply time_finished; eauto).
        rewrite Fx. unfold faster. rewrite Htx, Ht. simpl.
        apply Qltb_lt, Hlt. }
      destruct (faster_finishers racers self); [destruct Ifa|].
      simpl in H. injection H as H. discriminate.
    + intros (b' & Eb' & Hb). assert (b' = b) as -> by congruence.
      unfold faster_finishers. rewrite filter_none; [reflexivity|].
      intros r Ir.
      destruct (Nat.eqb_spec (race r) (race self)) as [Hr|_];
        [|reflexivity].
      simpl. destruct (finished r) eqn:Fr; [|reflexivity]. simpl.
      apply time_finished in Fr as (t' & Ht'). unfold faster.
      rewrite Ht', Ht. apply Qltb_ge. rewrite Hb.
      apply (L r t' Ir Hr Ht').
Qed.

(** X14.  The points of a result whose time no finisher of its race beats
    are the penalty of the race: with positive times in the race, when
    [points] returns for such a result, the penalty is stored as a decimal
    and the points equal it. *)
Theorem winner_points (prevseason : gmap string (RaceType -> Q))
    (lszeroes : RaceType -> Q) (racers : list Racer) (rs : list Race)
    (w : world) (self : Result) (t : Q) (v : option Q) (w' : world) :
  forallb fresh rs = true ->
  run_on prevseason lszeroes racers rs w ->
  In self (all_results racers) -> time self = Some t ->
  positive_in racers (race self) = true ->
  (forall r t', In r (all_results racers) -> race r = race self ->
                time r = Some t' -> t <= t') ->
  points prevseason racers self w = Ok (v, w') ->
  exists x p,
    v = Some x /\
    penalty prevseason racers (race self) w' = Ok (VDec p, w') /\
    x == p.
Proof.
  intros F Hrun I Ht P Hbest H.
  pose proof (run_on_memo_ok _ _ _ _ _ F Hrun) as Hok.
  destruct (sound_Ok prevseason racers rs _ _ w v w'
              (points_sound prevseason racers rs self) Hok H) as [_ Hok'].
  pose proof H as H'.
  eapply points_post in H' as (x & -> & Hx); [|exact Ht].
  unfold points_memo in Hx. rewrite Ht in Hx.
  destruct (races w' !! race self) as [rc'|] eqn:E'; [|discriminate].
  destruct (stored_best rc') as [b|] eqn:Eb; [|discriminate].
  destruct (_sto_penalty rc') as [[p|s]|] eqn:Ep; try discriminate.
  destruct (dec_div t b) as [q|e] eqn:Eq; [|discriminate].
  injection Hx as <-.
  exists ((q - 1) * ffactor (rtype rc') + p), p. split; [reflexivity|].
  split.
  { unfold penalty, bind, get_race. rewrite E', Ep. reflexivity. }
  destruct (rs !! race self) as [r0|] eqn:E0.
  - destruct (memo_ok_lookup _ _ _ _ _ _ Hok' E0)
      as (r' & Er' & (_ & Hb & _)).
    assert (r' = rc') as -> by congruence.
    rewrite (Hb b Eb) in Eq.
    destruct (best_scan_least racers self t I Ht)
      as (best & Ebest & (y & Iy & Hy & Hty) & L).
    rewrite Ebest in Eq.
    assert (Pb : 0 < best) by (eapply positive_in_spec; eassumption).
    rewrite (dec_div_pos _ _ Pb) in Eq. injection Eq as <-.
    assert (Hq : (t / best - 1) * ffactor (rtype rc') == 0).
    { apply raw_zero_iff; [exact Pb|apply ffactor_pos|].
      apply Qle_antisym; [apply (Hbest y best Iy Hy Hty)|].
      apply (L self t I eq_refl Ht). }
    rewrite Hq. ring.
  - rewrite (memo_ok_lookup_None _ _ _ _ _ Hok' E0) in E'. discriminate.
Qed.

(** ** Stored once *)

(** X15.  No evaluation of the engine adds or removes a race or changes the
    category of one, and a penalty or a best time that is stored is never
    replaced: every later world of the run holds the same value. *)
Theorem memo_write_once (prevseason : gmap string (RaceType -> Q))
    (lszeroes : RaceType -> Q) (w w' : world) (i : nat) (r : Race) :
  rtc (evaluation prevseason lszeroes) w w' ->
  races w !! i = Some r ->
  length (races w') = length (races w) /\
  exists r',
    races w' !! i = Some r' /\ rtype r' = rtype r /\
    (forall v, _sto_penalty r = Some v -> _sto_penalty r' = Some v) /\
    (forall b, stored_best r = Some b -> stored_best r' = Some b).
Proof.
  intros H E.
  assert (D : descends w w').
  { clear E. induction H as [|w1 w2 w3 H1 _ IH]; [reflexivity|].
    etransitivity; [eapply evaluation_descends, H1|exact IH]. }
  destruct D as [G _]. unfold races_grow in G.
  split; [symmetry; eapply Forall2_length, G|].
  eapply Forall2_lookup_l in G as (r' & E' & T & P & B); [|exact E].
  exists r'. auto.
Qed.

(** ** A season that can be computed *)

Section SeasonReturns.
Variable prevseason : gmap string (RaceType -> Q).
Variable lszeroes : RaceType -> Q.
Variable racers : list Racer.
Variable rs : list Race.
Hypothesis Hfresh : forallb fresh rs = true.
Hypothesis Hwf : roster_wf (length rs) racers = true.
Hypothesis Hpos : all_positive racers = true.
Hypothesis Hnum : numeric_penalties rs = true.

Lemma best_avg_returns rc rt w :
  run_on prevseason lszeroes racers rs w -> In rc racers ->
  exists v w',
    best_avg prevseason lszeroes racers rc rt w = Ok (v, w') /\
    run_on prevseason lszeroes racers rs w'.
Proof.
  intros Hrun I.
  destruct (best_two_returns prevseason lszeroes racers rs Hwf Hpos Hnum
              rc rt w Hfresh Hrun I) as (l & w1 & E).
  pose proof (best_two_post _ _ _ _ _ _ _ _ E) as Em.
  destruct (best_two_memo_avg _ _ _ _ _ _ Em) as (t0 & t1 & -> & _).
  assert (Ec : category_average prevseason lszeroes racers rc rt w
               = Ok ((t0 + t1) / 2, w1)).
  { unfold category_average. rewrite (bind_Ok_intro _ _ _ _ _ E).
    reflexivity. }
  assert (Eb : best_avg prevseason lszeroes racers rc rt w
               = Ok ((t0 + t1) / 2
                     - zeroes (lower_zero rt ((t0 + t1) / 2) w1) rt,
                     lower_zero rt ((t0 + t1) / 2) w1)).
  { rewrite best_avg_unfold, (bind_Ok_intro _ _ _ _ _ Ec). reflexivity. }
  eexists. eexists. split; [exact Eb|].
  eapply rtc_r; [exact Hrun|]. eapply on_best_avg. exact Eb.
Qed.

Lemma season_avg_returns rc w :
  run_on prevseason lszeroes racers rs w -> In rc racers ->
  exists v w',
    season_avg prevseason lszeroes racers rc w = Ok (v, w') /\
    run_on prevseason lszeroes racers rs w'.
Proof.
  intros Hrun I.
  destruct (best_avg_returns rc GS w Hrun I) as (v1 & w1 & E1 & R1).
  destruct (best_avg_returns rc SC w1 R1 I) as (v2 & w2 & E2 & R2).
  destruct (best_avg_returns rc CL w2 R2 I) as (v3 & w3 & E3 & R3).
  exists (pysum [v1; v2; v3] / 3), w3. split; [|exact R3].
  unfold season_avg, all_RaceType. simpl.
  erewrite bind_Ok_intro; [reflexivity|].
  rewrite (bind_Ok_intro _ _ _ _ _ E1).
  erewrite bind_Ok_intro; [reflexivity|].
  rewrite (bind_Ok_intro _ _ _ _ _ E2).
  erewrite bind_Ok_intro; [reflexivity|].
  rewrite (bind_Ok_intro _ _ _ _ _ E3).
  reflexivity.
Qed.

Lemma warm_up_fold_returns l w :
  run_on prevseason lszeroes racers rs w ->
  (forall rc, In rc l -> In rc racers) ->
  exists w',
    foldM (fun _ rc =>
             let* _ := season_avg prevseason lszeroes racers rc in ret tt)
          tt l w = Ok (tt, w') /\
    run_on prevseason lszeroes racers rs w'.
Proof.
  revert w. induction l as [|rc l IH]; intros w Hrun Hl; simpl.
  - eexists. split; [reflexivity|exact Hrun].
  - destruct (season_avg_returns rc w Hrun (Hl rc (or_introl eq_refl)))
      as (v & w1 & E & R1).
    destruct (IH w1 R1 (fun x I => Hl x (or_intror I))) as (w' & E' & R').
    exists w'. split; [|exact R']. erewrite bind_Ok_intro; [exact E'|].
    rewrite (bind_Ok_intro _ _ _ _ _ E). reflexivity.
Qed.

Lemma warm_up_returns :
  exists w',
    warm_up prevseason lszeroes racers (init_world rs) = Ok (tt, w') /\
    run_on prevseason lszeroes racers rs w'.
Proof.
  apply (warm_up_fold_returns racers (init_world rs) (rtc_refl _ _)
           (fun rc I => I)).
Qed.

Lemma season_returns :
  exists obj w',
    season prevseason lszeroes racers (init_world rs) = Ok (obj, w').
Proof.
  destruct warm_up_returns as (w1 & Ew & _).
  pose proof (warm_up_post _ _ _ _ _ _ Ew) as (_ & S & _).
  destruct (sort_racers_settled prevseason lszeroes racers w1 S)
    as (sorted & Es & Hp).
  assert (S' : forall rc rt, In rc sorted ->
                 settled prevseason lszeroes w1 rc rt).
  { intros rc rt I. apply S. eapply Permutation_in; [|exact I].
    symmetry. exact Hp. }
  eexists. exists w1. unfold season.
  rewrite (bind_Ok_intro _ _ _ _ _ Ew), (bind_Ok_intro _ _ _ _ _ Es).
  unfold seasonobj.
  rewrite (bind_Ok_intro _ _ _ _ _
             (seasonobj_fold_settled prevseason lszeroes sorted sorted ∅ w1
                S')).
  rewrite (bind_Ok_intro _ _ _ _ _ (zeroes_entry_run w1)). reflexivity.
Qed.
End SeasonReturns.


(** ** What the archive object holds *)

Lemma RaceType_of_name_Some c :
  (exists rt, RaceType_of_name c = Some rt) <-> is_category_name c.
Proof.
  unfold RaceType_of_name, is_category_name.
  destruct (String.eqb_spec c "GS") as [->|N1]; [split; eauto|].
  destruct (String.eqb_spec c "SC") as [->|N2]; [split; eauto|].
  destruct (String.eqb_spec c "CL") as [->|N3]; [split; eauto|].
  split; [intros (rt & H); discriminate|]. intros [H|[H|H]]; congruence.
Qed.

Lemma category_map_lookup (f : RaceType -> Q) (c : string) :
  list_to_map (M := gmap string Q)
    (map (fun this => (RaceType_name this, f this)) all_RaceType) !! c
  = match RaceType_of_name c with
    | Some rt => Some (f rt)
    | None => None
    end.
Proof.
  unfold RaceType_of_name. simpl.
  destruct (String.eqb_spec c "GS") as [->|N1]; [reflexivity|].
  rewrite lookup_insert_ne by congruence.
  destruct (String.eqb_spec c "SC") as [->|N2]; [reflexivity|].
  rewrite lookup_insert_ne by congruence.
  destruct (String.eqb_spec c "CL") as [->|N3]; [reflexivity|].
  rewrite lookup_insert_ne by congruence. apply lookup_empty.
Qed.

(** X17.  The archive object of a season has a key for the name of every
    racer and the reserved key, and no other; every entry has a value for
    each of the three categories and for nothing else; and the scores of
    the racers are never negative. *)
Theorem archive_contents (prevseason : gmap string (RaceType -> Q))
    (lszeroes : RaceType -> Q) (racers : list Racer) (w0 : world)
    (obj : gmap string (gmap string Q)) (w' : world) :
  season prevseason lszeroes racers w0 = Ok (obj, w') ->
  (forall k, is_Some (obj !! k) <->
             k = data_zeroes \/ exists rc, In rc racers /\ name rc = k) /\
  (forall k e, obj !! k = Some e ->
     (forall c, is_Some (e !! c) <-> is_category_name c) /\
     (k <> data_zeroes -> forall c v, e !! c = Some v -> 0 <= v)).
Proof.
  intros H.
  destruct (season_stages _ _ _ _ _ _ H) as (sorted & Hw & Hp & ->).
  pose proof (warm_up_post _ _ _ _ _ _ Hw) as (_ & S & _).
  split.
  - intros k. destruct (decide (data_zeroes = k)) as [<-|Hk].
    + rewrite lookup_insert_eq. split; eauto.
    + rewrite lookup_insert_ne by exact Hk.
      destruct (fold_insert_lookup prevseason lszeroes w' sorted ∅ k)
        as [(rc & I & N & E)|[N E]]; rewrite E.
      * split; [|eauto]. intros _. right. exists rc. split; [|exact N].
        eapply Permutation_in; [symmetry; exact Hp|exact I].
      * rewrite lookup_empty. split; [intros [x Hx]; discriminate|].
        intros [Hd|(rc & I & Hn)]; [congruence|].
        exfalso. apply (N rc); [|exact Hn].
        eapply Permutation_in; [exact Hp|exact I].
  - intros k e E. destruct (decide (data_zeroes = k)) as [<-|Hk].
    + rewrite lookup_insert_eq in E. injection E as <-. split.
      * intros c. unfold zeroes_map. rewrite category_map_lookup.
        rewrite <- RaceType_of_name_Some.
        destruct (RaceType_of_name c) as [rt|]; split; eauto.
        -- intros [x Hx]. discriminate.
        -- intros (rt & Hrt). discriminate.
      * congruence.
    + rewrite lookup_insert_ne in E by exact Hk.
      destruct (fold_insert_lookup prevseason lszeroes w' sorted ∅ k)
        as [(rc & I & N & E')|[N E']]; rewrite E' in E.
      * injection E as <-.
        assert (Ir : In rc racers).
        { eapply Permutation_in; [symmetry; exact Hp|exact I]. }
        split.
        -- intros c. unfold entry_memo. rewrite category_map_lookup.
           rewrite <- RaceType_of_name_Some.
           destruct (RaceType_of_name c) as [rt|]; split; eauto.
           ++ intros [x Hx]. discriminate.
           ++ intros (rt & Hrt). discriminate.
        -- intros _ c v Hv. unfold entry_memo in Hv.
           rewrite category_map_lookup in Hv.
           destruct (RaceType_of_name c) as [rt|]; [|discriminate].
           injection Hv as <-.
           destruct (S rc rt Ir) as (avg & Ea & L).
           unfold best_avg_memo. rewrite Ea. lra.
      * rewrite lookup_empty in E. discriminate.
Qed.

(** ** A table without racers *)

(** X18.  For an empty table, and for a table that has only its header
    row, the archive object holds the reserved key and nothing else, with
    the scale factors for zero factors. *)
Theorem script_no_racers (Decimal : string -> option Q)
    (obj : gmap string (gmap string Q)) (header : list string) :
  is_Ok (load_prevseason obj) = true ->
  script Decimal (Some obj) [] = Ok (<[data_zeroes := initial_zeroes]> ∅) /\
  (is_Ok (header_row header 0) = true ->
   script Decimal (Some obj) [header]
   = Ok (<[data_zeroes := initial_zeroes]> ∅)).
Proof.
  intros Hl. unfold script.
  destruct (load_prevseason obj) as [[ps lz]|]; [|discriminate].
  split; [reflexivity|]. intros Hh. simpl.
  destruct (header_row header 0) as [rs|]; [|discriminate]. reflexivity.
Qed.

(** ** Reading last season's archive *)


(** X20.  The entry under the reserved key goes through the same loop as
    the entries of the racers: last season's zero factor of a category is
    the value in the archive clamped at the scale factor, the scale factor
    when the entry has no value for the category, so it is never above the
    scale factor; and a racer whose name is the reserved key carries the
    zero factors for scores. *)
Theorem last_zeroes_loaded (obj : gmap string (gmap string Q))
    (prevseason : gmap string (RaceType -> Q)) (lszeroes : RaceType -> Q) :
  load_prevseason obj = Ok (prevseason, lszeroes) ->
  exists z,
    obj !! data_zeroes = Some z /\
    (forall rt,
        lszeroes rt <= ffactor rt /\
        match z !! RaceType_name rt with
        | Some v => lszeroes rt == Qmin v (ffactor rt)
        | None => lszeroes rt = ffactor rt
        end) /\
    (forall (self : Racer) rt,
        name self = data_zeroes -> ls prevseason self rt = lszeroes rt).
Proof.
  intros H. pose proof H as H0. unfold load_prevseason in H.
  destruct (forallb (fun kv => valid_entry (snd kv)) (map_to_list obj));
    [|discriminate].
  rewrite lookup_fmap in H.
  destruct (obj !! data_zeroes) as [z|] eqn:Ez; [|discriminate].
  simpl in H. injection H as <- <-. exists z. split; [reflexivity|]. split.
  - intros rt. split; [apply clamp_entry_le|].
    destruct (z !! RaceType_name rt) as [v|] eqn:E.
    + apply clamp_entry_min, E.
    + apply clamp_entry_absent, E.
  - intros self rt Hn. unfold ls. rewrite Hn, lookup_fmap, Ez. reflexivity.
Qed.

(** ** What [timeeval] raises *)

Ltac te_split :=
  repeat match goal with
  | |- _ /\ _ => split
  | |- _ <-> _ => split
  | |- forall _, _ => intro
  end.

Ltac te_solve :=
  repeat match goal with
  | H : _ /\ _ |- _ => destruct H
  | H : _ \/ _ |- _ => destruct H
  | H : exists _, _ |- _ => destruct H
  end;
  subst;
  try congruence; try discriminate;
  try (left; congruence); try (right; congruence);
  try (repeat split; congruence).


(** ** The fields of a header *)

Lemma str_partition_none c s :
  str_contains c s = false -> str_partition c s = (s, EmptyString).
Proof.
  induction s as [|a s IH]; simpl; [reflexivity|].
  destruct (Ascii.eqb a c); [discriminate|]. intros H. rewrite (IH H).
  reflexivity.
Qed.

(** [s.split(c)] is the text before the first separator followed by the
    split of the text after it. *)
Lemma str_split_partition c s :
  str_split c s
  = if str_contains c s
    then fst (str_partition c s) :: str_split c (snd (str_partition c s))
    else [s].
Proof.
  induction s as [|a s IH]; simpl; [reflexivity|].
  destruct (Ascii.eqb a c); [reflexivity|]. rewrite IH.
  destruct (str_contains c s); reflexivity.
Qed.

Lemma str_split_head c s :
  str_split c s !! 0%nat = Some (fst (str_partition c s)).
Proof.
  rewrite str_split_partition. destruct (str_contains c s) eqn:E;
    [reflexivity|].
  rewrite (str_partition_none c s E). reflexivity.
Qed.

Lemma str_split_second c s :
  str_split c s !! 1%nat
  = if str_contains c s
    then Some (fst (str_partition c (snd (str_partition c s))))
    else None.
Proof.
  rewrite str_split_partition. destruct (str_contains c s);
    [|reflexivity].
  simpl. apply str_split_head.
Qed.

Lemma str_split_third c s :
  str_split c s !! 2%nat
  = if str_contains c s
    then str_split c (snd (str_partition c s)) !! 1%nat
    else None.
Proof.
  rewrite str_split_partition. destruct (str_contains c s); reflexivity.
Qed.

(** X22.  A header field is read as name, category and penalty separated
    by [#]: a field without a [#] raises [IndexError], one whose second part
    is not the name of a category raises [KeyError]; otherwise the race has
    the text before the first [#] for its name, and for its penalty the
    text between the second and the third [#], kept as a string, or none
    when there is no second [#]; what follows a third [#] is ignored. *)
Theorem header_item_fields (item : string) :
  let p1 := str_partition "#" item in
  let p2 := str_partition "#" (snd p1) in
  let p3 := str_partition "#" (snd p2) in
  header_item item
  = if str_contains "#" item
    then match RaceType_of_name (fst p2) with
         | Some rt =>
             Ok (mkRace rt (fst p1)
                   (if str_contains "#" (snd p1)
                    then Some (VStr (fst p3)) else None)
                   None None None)
         | None => Raise KeyError
         end
    else Raise IndexError.
Proof.
  intros p1 p2 p3. unfold header_item.
  rewrite str_split_second, str_split_head, str_split_third.
  fold p1. destruct (str_contains "#" item); [|reflexivity]. fold p2.
  destruct (RaceType_of_name (fst p2)) as [rt|]; [|reflexivity].
  rewrite str_split_second. fold p2. fold p3.
  destruct (str_contains "#" (snd p1)); reflexivity.
Qed.

(** ** The rows of the racers *)

Ltac conj_split := repeat match goal with |- _ /\ _ => split end.

Section Rows.
Variable Decimal : string -> option Q.

(** The loop over the items of a row from the third column on. *)
Lemma row_items_results st row k nm ij rr nm' ij' rr' :
  row_items Decimal st row (2 + k) nm ij rr = Ok (nm', ij', rr') ->
  length rr = k ->
  nm' = nm /\ ij' = ij /\
  exists new,
    rr' = rr ++ new /\ length new = length row /\
    (row <> [] -> (k + length row <= length (l_races st))%nat) /\
    forall j item, row !! j = Some item ->
      exists t, timeeval Decimal item = Ok t /\
                new !! j = Some (Result_init t (k + j)).
Proof.
  revert k rr. induction row as [|x row IH]; intros k rr H Hl.
  - simpl in H. injection H as <- <- <-. split; [reflexivity|].
    split; [reflexivity|]. exists []. rewrite app_nil_r.
    split; [reflexivity|]. split; [reflexivity|]. split; [congruence|].
    intros j item E. discriminate.
  - change (row_items Decimal st (x :: row) (2 + k) nm ij rr)
      with (res_bind (row_item Decimal st x (2 + k)) (fun r =>
              row_items Decimal st row (2 + S k) nm ij (rr ++ [r]))) in H.
    unfold row_item in H.
    destruct (timeeval Decimal x) as [t|] eqn:Et; [|discriminate].
    cbn [res_bind] in H. replace (2 + k - 2)%nat with k in H by lia.
    destruct (l_races st !! k) as [rc|] eqn:Ek; [|discriminate].
    cbn [res_bind] in H.
    apply IH in H as (-> & -> & new & -> & Hn & Hb & Hj);
      [|rewrite length_app; simpl; lia].
    split; [reflexivity|]. split; [reflexivity|].
    exists (Result_init t k :: new). rewrite <- app_assoc.
    split; [reflexivity|]. split; [simpl; lia|]. split.
    + intros _. apply lookup_lt_Some in Ek. destruct row as [|y row].
      * simpl. lia.
      * assert (Hne : y :: row <> []) by discriminate.
        specialize (Hb Hne). simpl in *. lia.
    + intros [|j] item E; simpl in E.
      * injection E as <-. exists t. split; [exact Et|].
        replace (k + 0)%nat with k by lia. reflexivity.
      * destruct (Hj j item E) as (t' & Et' & En). exists t'.
        split; [exact Et'|]. simpl.
        replace (k + S j)%nat with (S k + j)%nat by lia. exact En.
Qed.

(** What one row adds to the roster. *)
Lemma racer_row_racer st row st' :
  racer_row Decimal st row = Ok st' ->
  l_races st' = l_races st /\
  exists rc,
    l_racers st' = l_racers st ++ [rc] /\
    thisname st' = Some (name rc) /\ l_inj st' = Some (inj rc) /\
    length (results rc) = (length row - 2)%nat /\
    (length row - 2 <= length (l_races st))%nat /\
    (forall j item, row !! (2 + j)%nat = Some item ->
       exists t, timeeval Decimal item = Ok t /\
                 results rc !! j = Some (Result_init t j)) /\
    (forall item, row !! 0%nat = Some item ->
       name rc = fst (str_partition "#" item) /\
       gender rc = if String.eqb (snd (str_partition "#" item)) "M"
                   then M else F) /\
    (forall item, row !! 1%nat = Some item ->
       inj rc = String.eqb item "inj") /\
    (row = [] -> exists nm,
       thisname st = Some nm /\
       name rc = fst (str_partition "#" nm) /\
       gender rc = if String.eqb (snd (str_partition "#" nm)) "M"
                   then M else F) /\
    ((length row <= 1)%nat -> l_inj st = Some (inj rc)).
Proof.
  unfold racer_row. intros H.
  destruct (row_items Decimal st row 0 (thisname st) (l_inj st) [])
    as [[[nm ij] rr]|] eqn:Er; [|discriminate].
  cbn [res_bind] in H. destruct nm as [nm|]; [|discriminate].
  destruct ij as [b|]; [|discriminate]. injection H as <-.
  split; [reflexivity|]. eexists. split; [reflexivity|]. cbn.
  split; [reflexivity|]. split; [reflexivity|].
  destruct row as [|x0 [|x1 row]].
  - simpl in Er. injection Er as E1 E2 <-.
    conj_split; try (intros; discriminate); try (simpl; lia).
    + intros _. exists nm. auto.
    + intros _. exact E2.
  - simpl in Er. injection Er as E1 E2 <-.
    conj_split; try (intros; discriminate); try (simpl; lia).
    + intros item [= <-]. subst nm. split; reflexivity.
    + intros _. exact E2.
  - change (row_items Decimal st (x0 :: x1 :: row) 0 (thisname st)
              (l_inj st) [])
      with (row_items Decimal st row (2 + 0) (Some x0)
              (Some (String.eqb x1 "inj")) []) in Er.
    apply row_items_results in Er
      as (E1 & E2 & new & -> & Hn & Hb & Hj); [|reflexivity].
    injection E1 as ->. injection E2 as ->. simpl app.
    conj_split; try (intros; discriminate).
    + simpl. lia.
    + simpl. destruct row as [|y row]; [simpl; lia|].
      assert (Hne : y :: row <> []) by discriminate.
      specialize (Hb Hne). simpl in *. lia.
    + intros j item E. simpl in E. apply Hj, E.
    + intros item [= <-]. split; reflexivity.
    + intros item [= <-]. reflexivity.
    + simpl. lia.
Qed.

Lemma racer_rows_racers st rows st' :
  racer_rows Decimal st rows = Ok st' ->
  l_races st' = l_races st /\
  exists new,
    l_racers st' = l_racers st ++ new /\
    Forall2 (fun row rc =>
               length (results rc) = (length row - 2)%nat /\
               (length row - 2 <= length (l_races st))%nat /\
               (forall j item, row !! (2 + j)%nat = Some item ->
                  exists t, timeeval Decimal item = Ok t /\
                            results rc !! j = Some (Result_init t j)) /\
               (forall item, row !! 0%nat = Some item ->
                  name rc = fst (str_partition "#" item) /\
                  gender rc
                  = if String.eqb (snd (str_partition "#" item)) "M"
                    then M else F) /\
               (forall item, row !! 1%nat = Some item ->
                  inj rc = String.eqb item "inj"))
            rows new.
Proof.
  revert st. induction rows as [|row rows IH]; intros st H; simpl in H.
  - injection H as <-. split; [reflexivity|]. exists [].
    rewrite app_nil_r. split; [reflexivity|constructor].
  - destruct (racer_row Decimal st row) as [st1|] eqn:E1; [|discriminate].
    cbn [res_bind] in H.
    apply racer_row_racer in E1
      as (Er & rc & Ea & _ & _ & Hlen & Hle & Hj & H0 & H1 & _).
    apply IH in H as (Er' & new & Ea' & HF).
    split; [congruence|]. exists (rc :: new). split.
    + rewrite Ea', Ea, <- app_assoc. reflexivity.
    + constructor; [auto|]. rewrite Er in HF. exact HF.
Qed.
End Rows.

(** X23.  When the table loads, there is one race for every column of the
    header past the second and one racer for every later row, in order; a
    racer has one result for every field of the row past the second, never
    more than there are races, and the result at position [j] is that of
    the field at column [j + 2], for race [j]; the name is the text of the
    first field before the first [#], the gender is [M] exactly when the
    text after it is [M], and the racer is injured exactly when the second
    field is [inj]. *)
Theorem load_results_rows (Decimal : string -> option Q)
    (header : list string) (rows : list (list string)) (st : loader) :
  load_results Decimal (header :: rows) = Ok st ->
  header_row header 0 = Ok (l_races st) /\
  length (l_races st) = (length header - 2)%nat /\
  Forall2 (fun row rc =>
             length (results rc) = (length row - 2)%nat /\
             (length row - 2 <= length (l_races st))%nat /\
             (forall j item, row !! (2 + j)%nat = Some item ->
                exists t, timeeval Decimal item = Ok t /\
                          results rc !! j = Some (Result_init t j)) /\
             (forall item, row !! 0%nat = Some item ->
                name rc = fst (str_partition "#" item) /\
                gender rc
                = if String.eqb (snd (str_partition "#" item)) "M"
                  then M else F) /\
             (forall item, row !! 1%nat = Some item ->
                inj rc = String.eqb item "inj"))
          rows (l_racers st).
Proof.
  unfold load_results. intros H.
  destruct (header_row header 0) as [rs|] eqn:Eh; [|discriminate].
  cbn [res_bind] in H.
  apply racer_rows_racers in H as (Er & new & Ea & HF). simpl in Er, Ea.
  rewrite Er in *. rewrite Ea. split; [reflexivity|]. split; [|exact HF].
  clear HF Ea Er.
  assert (G : forall row i rs0, header_row row i = Ok rs0 ->
            length rs0 = (length row - (2 - i))%nat).
  { induction row as [|x row IH]; intros i rs0 H; simpl in H.
    - injection H as <-. reflexivity.
    - destruct (Nat.ltb_spec 1 i) as [Hi|Hi].
      + destruct (header_item x) as [r|]; [|discriminate].
        cbn [res_bind] in H.
        destruct (header_row row (S i)) as [rs1|] eqn:E1; [|discriminate].
        injection H as <-. simpl. rewrite (IH _ _ E1). lia.
      + rewrite (IH _ _ H). simpl. lia. }
  rewrite (G _ _ _ Eh). lia.
Qed.

(** ** A row without fields *)

Lemma str_partition_fst_none c s :
  str_contains c (fst (str_partition c s)) = false.
Proof.
  induction s as [|a s IH]; simpl; [reflexivity|].
  destruct (Ascii.eqb a c) eqn:E; [reflexivity|]. simpl. rewrite E.
  exact IH.
Qed.

(** X24.  An empty row, what the reader yields for a blank line, raises
    [NameError] when it is the first row after the header; after the row of
    a racer it adds a racer without results who has the name and the
    injury mark of the racer before and the gender [F]. *)
Theorem blank_row (Decimal : string -> option Q) :
  (forall rs, racer_row Decimal (mkLoader rs [] None None) []
              = Raise NameError) /\
  (forall st row st1,
      racer_row Decimal st row = Ok st1 ->
      exists prev,
        last (l_racers st1) = Some prev /\
        racer_row Decimal st1 []
        = Ok (mkLoader (l_races st1)
                (l_racers st1 ++ [mkRacer (name prev) [] F (inj prev)])
                (Some (name prev)) (Some (inj prev)))).
Proof.
  split; [reflexivity|]. intros st row st1 H.
  apply racer_row_racer in H
    as (_ & prev & Ea & En & Ei & _ & _ & _ & H0 & _ & Hb & _).
  exists prev. split; [rewrite Ea; apply last_snoc|].
  unfold racer_row. simpl. rewrite En, Ei. cbn [res_bind].
  assert (Hp : str_partition "#" (name prev) = (name prev, EmptyString)).
  { apply str_partition_none.
    destruct row as [|x row].
    - destruct (Hb eq_refl) as (nm & _ & -> & _).
      apply str_partition_fst_none.
    - destruct (H0 x eq_refl) as [-> _]. apply str_partition_fst_none. }
  rewrite Hp. reflexivity.
Qed.

(** ** More theorems on the small season *)

Lemma ex_timed_run :
  best_time ex_racers 0 (init_world ex_rs) = Ok (Fin 60, ex_timed).
Proof. vm_compute. reflexivity. Defined.

Lemma ex_scored_run :
  penalty ex_prevseason ex_racers 0 ex_timed = Ok (ex_pen, ex_scored).
Proof. vm_compute. reflexivity. Defined.

Lemma ex_archive_loads :
  load_prevseason ex_archive = Ok (ex_prevseason, ex_lszeroes).
Proof. vm_compute. reflexivity. Defined.

Lemma good_rows_load :
  load_results ex_Decimal (good_header :: good_rows) = Ok good_loaded.
Proof. vm_compute. reflexivity. Defined.

(** The field [1:03] in the column of the first race. *)
Lemma field_status_witness :
  race (Result_init (TDec 63) 0) = 0%nat /\
  (finished (Result_init (TDec 63) 0) = true <->
   "1:03"%string <> ""%string /\
   (is_decimal ex_Decimal "1:03" = true \/
    is_minutes_seconds ex_Decimal "1:03" = true)) /\
  (started (Result_init (TDec 63) 0) = false <->
   "1:03"%string = ""%string \/
   ("1:03"%string = "DNS"%string /\ is_decimal ex_Decimal "1:03" = false)) /\
  (forall d, time (Result_init (TDec 63) 0) = Some d <-> TDec 63 = TDec d) /\
  (forall r : Result, finished r = true -> started r = true).
Proof.
  apply (field_status ex_Decimal "1:03" (TDec 63) 0). reflexivity.
Defined.



(** The best two of B in the giant slalom. *)
Lemma best_two_bounds_witness :
  exists t0 t1,
    ex_two = [t0; t1] /\ t0 <= t1 /\
    t1 <= last_penalized ex_prevseason ex_lszeroes ex_B GS /\
    last_penalized ex_prevseason ex_lszeroes ex_B GS <= ffactor GS.
Proof.
  apply (best_two_bounds ex_prevseason ex_lszeroes ex_racers ex_B GS ex_warm
           ex_two ex_warm).
  vm_compute. reflexivity.
Defined.

(** The zero-adjusted average of B in the giant slalom. *)
Lemma best_avg_range_witness :
  0 <= ex_avg /\ ex_avg <= ffactor GS - zeroes ex_warm GS /\
  exists avg w1,
    category_average ex_prevseason ex_lszeroes ex_racers ex_B GS ex_warm
    = Ok (avg, w1) /\
    (ex_avg == 0 <-> avg <= zeroes ex_warm GS).
Proof.
  apply (proj1 (best_avg_range ex_prevseason ex_lszeroes)
           ex_racers ex_B GS ex_warm ex_avg ex_warm).
  vm_compute. reflexivity.
Defined.

(** The leader of the giant slalom of the small season. *)
Lemma leader_has_zero_witness :
  exists rc avg,
    In rc ex_racers /\
    category_average ex_prevseason ex_lszeroes ex_racers rc GS ex_warm
    = Ok (avg, ex_warm) /\
    zeroes ex_warm GS == avg /\
    forall R, exists v,
      best_avg ex_prevseason ex_lszeroes R rc GS ex_warm = Ok (v, ex_warm) /\
      v == 0.
Proof.
  apply (leader_has_zero ex_prevseason ex_lszeroes ex_rs ex_racers ex_warm
           ex_warm_up_run).
  discriminate.
Defined.

(** The ranking of the small season. *)
Lemma ranking_order_witness :
  ex_warm = ex_warm /\ Permutation ex_racers ex_sorted /\
  exists savg : Racer -> Q,
    (forall R rc, In rc ex_racers ->
       season_avg ex_prevseason ex_lszeroes R rc ex_warm
       = Ok (savg rc, ex_warm)) /\
    StronglySorted (fun a b => savg a <= savg b) ex_sorted /\
    (forall k, tied_at savg k ex_sorted = tied_at savg k ex_racers).
Proof.
  apply (ranking_order ex_prevseason ex_lszeroes ex_racers (init_world ex_rs)
           ex_warm ex_sorted ex_warm ex_warm_up_run).
  vm_compute. reflexivity.
Defined.

(** The giant slalom when A has no time and B did not start. *)
Lemma penalty_no_starters_witness :
  A ex_prevseason idle_racers 0 (init_world ex_rs)
  = Ok (0, init_world ex_rs) /\
  BC ex_prevseason idle_racers 0 (init_world ex_rs)
  = Ok ((0, 0), init_world ex_rs) /\
  exists p w',
    penalty ex_prevseason idle_racers 0 (init_world ex_rs)
    = Ok (VDec p, w') /\ p == 0.
Proof.
  apply (penalty_no_starters ex_prevseason idle_racers 0 (init_world ex_rs)
           (Race_init GS "H1" None)); try reflexivity.
  simpl. intros r [<-|[<-|[]]] _; reflexivity.
Defined.


(** The penalty of the giant slalom of the small season. *)
Lemma penalty_at_most_scale_witness :
  exists p, ex_pen = VDec p /\ p <= ffactor GS.
Proof.
  apply (penalty_at_most_scale ex_archive ex_prevseason ex_lszeroes ex_racers
           ex_rs ex_timed 0 (Race_init GS "H1" None) ex_pen ex_scored).
  - exact ex_archive_loads.
  - reflexivity.
  - apply rtc_once. eapply on_best_time. exact ex_timed_run.
  - reflexivity.
  - reflexivity.
  - reflexivity.
  - exact ex_scored_run.
Defined.

(** Before and after the best time of the giant slalom is stored. *)
Lemma engine_history_independent_witness :
  (forall i, eval (best_time ex_racers i) (init_world ex_rs)
             = eval (best_time ex_racers i) ex_timed) /\
  (forall r, eval (raw_points ex_racers r) (init_world ex_rs)
             = eval (raw_points ex_racers r) ex_timed) /\
  (forall i, eval (A ex_prevseason ex_racers i) (init_world ex_rs)
             = eval (A ex_prevseason ex_racers i) ex_timed) /\
  (forall i, eval (BC ex_prevseason ex_racers i) (init_world ex_rs)
             = eval (BC ex_prevseason ex_racers i) ex_timed) /\
  (forall i, eval (penalty ex_prevseason ex_racers i) (init_world ex_rs)
             = eval (penalty ex_prevseason ex_racers i) ex_timed) /\
  (forall r, eval (points ex_prevseason ex_racers r) (init_world ex_rs)
             = eval (points ex_prevseason ex_racers r) ex_timed) /\
  (forall rc rt,
      eval (best_two ex_prevseason ex_lszeroes ex_racers rc rt)
           (init_world ex_rs)
      = eval (best_two ex_prevseason ex_lszeroes ex_racers rc rt) ex_timed).
Proof.
  apply (engine_history_independent ex_prevseason ex_lszeroes ex_racers ex_rs
           (init_world ex_rs) ex_timed).
  - reflexivity.
  - apply rtc_refl.
  - apply rtc_once. eapply on_best_time. exact ex_timed_run.
Defined.

(** The sums of the giant slalom of the small season. *)
Lemma B_C_components_witness :
  eval (B ex_prevseason ex_racers 0) (init_world ex_rs)
  = res_bind (eval (BC ex_prevseason ex_racers 0) (init_world ex_rs))
             (fun bc => Ok (fst bc)) /\
  eval (C ex_prevseason ex_racers 0) (init_world ex_rs)
  = res_bind (eval (BC ex_prevseason ex_racers 0) (init_world ex_rs))
             (fun bc => Ok (snd bc)) /\
  (forall b w', B ex_prevseason ex_racers 0 (init_world ex_rs) = Ok (b, w') ->
     exists c, C ex_prevseason ex_racers 0 w' = Ok (c, w') /\
               eval (BC ex_prevseason ex_racers 0) (init_world ex_rs)
               = Ok (b, c)).
Proof.
  apply (B_C_components ex_prevseason ex_lszeroes ex_racers ex_rs
           (init_world ex_rs) 0).
  - reflexivity.
  - apply rtc_refl.
Defined.

(** The place of A, the winner of the giant slalom. *)
Lemma first_place_witness :
  (exists p, place ex_racers ex_rA = Some p /\ (1 <= p)%nat /\
     (p <= length (List.filter (finisher_of (race ex_rA))
                               (all_results ex_racers)))%nat) /\
  (place ex_racers ex_rA = Some 1%nat <->
   exists b, best_scan ex_racers (race ex_rA) = Fin b /\ 60 == b).
Proof.
  apply (first_place ex_racers ex_rA 60).
  - simpl. auto.
  - reflexivity.
Defined.

(** The points of A, the winner of the giant slalom. *)
Lemma winner_points_witness :
  exists x p,
    ex_pts = Some x /\
    penalty ex_prevseason ex_racers (race ex_rA) ex_pointed
    = Ok (VDec p, ex_pointed) /\
    x == p.
Proof.
  apply (winner_points ex_prevseason ex_lszeroes ex_racers ex_rs
           (init_world ex_rs) ex_rA 60 ex_pts ex_pointed).
  - reflexivity.
  - apply rtc_refl.
  - simpl. auto.
  - reflexivity.
  - reflexivity.
  - simpl. intros r t' [<-|[<-|[<-|[]]]] _ [= <-]; discriminate.
  - vm_compute. reflexivity.
Defined.

(** The giant slalom after its best time and its penalty are stored. *)
Lemma memo_write_once_witness :
  length (races ex_scored) = length (races ex_timed) /\
  exists r',
    races ex_scored !! 0%nat = Some r' /\
    rtype r' = rtype (set_stored_best (Fin 60) (Race_init GS "H1" None)) /\
    (forall v,
        _sto_penalty (set_stored_best (Fin 60) (Race_init GS "H1" None))
        = Some v -> _sto_penalty r' = Some v) /\
    (forall b,
        stored_best (set_stored_best (Fin 60) (Race_init GS "H1" None))
        = Some b -> stored_best r' = Some b).
Proof.
  apply (memo_write_once ex_prevseason ex_lszeroes ex_timed ex_scored 0
           (set_stored_best (Fin 60) (Race_init GS "H1" None))).
  - apply rtc_once. eapply eval_penalty. exact ex_scored_run.
  - reflexivity.
Defined.


(** The archive object of the small season. *)
Lemma archive_contents_witness :
  (forall k, is_Some (ex_obj !! k) <->
             k = data_zeroes \/ exists rc, In rc ex_racers /\ name rc = k) /\
  (forall k e, ex_obj !! k = Some e ->
     (forall c, is_Some (e !! c) <-> is_category_name c) /\
     (k <> data_zeroes -> forall c v, e !! c = Some v -> 0 <= v)).
Proof.
  apply (archive_contents ex_prevseason ex_lszeroes ex_racers
           (init_world ex_rs) ex_obj ex_warm ex_season_run).
Defined.

(** The table that has only the header of the small season. *)
Lemma script_no_racers_witness :
  script ex_Decimal (Some ex_archive) []
  = Ok (<[data_zeroes := initial_zeroes]> ∅) /\
  (is_Ok (header_row good_header 0) = true ->
   script ex_Decimal (Some ex_archive) [good_header]
   = Ok (<[data_zeroes := initial_zeroes]> ∅)).
Proof.
  apply (script_no_racers ex_Decimal ex_archive good_header).
  vm_compute. reflexivity.
Defined.


(** Last season's zero factors of the small season. *)
Lemma last_zeroes_loaded_witness :
  exists z,
    ex_archive !! data_zeroes = Some z /\
    (forall rt,
        ex_lszeroes rt <= ffactor rt /\
        match z !! RaceType_name rt with
        | Some v => ex_lszeroes rt == Qmin v (ffactor rt)
        | None => ex_lszeroes rt = ffactor rt
        end) /\
    (forall (self : Racer) rt,
        name self = data_zeroes ->
        ls ex_prevseason self rt = ex_lszeroes rt).
Proof.
  apply (last_zeroes_loaded ex_archive ex_prevseason ex_lszeroes
           ex_archive_loads).
Defined.


(** The table of the small season, loaded. *)
Lemma load_results_rows_witness :
  header_row good_header 0 = Ok (l_races good_loaded) /\
  length (l_races good_loaded) = (length good_header - 2)%nat /\
  Forall2 (fun row rc =>
             length (results rc) = (length row - 2)%nat /\
             (length row - 2 <= length (l_races good_loaded))%nat /\
             (forall j item, row !! (2 + j)%nat = Some item ->
                exists t, timeeval ex_Decimal item = Ok t /\
                          results rc !! j = Some (Result_init t j)) /\
             (forall item, row !! 0%nat = Some item ->
                name rc = fst (str_partition "#" item) /\
                gender rc
                = if String.eqb (snd (str_partition "#" item)) "M"
                  then M else F) /\
             (forall item, row !! 1%nat = Some item ->
                inj rc = String.eqb item "inj"))
          good_rows (l_racers good_loaded).
Proof.
  apply (load_results_rows ex_Decimal good_header good_rows good_loaded
           good_rows_load).
Defined.

(** A blank line after the row of A. *)
Lemma blank_row_witness :
  exists prev,
    last (l_racers after_A) = Some prev /\
    racer_row ex_Decimal after_A []
    = Ok (mkLoader (l_races after_A)
            (l_racers after_A ++ [mkRacer (name prev) [] F (inj prev)])
            (Some (name prev)) (Some (inj prev))).
Proof.
  apply (proj2 (blank_row ex_Decimal) (mkLoader ex_rs [] None None)
           ["A#M"; ""; "60"] after_A).
  vm_compute. reflexivity.
Defined.

(** ** The output only evaluates the engine *)

Lemma frames_nraces (R : world -> world -> Prop) `{!PreOrder R} :
  frames R nraces.
Proof. intros w v w' [= <- <-]. reflexivity. Qed.

Lemma keeps_descends w w' : keeps w w' -> descends w w'.
Proof. intros H. apply grows_descends, keeps_grows, H. Qed.

Section OutputFrames.
Variable prevseason : gmap string (RaceType -> Q).
Variable lszeroes : RaceType -> Q.
Variable fmt2 : Q -> string.
Variable fmtd : Z -> string.

Lemma penalty_descends R k : frames descends (penalty prevseason R k).
Proof.
  eapply frames_weaken; [apply grows_descends|apply penalty_grows].
Qed.

Lemma points_descends R r : frames descends (points prevseason R r).
Proof.
  eapply frames_weaken; [apply grows_descends|apply points_grows].
Qed.

Lemma best_two_descends R rc rt :
  frames descends (best_two prevseason lszeroes R rc rt).
Proof.
  eapply frames_weaken; [apply grows_descends|apply best_two_grows].
Qed.

Lemma fmt2_penalty_frames v : frames descends (fmt2_penalty fmt2 v).
Proof. destruct v; [apply frames_ret, _|apply frames_raise]. Qed.

Lemma fmt2_points_frames v : frames descends (fmt2_points fmt2 v).
Proof. destruct v; [apply frames_ret, _|apply frames_raise]. Qed.

Lemma seasontable_row_frames R rc :
  frames descends (seasontable_row prevseason lszeroes fmt2 R rc).
Proof.
  unfold seasontable_row.
  apply frames_bind; [apply _| |].
  - apply frames_mapM; [apply _|]. intros rt.
    apply frames_bind; [apply _|apply best_avg_descends|].
    intros v. apply frames_ret, _.
  - intros cells.
    apply frames_bind; [apply _|apply season_avg_descends|].
    intros s. apply frames_ret, _.
Qed.

Lemma seasontable_frames R g :
  frames descends (seasontable prevseason lszeroes fmt2 R g).
Proof.
  unfold seasontable.
  apply frames_bind; [apply _| |intros; apply frames_ret, _].
  apply frames_foldM; [apply _|]. intros out rc.
  destruct (Gender_eqb (gender rc) g); [|apply frames_ret, _].
  apply frames_bind; [apply _|apply seasontable_row_frames|].
  intros row. apply frames_ret, _.
Qed.

Lemma zero_lines_frames : frames descends (zero_lines fmt2).
Proof.
  unfold zero_lines.
  apply frames_bind; [apply _| |intros; apply frames_ret, _].
  apply frames_mapM; [apply _|]. intros rt.
  apply frames_bind; [apply _|apply frames_get_zero, _|].
  intros z. apply frames_ret, _.
Qed.

Lemma race_cells_frames f rt :
  (forall k rc, frames descends (f k rc)) ->
  frames descends (race_cells f rt).
Proof.
  intros Hf. unfold race_cells.
  apply frames_bind; [apply _|apply frames_nraces, _|]. intros n.
  apply frames_bind; [apply _| |intros; apply frames_ret, _].
  apply frames_mapM; [apply _|]. intros k.
  apply frames_bind; [apply _|apply frames_get_race, _|]. intros rc.
  destruct (RaceType_eqb (rtype rc) rt); [apply Hf|apply frames_ret, _].
Qed.

Lemma column_count_frames rt : frames descends (column_count rt).
Proof.
  unfold column_count.
  apply frames_bind; [apply _|apply frames_nraces, _|]. intros n.
  apply frames_foldM; [apply _|]. intros i k.
  apply frames_bind; [apply _|apply frames_get_race, _|]. intros rc.
  apply frames_ret, _.
Qed.

Lemma table_head_frames rt : frames descends (table_head rt).
Proof.
  unfold table_head.
  apply frames_bind; [apply _| |intros; apply frames_ret, _].
  apply race_cells_frames. intros k rc. apply frames_ret, _.
Qed.

Lemma penalties_line_frames R rt :
  frames descends (penalties_line prevseason fmt2 R rt).
Proof.
  unfold penalties_line.
  apply frames_bind; [apply _| |intros; apply frames_ret, _].
  apply race_cells_frames. intros k rc.
  apply frames_bind; [apply _|apply penalty_descends|]. intros p.
  apply frames_bind; [apply _|apply fmt2_penalty_frames|]. intros s.
  apply frames_ret, _.
Qed.

Lemma detail_cell_frames R rt rc j :
  frames descends (detail_cell prevseason lszeroes fmt2 R rt rc j).
Proof.
  unfold detail_cell.
  apply frames_bind; [apply _|apply frames_get_race, _|]. intros rcj.
  destruct (RaceType_eqb (rtype rcj) rt); [|apply frames_ret, _].
  destruct (results rc !! j) as [r|]; [|apply frames_raise].
  apply frames_bind; [apply _|apply points_descends|]. intros [v|];
    [|apply frames_ret, _].
  apply frames_bind; [apply _|apply points_descends|]. intros p1.
  apply frames_bind; [apply _|apply best_two_descends|]. intros two.
  apply frames_bind; [apply _|apply points_descends|]. intros p2.
  apply frames_bind; [apply _|apply fmt2_points_frames|]. intros s.
  apply frames_ret, _.
Qed.

Lemma detail_row_frames R rt rc :
  frames descends (detail_row prevseason lszeroes fmt2 R rt rc).
Proof.
  unfold detail_row.
  apply frames_bind; [apply _|apply best_two_descends|]. intros two.
  apply frames_bind; [apply _|apply frames_nraces, _|]. intros n.
  apply frames_bind; [apply _| |intros; apply frames_ret, _].
  apply frames_mapM; [apply _|]. intros j. apply detail_cell_frames.
Qed.

Lemma category_table_frames R rt :
  frames descends (category_table prevseason lszeroes fmt2 fmtd R rt).
Proof.
  unfold category_table.
  apply frames_bind; [apply _| |].
  { apply frames_mapM; [apply _|]. intros rc. apply best_avg_descends. }
  intros keys.
  apply frames_bind; [apply _| |].
  { apply race_cells_frames. intros k rc. apply frames_ret, _. }
  intros cols.
  apply frames_bind; [apply _|apply table_head_frames|]. intros head1.
  apply frames_bind; [apply _|apply column_count_frames|]. intros i.
  apply frames_bind; [apply _|apply table_head_frames|]. intros head2.
  apply frames_bind; [apply _|apply penalties_line_frames|]. intros pens.
  apply frames_bind; [apply _| |intros; apply frames_ret, _].
  apply frames_mapM; [apply _|]. intros rc. apply detail_row_frames.
Qed.

Lemma warm_up_descends R : frames descends (warm_up prevseason lszeroes R).
Proof.
  unfold warm_up. apply frames_foldM; [apply _|]. intros [] rc.
  apply frames_bind; [apply _|apply season_avg_descends|].
  intros v. apply frames_ret, _.
Qed.

Lemma sort_racers_descends R :
  frames descends (sort_racers prevseason lszeroes R).
Proof.
  unfold sort_racers.
  apply frames_bind; [apply _| |intros; apply frames_ret, _].
  apply frames_mapM; [apply _|]. intros rc. apply season_avg_descends.
Qed.

Lemma seasonobj_descends R : frames descends (seasonobj prevseason lszeroes R).
Proof.
  unfold seasonobj.
  apply frames_bind; [apply _| |].
  - apply frames_foldM; [apply _|]. intros obj rc.
    apply frames_bind; [apply _| |intros; apply frames_ret, _].
    unfold racer_entry.
    apply frames_bind; [apply _| |intros; apply frames_ret, _].
    apply frames_mapM; [apply _|]. intros rt.
    apply frames_bind; [apply _|apply best_avg_descends|].
    intros v. apply frames_ret, _.
  - intros obj.
    apply frames_bind; [apply _| |intros; apply frames_ret, _].
    unfold zeroes_entry.
    apply frames_bind; [apply _| |intros; apply frames_ret, _].
    apply frames_mapM; [apply _|]. intros rt.
    apply frames_bind; [apply _|apply frames_get_zero, _|].
    intros z. apply frames_ret, _.
Qed.
End OutputFrames.

(** ** Raising for certain *)

Section Fails.
Variable P : world -> Prop.
Hypothesis HP : stable P.

Lemma fails_bind_now {A B : Type} (m : Comp A) (k : A -> Comp B) :
  fails P m -> fails P (bind m k).
Proof.
  intros Hm w Hw. destruct (Hm w Hw) as (e & E). exists e.
  apply bind_Raise_intro, E.
Qed.

Lemma fails_bind_later {A B : Type} (m : Comp A) (k : A -> Comp B) :
  frames descends m -> (forall a, fails P (k a)) -> fails P (bind m k).
Proof.
  intros Hm Hk w Hw. unfold bind.
  destruct (m w) as [[a w1]|e] eqn:E; [|eauto].
  apply (Hk a w1). eapply HP; [eapply Hm, E|exact Hw].
Qed.

Lemma fails_mapM {A B : Type} (f : A -> Comp B) (l : list A) (x : A) :
  (forall a, frames descends (f a)) -> In x l -> fails P (f x) ->
  fails P (mapM f l).
Proof.
  intros Hf I Hx. induction l as [|a l IH]; [destruct I|]. simpl.
  destruct I as [->|I].
  - apply fails_bind_now, Hx.
  - apply fails_bind_later; [apply Hf|]. intros b.
    apply fails_bind_now, IH, I.
Qed.

Lemma fails_foldM {A B : Type} (f : B -> A -> Comp B) (l : list A) (x : A) :
  (forall acc a, frames descends (f acc a)) -> In x l ->
  (forall acc, fails P (f acc x)) ->
  forall acc, fails P (foldM f acc l).
Proof.
  intros Hf I Hx. induction l as [|a l IH]; intros acc; [destruct I|]. simpl.
  destruct I as [->|I].
  - apply fails_bind_now, Hx.
  - apply fails_bind_later; [apply Hf|]. intros acc'. apply IH, I.
Qed.
End Fails.

Lemma category_race_stable k rt : stable (category_race k rt).
Proof.
  intros w w' [G _] (r & E & T). unfold races_grow in G.
  eapply Forall2_lookup_l in G as (r' & E' & T' & _); [|exact E].
  exists r'. split; [exact E'|congruence].
Qed.

Lemma string_race_stable k rt s : stable (string_race k rt s).
Proof.
  intros w w' [G _] (r & E & T & Hp). unfold races_grow in G.
  eapply Forall2_lookup_l in G as (r' & E' & T' & Hp' & _); [|exact E].
  exists r'. split; [exact E'|]. split; [congruence|]. apply Hp', Hp.
Qed.

Lemma bind_nraces {A : Type} (k : nat -> Comp A) w :
  bind nraces k w = k (length (races w)) w.
Proof. reflexivity. Qed.

Lemma In_seq_lookup {X : Type} (l : list X) (k : nat) (x : X) :
  l !! k = Some x -> In k (seq 0 (length l)).
Proof. intros E. apply lookup_lt_Some in E. apply in_seq. lia. Qed.

Section OutputFails.
Variable prevseason : gmap string (RaceType -> Q).
Variable lszeroes : RaceType -> Q.
Variable fmt2 : Q -> string.
Variable fmtd : Z -> string.

(** Line 380 cannot format a string. *)
Lemma penalties_line_fails R k rt s :
  fails (string_race k rt s) (penalties_line prevseason fmt2 R rt).
Proof.
  unfold penalties_line. apply fails_bind_now. unfold race_cells.
  intros w Hw. rewrite bind_nraces. pose proof Hw as (r & E & T & Hp).
  refine (fails_bind_now _ _ _ _ w Hw).
  apply (fails_mapM _ (string_race_stable k rt s)) with (x := k).
  - intros j.
    apply frames_bind; [apply _|apply frames_get_race, _|]. intros rc.
    destruct (RaceType_eqb (rtype rc) rt); [|apply frames_ret, _].
    apply frames_bind; [apply _|apply penalty_descends|]. intros p.
    apply frames_bind; [apply _|apply fmt2_penalty_frames|]. intros x.
    apply frames_ret, _.
  - eapply In_seq_lookup, E.
  - intros w1 (r1 & E1 & T1 & Hp1). exists TypeError.
    unfold bind, get_race. rewrite E1, T1, RaceType_eqb_refl.
    unfold penalty, bind, get_race. rewrite E1, Hp1. reflexivity.
Qed.
End OutputFails.

(** ** A penalty given in the header *)

Lemma In_all_RaceType rt : In rt all_RaceType.
Proof. destruct rt; simpl; auto. Qed.

Lemma mapM_length {A B : Type} (f : A -> Comp B) (l : list A) w v w' :
  mapM f l w = Ok (v, w') -> length v = length l.
Proof.
  revert w v. induction l as [|a l IH]; intros w v H; simpl in H.
  - inv_run H. reflexivity.
  - inv_run H. inv_run Hk. inv_run Hk0. simpl. f_equal. eapply IH, Hm0.
Qed.

Section OutputStops.
Variable prevseason : gmap string (RaceType -> Q).
Variable lszeroes : RaceType -> Q.
Variable fmt2 : Q -> string.
Variable fmtd : Z -> string.

(** The step of the loop of line 365. *)
Lemma tables_step_frames (st : list Racer * string) (rt : RaceType) :
  frames descends
    (let* t := category_table prevseason lszeroes fmt2 fmtd (fst st) rt in
     ret (fst t, snd st +:+ snd t)).
Proof.
  apply frames_bind; [apply _|apply category_table_frames|].
  intros t. apply frames_ret, _.
Qed.

Lemma category_table_string R k rt s :
  fails (string_race k rt s)
        (category_table prevseason lszeroes fmt2 fmtd R rt).
Proof.
  pose proof (string_race_stable k rt s) as HP.
  unfold category_table.
  apply fails_bind_later; [exact HP| |].
  { apply frames_mapM; [apply _|]. intros rc. apply best_avg_descends. }
  intros keys.
  apply fails_bind_later; [exact HP| |].
  { apply race_cells_frames. intros j rc. apply frames_ret, _. }
  intros cols.
  apply fails_bind_later; [exact HP|apply table_head_frames|]. intros h1.
  apply fails_bind_later; [exact HP|apply column_count_frames|]. intros i.
  apply fails_bind_later; [exact HP|apply table_head_frames|]. intros h2.
  apply fails_bind_now, penalties_line_fails.
Qed.

Lemma output_string year R k rt s :
  fails (string_race k rt s) (output prevseason lszeroes fmt2 fmtd year R).
Proof.
  pose proof (string_race_stable k rt s) as HP.
  unfold output.
  apply fails_bind_later; [exact HP|apply seasontable_frames|]. intros tF.
  apply fails_bind_later; [exact HP|apply zero_lines_frames|]. intros zs.
  apply fails_bind_later; [exact HP|apply seasontable_frames|]. intros tM.
  apply fails_bind_now.
  apply (fails_foldM _ HP) with (x := rt).
  - intros st a. apply tables_step_frames.
  - apply In_all_RaceType.
  - intros st. apply fails_bind_now, category_table_string.
Qed.

Lemma season_output_string year R k rt s :
  fails (string_race k rt s)
        (season_output prevseason lszeroes fmt2 fmtd year R).
Proof.
  pose proof (string_race_stable k rt s) as HP.
  unfold season_output.
  apply fails_bind_later; [exact HP|apply warm_up_descends|]. intros [].
  apply fails_bind_later; [exact HP|apply sort_racers_descends|].
  intros sorted.
  apply fails_bind_later; [exact HP|apply seasonobj_descends|]. intros obj.
  apply fails_bind_now, output_string.
Qed.

(** *** A row shorter than the header *)

Lemma detail_row_short R rt rc j :
  results rc !! j = None ->
  fails (category_race j rt) (detail_row prevseason lszeroes fmt2 R rt rc).
Proof.
  intros Hj. pose proof (category_race_stable j rt) as HP.
  unfold detail_row.
  apply fails_bind_later; [exact HP|apply best_two_descends|]. intros two.
  intros w Hw. rewrite bind_nraces. pose proof Hw as (r & E & T).
  refine (fails_bind_now _ _ _ _ w Hw).
  apply (fails_mapM _ HP) with (x := j).
  - intros a. apply detail_cell_frames.
  - eapply In_seq_lookup, E.
  - intros w1 (r1 & E1 & T1). exists IndexError.
    unfold detail_cell, bind, get_race.
    rewrite E1, T1, RaceType_eqb_refl, Hj. reflexivity.
Qed.

Lemma sorted_keys_perm {X : Type} (l : list X) (keys : list Q) :
  length keys = length l ->
  Permutation l (map fst (sort_by snd (zip l keys))).
Proof.
  intros H. rewrite <- (sort_by_perm snd (zip l keys)).
  rewrite fst_zip; [reflexivity|lia].
Qed.

Lemma category_table_perm R rt w R' t w' :
  category_table prevseason lszeroes fmt2 fmtd R rt w = Ok ((R', t), w') ->
  Permutation R R'.
Proof.
  unfold category_table. intros H. inv_run H.
  apply mapM_length in Hm.
  inv_runs. apply sorted_keys_perm, Hm.
Qed.

Lemma category_table_short R rt rc j :
  In rc R -> results rc !! j = None ->
  fails (category_race j rt)
        (category_table prevseason lszeroes fmt2 fmtd R rt).
Proof.
  intros I Hj. pose proof (category_race_stable j rt) as HP.
  unfold category_table. intros w Hw. unfold bind at 1.
  destruct (mapM (fun rc0 => best_avg prevseason lszeroes R rc0 rt) R w)
    as [[keys w1]|e] eqn:Ek; [|eauto].
  assert (Hw1 : category_race j rt w1).
  { eapply HP; [|exact Hw].
    eapply (frames_mapM descends); [|exact Ek].
    intros a. apply best_avg_descends. }
  pose proof (sorted_keys_perm R keys (mapM_length _ _ _ _ _ Ek)) as Hp.
  set (R' := map fst (sort_by snd (zip R keys))) in *.
  assert (I' : In rc R') by (eapply Permutation_in; eassumption).
  revert w1 Hw1 Ek. intros w1 Hw1 _. revert w1 Hw1.
  apply fails_bind_later; [exact HP| |].
  { apply race_cells_frames. intros k r. apply frames_ret, _. }
  intros cols.
  apply fails_bind_later; [exact HP|apply table_head_frames|]. intros h1.
  apply fails_bind_later; [exact HP|apply column_count_frames|]. intros i.
  apply fails_bind_later; [exact HP|apply table_head_frames|]. intros h2.
  apply fails_bind_later; [exact HP|apply penalties_line_frames|].
  intros pens. apply fails_bind_now.
  apply (fails_mapM _ HP) with (x := rc).
  - intros a. apply detail_row_frames.
  - exact I'.
  - apply detail_row_short, Hj.
Qed.

Lemma tables_short rc j rt l :
  results rc !! j = None -> In rt l ->
  forall st w, In rc (fst st) -> category_race j rt w ->
    exists e,
      foldM (fun st racetype =>
               let* t := category_table prevseason lszeroes fmt2 fmtd
                           (fst st) racetype in
               ret (fst t, snd st +:+ snd t))
            st l w = Raise e.
Proof.
  intros Hj. pose proof (category_race_stable j rt) as HP.
  induction l as [|a l IH]; intros I st w Ic Hw; [destruct I|].
  simpl. unfold bind at 1.
  destruct ((let* t := category_table prevseason lszeroes fmt2 fmtd
                         (fst st) a in
             ret (fst t, snd st +:+ snd t)) w)
    as [[st' w']|e] eqn:E; [|eauto].
  destruct (RaceType_eqb a rt) eqn:Ea.
  - apply RaceType_eqb_eq in Ea as ->. exfalso.
    destruct (category_table_short (fst st) rt rc j Ic Hj w Hw) as (e & Ee).
    rewrite (bind_Raise_intro _ _ _ _ Ee) in E. discriminate.
  - apply RaceType_eqb_neq in Ea.
    destruct I as [->|I]; [congruence|].
    assert (Hw' : category_race j rt w').
    { eapply HP; [|exact Hw]. eapply tables_step_frames, E. }
    apply IH; [exact I| |exact Hw'].
    inv_run E. inv_run Hk. simpl. destruct a0 as [R' t].
    eapply Permutation_in; [eapply category_table_perm, Hm|exact Ic].
Qed.

Lemma output_short year R rc j rt :
  In rc R -> results rc !! j = None ->
  fails (category_race j rt) (output prevseason lszeroes fmt2 fmtd year R).
Proof.
  intros I Hj. pose proof (category_race_stable j rt) as HP.
  unfold output.
  apply fails_bind_later; [exact HP|apply seasontable_frames|]. intros tF.
  apply fails_bind_later; [exact HP|apply zero_lines_frames|]. intros zs.
  apply fails_bind_later; [exact HP|apply seasontable_frames|]. intros tM.
  apply fails_bind_now. intros w Hw.
  apply (tables_short rc j rt all_RaceType Hj (In_all_RaceType rt)
           (R, EmptyString) w I Hw).
Qed.

Lemma sort_racers_perm R w sorted w' :
  sort_racers prevseason lszeroes R w = Ok (sorted, w') ->
  Permutation R sorted.
Proof.
  unfold sort_racers. intros H. inv_run H. apply mapM_length in Hm.
  inv_run Hk. apply sorted_keys_perm, Hm.
Qed.

Lemma season_output_short year R rc j rt :
  In rc R -> results rc !! j = None ->
  fails (category_race j rt)
        (season_output prevseason lszeroes fmt2 fmtd year R).
Proof.
  intros I Hj. pose proof (category_race_stable j rt) as HP.
  unfold season_output.
  apply fails_bind_later; [exact HP|apply warm_up_descends|]. intros [].
  intros w Hw. unfold bind at 1.
  destruct (sort_racers prevseason lszeroes R w) as [[sorted w1]|e] eqn:Es;
    [|eauto].
  assert (Hw1 : category_race j rt w1).
  { eapply HP; [eapply sort_racers_descends, Es|exact Hw]. }
  assert (I' : In rc sorted).
  { eapply Permutation_in; [eapply sort_racers_perm, Es|exact I]. }
  revert w1 Hw1 Es. intros w1 Hw1 _. revert w1 Hw1.
  apply fails_bind_later; [exact HP|apply seasonobj_descends|]. intros obj.
  apply fails_bind_now. apply output_short with (rc := rc); assumption.
Qed.
End OutputStops.

Lemma script_output_raises Decimal fmt2 fmtd year archive rows st
    (P : world -> Prop) :
  load_results Decimal rows = Ok st ->
  P (init_world (l_races st)) ->
  (forall prevseason lszeroes,
      fails P (season_output prevseason lszeroes fmt2 fmtd year
                 (l_racers st))) ->
  exists e, script_output Decimal fmt2 fmtd year archive rows = Raise e.
Proof.
  intros Hl HP Hf. unfold script_output.
  destruct archive as [obj|]; [|eauto].
  destruct (load_prevseason obj) as [[ps lz]|e]; [|simpl; eauto].
  simpl. rewrite Hl. simpl.
  destruct (Hf ps lz _ HP) as (e & E). exists e. unfold eval. rewrite E.
  reflexivity.
Qed.

(** X25.  A penalty given in the header stops the script, whatever the
    rest of the table: when the loader has given some race a string for a
    penalty, the run from line 47 to line 391 raises; the text of
    [output.tex] is never complete. *)
Theorem header_penalty_stops (Decimal : string -> option Q)
    (fmt2 : Q -> string) (fmtd : Z -> string) (year : Z)
    (archive : option (gmap string (gmap string Q)))
    (rows : list (list string)) (st : loader) :
  load_results Decimal rows = Ok st ->
  numeric_penalties (l_races st) = false ->
  exists e, script_output Decimal fmt2 fmtd year archive rows = Raise e.
Proof.
  intros Hl Hn.
  assert (Hs : exists k r s, l_races st !! k = Some r /\
                             _sto_penalty r = Some (VStr s)).
  { unfold numeric_penalties in Hn.
    induction (l_races st) as [|r l IH]; [discriminate|]. simpl in Hn.
    destruct (_sto_penalty r) as [[d|s]|] eqn:Ep.
    - destruct (IH Hn) as (k & r' & s & E & Hp). exists (S k), r', s. auto.
    - exists 0%nat, r, s. auto.
    - destruct (IH Hn) as (k & r' & s & E & Hp). exists (S k), r', s. auto. }
  destruct Hs as (k & r & s & E & Hp).
  apply (script_output_raises Decimal fmt2 fmtd year archive rows st
           (string_race k (rtype r) s) Hl).
  - exists r. auto.
  - intros ps lz. apply season_output_string.
Qed.

(** X26.  A row with fewer fields than the header is accepted by the
    loader, but the script cannot finish: when some racer has fewer
    results than there are races, the run from line 47 to line 391 raises,
    at the latest where the detail table of the category of a missing race
    asks for [results[j]]. *)
Theorem short_row_stops (Decimal : string -> option Q)
    (fmt2 : Q -> string) (fmtd : Z -> string) (year : Z)
    (archive : option (gmap string (gmap string Q)))
    (rows : list (list string)) (st : loader) (rc : Racer) :
  load_results Decimal rows = Ok st ->
  In rc (l_racers st) ->
  (length (results rc) < length (l_races st))%nat ->
  exists e, script_output Decimal fmt2 fmtd year archive rows = Raise e.
Proof.
  intros Hl I Hlt.
  destruct (lookup_lt_is_Some_2 (l_races st) (length (results rc)) Hlt)
    as [r E].
  apply (script_output_raises Decimal fmt2 fmtd year archive rows st
           (category_race (length (results rc)) (rtype r)) Hl).
  - exists r. auto.
  - intros ps lz.
    apply season_output_short with (rc := rc); [exact I|].
    apply lookup_ge_None. lia.
Qed.

(** ** A table the output can be written for *)

(** Loops whose every pass returns. *)
Lemma mapM_returns {A B : Type} (Inv : world -> Prop) (f : A -> Comp B)
    (l : list A) :
  (forall a w, In a l -> Inv w ->
     exists b w', f a w = Ok (b, w') /\ Inv w') ->
  forall w, Inv w -> exists bs w', mapM f l w = Ok (bs, w') /\ Inv w'.
Proof.
  induction l as [|a l IH]; intros Hf w Hw; simpl.
  - exists [], w. auto.
  - destruct (Hf a w (or_introl eq_refl) Hw) as (b & w1 & E & H1).
    destruct (IH (fun x w0 I => Hf x w0 (or_intror I)) w1 H1)
      as (bs & w2 & E2 & H2).
    exists (b :: bs), w2. split; [|exact H2].
    rewrite (bind_Ok_intro _ _ _ _ _ E), (bind_Ok_intro _ _ _ _ _ E2).
    reflexivity.
Qed.

Lemma mapM_pure {A B : Type} (f : A -> Comp B) (l : list A) (w : world) :
  (forall a, In a l -> exists b, f a w = Ok (b, w)) ->
  exists bs, mapM f l w = Ok (bs, w).
Proof.
  intros Hf.
  destruct (mapM_returns (fun w0 => w0 = w) f l) with (w := w)
    as (bs & w' & E & ->); [|reflexivity|eauto].
  intros a w0 I ->. destruct (Hf a I) as (b & E). eauto.
Qed.

Lemma foldM_pure {A B : Type} (f : B -> A -> Comp B) (l : list A)
    (w : world) :
  (forall acc a, In a l -> exists b, f acc a w = Ok (b, w)) ->
  forall acc, exists b, foldM f acc l w = Ok (b, w).
Proof.
  induction l as [|a l IH]; intros Hf acc; simpl.
  - eexists. reflexivity.
  - destruct (Hf acc a (or_introl eq_refl)) as (b & E).
    destruct (IH (fun c x I => Hf c x (or_intror I)) b) as (b' & E').
    exists b'. rewrite (bind_Ok_intro _ _ _ _ _ E). exact E'.
Qed.

Lemma full_rows_spec n R rc :
  full_rows n R = true -> In rc R ->
  indexed_from 0 (results rc) = true /\ length (results rc) = n.
Proof.
  unfold full_rows. rewrite forallb_forall. intros H I.
  specialize (H rc I). apply andb_true_iff in H as [H1 H2].
  split; [exact H1|]. apply Nat.eqb_eq, H2.
Qed.

Lemma full_rows_perm n R R' :
  Permutation R R' -> full_rows n R = true -> full_rows n R' = true.
Proof.
  unfold full_rows. rewrite !forallb_forall. intros Hp H rc I.
  apply H. eapply Permutation_in; [symmetry; exact Hp|exact I].
Qed.

Section OutputReturns.
Variable prevseason : gmap string (RaceType -> Q).
Variable lszeroes : RaceType -> Q.
Variable fmt2 : Q -> string.
Variable fmtd : Z -> string.
Variable n : nat.
Variable z : RaceType -> Q.

Local Abbreviation ready := (ready prevseason lszeroes n z).
Local Abbreviation settled := (settled prevseason lszeroes).

Lemma ready_perm R R' w : Permutation R R' -> ready R w -> ready R' w.
Proof.
  intros Hp (L & Z & N & S). repeat split; try assumption.
  intros rc rt I. apply S. eapply Permutation_in; [symmetry; exact Hp|exact I].
Qed.

Lemma ready_lookup R w k : ready R w -> (k < n)%nat -> exists r, races w !! k = Some r.
Proof.
  intros (L & _) H. apply lookup_lt_is_Some_2. lia.
Qed.

(** The points of a finished result of a racer whose averages are settled
    are stored. *)
Lemma season_memo_In w rt l ps r t rj :
  season_memo w rt l = Some ps -> In r l -> time r = Some t ->
  races w !! race r = Some rj -> rtype rj = rt ->
  exists p, points_memo w r = Some p.
Proof.
  revert ps. induction l as [|x l IH]; intros ps H I Ht E T; [destruct I|].
  simpl in H. destruct I as [->|I].
  - rewrite Ht, E, T, RaceType_eqb_refl in H.
    destruct (points_memo w r) as [p|]; [eauto|discriminate].
  - destruct (time x) as [tx|]; [|eapply IH; eassumption].
    destruct (races w !! race x) as [rx|]; [|discriminate].
    destruct (RaceType_eqb (rtype rx) rt); [|eapply IH; eassumption].
    destruct (points_memo w x); [|discriminate].
    destruct (season_memo w rt l) as [ps'|]; [|discriminate].
    eapply IH; [reflexivity|eassumption..].
Qed.

Lemma settled_season_memo w rc rt :
  settled w rc rt -> exists ps, season_memo w rt (results rc) = Some ps.
Proof.
  intros (avg & E & _). unfold avg_memo, best_two_memo in E.
  destruct (season_memo w rt (results rc)) as [ps|]; [eauto|discriminate].
Qed.

Lemma settled_points w rc r t rj :
  settled w rc (rtype rj) -> In r (results rc) -> time r = Some t ->
  races w !! race r = Some rj ->
  exists p, points_memo w r = Some p.
Proof.
  intros S I Ht E. destruct (settled_season_memo _ _ _ S) as (ps & Hps).
  eapply season_memo_In; [exact Hps|exact I|exact Ht|exact E|reflexivity].
Qed.

Lemma points_memo_penalty w r p rj :
  points_memo w r = Some p -> races w !! race r = Some rj ->
  exists q, _sto_penalty rj = Some (VDec q).
Proof.
  unfold points_memo. intros H E.
  destruct (time r) as [t|]; [|discriminate]. rewrite E in H.
  destruct (stored_best rj) as [b|]; [|discriminate].
  destruct (_sto_penalty rj) as [[pen|s]|]; try discriminate. eauto.
Qed.

(** A race without a stored penalty has no finisher. *)
Lemma ready_unfinished R w k rj :
  ready R w -> races w !! k = Some rj -> _sto_penalty rj = None ->
  forall rc x, In rc R -> In x (results rc) -> race x = k ->
               finished x = false.
Proof.
  intros (_ & _ & _ & S) E Hp rc x I Ix Hx.
  destruct (finished x) eqn:F; [|reflexivity].
  apply time_finished in F as (t & Ht). subst k.
  destruct (settled_points w rc x t rj (S rc _ I) Ix Ht E) as (p & Hpm).
  destruct (points_memo_penalty _ _ _ _ Hpm E) as (q & Hq). congruence.
Qed.

Lemma tt_finish_unfinished R k :
  (forall rc x, In rc R -> In x (results rc) -> race x = k ->
                finished x = false) ->
  tt_finish R k = [].
Proof.
  intros H. unfold tt_finish. rewrite filter_none; [reflexivity|].
  intros p I. apply roster_In in I as [I Ix].
  destruct (Nat.eqb_spec (race (snd p)) k) as [E|_]; [|reflexivity].
  rewrite (H _ _ I Ix E). reflexivity.
Qed.

Lemma BC_unfinished R k w rj :
  (forall rc x, In rc R -> In x (results rc) -> race x = k ->
                finished x = false) ->
  races w !! k = Some rj ->
  BC prevseason R k w = Ok ((0, 0), w).
Proof.
  intros H E. unfold BC, bind, get_race, points_finish.
  rewrite E, (tt_finish_unfinished R k H). reflexivity.
Qed.

Lemma B_unfinished R k w rj :
  (forall rc x, In rc R -> In x (results rc) -> race x = k ->
                finished x = false) ->
  races w !! k = Some rj ->
  exists b w', B prevseason R k w = Ok (b, w') /\ keeps w w'.
Proof.
  intros H E.
  assert (Hg : get_race k w = Ok (rj, w))
    by (unfold get_race; rewrite E; reflexivity).
  assert (Hr : exists b w', B prevseason R k w = Ok (b, w')).
  { unfold B. rewrite (bind_Ok_intro _ _ _ _ _ Hg).
    destruct (_sto_B rj) as [b|]; [eexists; eexists; reflexivity|].
    rewrite (bind_Ok_intro _ _ _ _ _ (BC_unfinished R k w rj H E)).
    eexists. eexists. reflexivity. }
  destruct Hr as (b & w' & Hr). exists b, w'. split; [exact Hr|].
  eapply B_keeps, Hr.
Qed.

Lemma C_unfinished R k w rj :
  (forall rc x, In rc R -> In x (results rc) -> race x = k ->
                finished x = false) ->
  races w !! k = Some rj ->
  exists c w', C prevseason R k w = Ok (c, w') /\ keeps w w'.
Proof.
  intros H E.
  assert (Hg : get_race k w = Ok (rj, w))
    by (unfold get_race; rewrite E; reflexivity).
  assert (Hr : exists c w', C prevseason R k w = Ok (c, w')).
  { unfold C. rewrite (bind_Ok_intro _ _ _ _ _ Hg).
    destruct (_sto_C rj) as [c|]; [eexists; eexists; reflexivity|].
    rewrite (bind_Ok_intro _ _ _ _ _ (BC_unfinished R k w rj H E)).
    eexists. eexists. reflexivity. }
  destruct Hr as (c & w' & Hr). exists c, w'. split; [exact Hr|].
  eapply C_keeps, Hr.
Qed.

Lemma keeps_no_string w w' : keeps w w' -> no_string w -> no_string w'.
Proof.
  intros K N k r' s E' Hp.
  destruct (same_zeroes_lookup_r _ _ _ _ _ K E') as (r & E & _ & P & _).
  apply (N k r s E). congruence.
Qed.

(** The penalty of a race can be computed, and it is a decimal. *)
Lemma penalty_ready R w k :
  ready R w -> (k < n)%nat ->
  exists p w', penalty prevseason R k w = Ok (VDec p, w') /\ ready R w'.
Proof.
  intros HR Hk. destruct (ready_lookup R w k HR Hk) as (rj & E).
  assert (Hg : get_race k w = Ok (rj, w))
    by (unfold get_race; rewrite E; reflexivity).
  pose proof HR as (L & Z & N & S).
  destruct (_sto_penalty rj) as [[p|s]|] eqn:Ep.
  - exists p, w. split; [|exact HR].
    unfold penalty. rewrite (bind_Ok_intro _ _ _ _ _ Hg), Ep. reflexivity.
  - destruct (N k rj s E Ep).
  - pose proof (ready_unfinished R w k rj HR E Ep) as Hu.
    assert (HA : exists a, A prevseason R k w = Ok (a, w)).
    { unfold A. rewrite (bind_Ok_intro _ _ _ _ _ Hg). eexists. reflexivity. }
    destruct HA as (a & HA).
    destruct (B_unfinished R k w rj Hu E) as (b & w1 & HB & K1).
    destruct (same_zeroes_lookup _ _ _ _ _ K1 E) as (r1 & E1 & _).
    destruct (C_unfinished R k w1 r1 Hu E1) as (c & w2 & HC & K2).
    assert (Hpen : exists w3, penalty prevseason R k w
                              = Ok (VDec ((a + b - c) / 10), w3)).
    { unfold penalty. rewrite (bind_Ok_intro _ _ _ _ _ Hg), Ep.
      rewrite (bind_Ok_intro _ _ _ _ _ HA), (bind_Ok_intro _ _ _ _ _ HB).
      rewrite (bind_Ok_intro _ _ _ _ _ HC). eexists. reflexivity. }
    destruct Hpen as (w3 & Hpen). exists ((a + b - c) / 10), w3.
    split; [exact Hpen|].
    pose proof (penalty_descends prevseason R k _ _ _ Hpen) as D.
    pose proof (penalty_grows_post _ _ _ _ _ _ Hpen) as ([Z3 G3] & _).
    assert (K : keeps w w2) by (etransitivity; eassumption).
    repeat split.
    + rewrite <- L. symmetry. eapply Forall2_length, G3.
    + congruence.
    + (* the races of [w3] are those of [w2] with the penalty of [k] set *)
      unfold penalty in Hpen.
      rewrite (bind_Ok_intro _ _ _ _ _ Hg), Ep in Hpen.
      rewrite (bind_Ok_intro _ _ _ _ _ HA), (bind_Ok_intro _ _ _ _ _ HB)
        in Hpen.
      rewrite (bind_Ok_intro _ _ _ _ _ HC) in Hpen.
      unfold bind, upd_race, ret in Hpen. injection Hpen as <-.
      intros j r' s Ej Hs. simpl in Ej.
      destruct (decide (k = j)) as [->|Hne].
      * rewrite list_lookup_alter_eq in Ej.
        destruct (races w2 !! j); [|discriminate].
        injection Ej as <-. discriminate.
      * rewrite list_lookup_alter_ne in Ej by exact Hne.
        apply (keeps_no_string _ _ K N j r' s Ej Hs).
    + intros rc rt I. eapply settled_descends; [exact D|apply S, I].
Qed.
End OutputReturns.

Section TablesReturn.
Variable prevseason : gmap string (RaceType -> Q).
Variable lszeroes : RaceType -> Q.
Variable fmt2 : Q -> string.
Variable fmtd : Z -> string.
Variable n : nat.
Variable z : RaceType -> Q.

Local Abbreviation ready := (ready prevseason lszeroes n z).
Local Abbreviation settled := (settled prevseason lszeroes).

Lemma settled_best_two R w rc rt :
  settled w rc rt ->
  exists two, best_two prevseason lszeroes R rc rt w = Ok (two, w).
Proof.
  intros (avg & E & _). unfold avg_memo in E.
  destruct (best_two_memo prevseason lszeroes w rc rt) as [two|] eqn:Et;
    [|discriminate].
  exists two. apply best_two_of_memo, Et.
Qed.

Lemma In_seq_lt k : In k (seq 0 n) -> (k < n)%nat.
Proof. intros H. apply in_seq in H. lia. Qed.

(** *** The season table *)

Lemma seasontable_row_ready R R' w rc :
  ready R w -> In rc R ->
  exists s, seasontable_row prevseason lszeroes fmt2 R' rc w = Ok (s, w).
Proof.
  intros (_ & _ & _ & S) I. unfold seasontable_row.
  destruct (mapM_pure
              (fun racetype =>
                 let* v := best_avg prevseason lszeroes R' rc racetype in
                 ret (" & " +:+ fmt2 v)) all_RaceType w) as (cells & Ec).
  { intros rt _. eexists.
    rewrite (bind_Ok_intro _ _ _ _ _
               (settled_best_avg_memo prevseason lszeroes R' rc rt w
                  (S rc rt I))).
    reflexivity. }
  rewrite (bind_Ok_intro _ _ _ _ _ Ec).
  rewrite (bind_Ok_intro _ _ _ _ _
             (settled_season_avg prevseason lszeroes R' rc w
                (fun rt => S rc rt I))).
  eexists. reflexivity.
Qed.

Lemma seasontable_ready R w g :
  ready R w ->
  exists s, seasontable prevseason lszeroes fmt2 R g w = Ok (s, w).
Proof.
  intros HR. unfold seasontable.
  match goal with
  | |- context [foldM ?f ?a R] =>
      destruct (foldM_pure f R w) with (acc := a) as (out & Eo)
  end.
  { intros acc rc I. destruct (Gender_eqb (gender rc) g).
    - destruct (seasontable_row_ready R R w rc HR I) as (row & Er).
      eexists. rewrite (bind_Ok_intro _ _ _ _ _ Er). reflexivity.
    - eexists. reflexivity. }
  rewrite (bind_Ok_intro _ _ _ _ _ Eo). eexists. reflexivity.
Qed.

(** *** The pieces of a detail table *)

Lemma race_cells_pure R w (f : nat -> Race -> Comp string) rt :
  ready R w ->
  (forall k rc, exists s, f k rc w = Ok (s, w)) ->
  exists s, race_cells f rt w = Ok (s, w).
Proof.
  intros HR Hf. unfold race_cells. rewrite bind_nraces.
  pose proof HR as (L & _). rewrite L.
  match goal with
  | |- context [mapM ?g (seq 0 n)] =>
      destruct (mapM_pure g (seq 0 n) w) as (cells & Ec)
  end.
  { intros k I. apply In_seq_lt in I.
    destruct (ready_lookup prevseason lszeroes n z R w k HR I) as (rc & E).
    unfold bind, get_race. rewrite E.
    destruct (RaceType_eqb (rtype rc) rt); [apply Hf|].
    eexists. reflexivity. }
  rewrite (bind_Ok_intro _ _ _ _ _ Ec). eexists. reflexivity.
Qed.

Lemma table_head_ready R w rt :
  ready R w -> exists s, table_head rt w = Ok (s, w).
Proof.
  intros HR. unfold table_head.
  destruct (race_cells_pure R w (fun _ rc => ret (" & " +:+ rname rc)) rt HR)
    as (names & En).
  { intros k rc. eexists. reflexivity. }
  rewrite (bind_Ok_intro _ _ _ _ _ En). eexists. reflexivity.
Qed.

Lemma column_count_ready R w rt :
  ready R w -> exists i, column_count rt w = Ok (i, w).
Proof.
  intros HR. unfold column_count. rewrite bind_nraces.
  pose proof HR as (L & _). rewrite L.
  apply foldM_pure. intros acc k I. apply In_seq_lt in I.
  destruct (ready_lookup prevseason lszeroes n z R w k HR I) as (rc & E).
  unfold bind, get_race. rewrite E. eexists. reflexivity.
Qed.

Lemma penalties_line_ready R w rt :
  ready R w ->
  exists s w', penalties_line prevseason fmt2 R rt w = Ok (s, w') /\
               ready R w'.
Proof.
  intros HR. unfold penalties_line, race_cells.
  pose proof HR as (L & _).
  match goal with
  | |- context [mapM ?g] =>
      destruct (mapM_returns (ready R) g (seq 0 n)) with (w := w)
        as (cells & w' & Ec & HR')
  end.
  { intros k w0 I HR0. apply In_seq_lt in I.
    destruct (ready_lookup prevseason lszeroes n z R w0 k HR0 I) as (rc & E).
    unfold bind at 1. unfold get_race. rewrite E.
    destruct (RaceType_eqb (rtype rc) rt); [|exists EmptyString, w0; auto].
    destruct (penalty_ready prevseason lszeroes n z R w0 k HR0 I)
      as (p & w1 & Ep & HR1).
    exists (" & " +:+ fmt2 p), w1. split; [|exact HR1].
    rewrite (bind_Ok_intro _ _ _ _ _ Ep). reflexivity. }
  { exact HR. }
  exists ("Race Penalties $\longrightarrow$ &" +:+ join cells
          +:+ " \\" +:+ nl +:+ "\hline" +:+ nl), w'.
  split; [|exact HR'].
  erewrite bind_Ok_intro; [reflexivity|].
  rewrite bind_nraces, L. rewrite (bind_Ok_intro _ _ _ _ _ Ec). reflexivity.
Qed.

Lemma detail_cell_ready R w rt rc j :
  ready R w -> full_rows n R = true -> In rc R -> (j < n)%nat ->
  exists s, detail_cell prevseason lszeroes fmt2 R rt rc j w = Ok (s, w).
Proof.
  intros HR HF I Hj.
  destruct (ready_lookup prevseason lszeroes n z R w j HR Hj) as (rj & E).
  unfold detail_cell. unfold bind at 1. unfold get_race. rewrite E.
  destruct (RaceType_eqb (rtype rj) rt) eqn:Ert;
    [|eexists; reflexivity].
  apply RaceType_eqb_eq in Ert.
  destruct (full_rows_spec n R rc HF I) as [Hi Hl].
  destruct (lookup_lt_is_Some_2 (results rc) j ltac:(lia)) as [r Er].
  rewrite Er.
  pose proof (indexed_from_lookup 0 _ j r Hi Er) as Hr. simpl in Hr.
  assert (Ir : In r (results rc)).
  { apply list_elem_of_In. eapply list_elem_of_lookup_2, Er. }
  destruct (time r) as [t|] eqn:Ht.
  - pose proof HR as (_ & _ & _ & S).
    assert (S1 : settled w rc (rtype rj)) by (apply S, I).
    destruct (settled_points prevseason lszeroes w rc r t rj S1 Ir Ht)
      as (p & Hp); [rewrite Hr; exact E|].
    pose proof (points_of_memo prevseason R w r p Hp) as Epts.
    rewrite <- Ert.
    destruct (settled_best_two R w rc (rtype rj) S1) as (two & Etwo).
    rewrite (bind_Ok_intro _ _ _ _ _ Epts).
    rewrite (bind_Ok_intro _ _ _ _ _ Epts).
    rewrite (bind_Ok_intro _ _ _ _ _ Etwo).
    rewrite (bind_Ok_intro _ _ _ _ _ Epts).
    eexists. reflexivity.
  - assert (Epts : points prevseason R r w = Ok (None, w))
      by (unfold points; rewrite Ht; reflexivity).
    rewrite (bind_Ok_intro _ _ _ _ _ Epts). eexists. reflexivity.
Qed.

Lemma detail_row_ready R w rt rc :
  ready R w -> full_rows n R = true -> In rc R ->
  exists s, detail_row prevseason lszeroes fmt2 R rt rc w = Ok (s, w).
Proof.
  intros HR HF I. pose proof HR as (L & _ & _ & S). unfold detail_row.
  destruct (settled_best_two R w rc rt (S rc rt I)) as (two & Etwo).
  rewrite (bind_Ok_intro _ _ _ _ _ Etwo), bind_nraces, L.
  destruct (mapM_pure (detail_cell prevseason lszeroes fmt2 R rt rc)
              (seq 0 n) w) as (cells & Ec).
  { intros j Ij. apply In_seq_lt in Ij.
    apply detail_cell_ready; assumption. }
  rewrite (bind_Ok_intro _ _ _ _ _ Ec). eexists. reflexivity.
Qed.

Lemma category_table_ready R w rt :
  ready R w -> full_rows n R = true ->
  exists R' t w',
    category_table prevseason lszeroes fmt2 fmtd R rt w = Ok ((R', t), w') /\
    Permutation R R' /\ ready R' w'.
Proof.
  intros HR HF. pose proof HR as (_ & _ & _ & S). unfold category_table.
  destruct (mapM_pure (fun rc => best_avg prevseason lszeroes R rc rt) R w)
    as (keys & Ek).
  { intros rc I. eexists. apply settled_best_avg_memo, S, I. }
  rewrite (bind_Ok_intro _ _ _ _ _ Ek).
  pose proof (sorted_keys_perm R keys (mapM_length _ _ _ _ _ Ek)) as Hp.
  set (R' := map fst (sort_by snd (zip R keys))) in *.
  pose proof (ready_perm prevseason lszeroes n z R R' w Hp HR) as HR'.
  pose proof (full_rows_perm n R R' Hp HF) as HF'.
  destruct (race_cells_pure R' w (fun _ _ => ret " c") rt HR') as (cols & E1).
  { intros k rc. eexists. reflexivity. }
  rewrite (bind_Ok_intro _ _ _ _ _ E1).
  destruct (table_head_ready R' w rt HR') as (h & E2).
  rewrite (bind_Ok_intro _ _ _ _ _ E2).
  destruct (column_count_ready R' w rt HR') as (i & E3).
  rewrite (bind_Ok_intro _ _ _ _ _ E3).
  rewrite (bind_Ok_intro _ _ _ _ _ E2).
  destruct (penalties_line_ready R' w rt HR') as (pens & w' & E4 & HR1).
  rewrite (bind_Ok_intro _ _ _ _ _ E4).
  destruct (mapM_pure (detail_row prevseason lszeroes fmt2 R' rt) R' w')
    as (rows & E5).
  { intros rc I. apply detail_row_ready; assumption. }
  rewrite (bind_Ok_intro _ _ _ _ _ E5).
  eexists R', _, w'. split; [reflexivity|]. split; [exact Hp|exact HR1].
Qed.

(** *** The whole text *)

Lemma output_ready year R w :
  ready R w -> full_rows n R = true ->
  exists tex w',
    output prevseason lszeroes fmt2 fmtd year R w = Ok (tex, w') /\
    zeroes w' = z.
Proof.
  intros HR HF. unfold output.
  destruct (seasontable_ready R w F HR) as (tF & E1).
  rewrite (bind_Ok_intro _ _ _ _ _ E1).
  assert (E2 : exists zs, zero_lines fmt2 w = Ok (zs, w))
    by (eexists; reflexivity).
  destruct E2 as (zs & E2). rewrite (bind_Ok_intro _ _ _ _ _ E2).
  destruct (seasontable_ready R w M HR) as (tM & E3).
  rewrite (bind_Ok_intro _ _ _ _ _ E3).
  destruct (category_table_ready R w GS HR HF)
    as (R1 & t1 & w1 & Ec1 & Hp1 & HR1).
  pose proof (full_rows_perm n R R1 Hp1 HF) as HF1.
  destruct (category_table_ready R1 w1 SC HR1 HF1)
    as (R2 & t2 & w2 & Ec2 & Hp2 & HR2).
  pose proof (full_rows_perm n R1 R2 Hp2 HF1) as HF2.
  destruct (category_table_ready R2 w2 CL HR2 HF2)
    as (R3 & t3 & w3 & Ec3 & Hp3 & HR3).
  assert (Et : foldM (fun st racetype =>
                        let* t := category_table prevseason lszeroes fmt2
                                    fmtd (fst st) racetype in
                        ret (fst t, snd st +:+ snd t))
                     (R, EmptyString) all_RaceType w
               = Ok ((R3, ((EmptyString +:+ t1) +:+ t2) +:+ t3), w3)).
  { unfold all_RaceType. simpl.
    erewrite bind_Ok_intro;
      [|rewrite (bind_Ok_intro _ _ _ _ _ Ec1); reflexivity].
    cbn [fst snd].
    erewrite bind_Ok_intro;
      [|rewrite (bind_Ok_intro _ _ _ _ _ Ec2); reflexivity].
    cbn [fst snd].
    erewrite bind_Ok_intro;
      [|rewrite (bind_Ok_intro _ _ _ _ _ Ec3); reflexivity].
    reflexivity. }
  rewrite (bind_Ok_intro _ _ _ _ _ Et).
  eexists. exists w3. split; [reflexivity|].
  destruct HR3 as (_ & Z & _). exact Z.
Qed.
End TablesReturn.

(** ** The script to the end of the output *)

Section ScriptReturns.
Variable prevseason : gmap string (RaceType -> Q).
Variable lszeroes : RaceType -> Q.
Variable fmt2 : Q -> string.
Variable fmtd : Z -> string.
Variable racers : list Racer.
Variable rs : list Race.
Hypothesis Hfresh : forallb fresh rs = true.
Hypothesis Hwf : roster_wf (length rs) racers = true.
Hypothesis Hpos : all_positive racers = true.
Hypothesis Hnum : numeric_penalties rs = true.
Hypothesis Hfull : full_rows (length rs) racers = true.

Lemma run_no_string w :
  run_on prevseason lszeroes racers rs w -> no_string w.
Proof.
  intros Hrun k r s E Hp.
  pose proof (run_on_memo_ok _ _ _ _ _ Hfresh Hrun) as [L H].
  assert (Hk : (k < length rs)%nat).
  { rewrite <- L. eapply lookup_lt_Some, E. }
  destruct (lookup_lt_is_Some_2 rs k Hk) as [r0 E0].
  destruct (H k r0 r E0 E) as (_ & _ & _ & _ & HP & _).
  destruct (penalty_value_Ok prevseason racers rs Hwf Hpos Hnum k r0 E0)
    as (p & Ev).
  rewrite (HP _ Hp) in Ev. discriminate.
Qed.

Lemma season_output_returns year :
  exists obj tex w1 w',
    season prevseason lszeroes racers (init_world rs) = Ok (obj, w1) /\
    season_output prevseason lszeroes fmt2 fmtd year racers (init_world rs)
    = Ok ((obj, tex), w') /\
    zeroes w' = zeroes w1.
Proof.
  destruct (warm_up_returns prevseason lszeroes racers rs Hfresh Hwf Hpos
              Hnum) as (w1 & Ew & Hrun).
  pose proof (warm_up_post _ _ _ _ _ _ Ew) as (_ & S & _).
  destruct (sort_racers_settled prevseason lszeroes racers w1 S)
    as (sorted & Es & Hp).
  assert (S' : forall rc rt, In rc sorted ->
                 settled prevseason lszeroes w1 rc rt).
  { intros rc rt I. apply S. eapply Permutation_in; [|exact I].
    symmetry. exact Hp. }
  assert (Eo : exists obj,
             seasonobj prevseason lszeroes sorted w1 = Ok (obj, w1)).
  { unfold seasonobj.
    rewrite (bind_Ok_intro _ _ _ _ _
               (seasonobj_fold_settled prevseason lszeroes sorted sorted ∅ w1
                  S')).
    rewrite (bind_Ok_intro _ _ _ _ _ (zeroes_entry_run w1)).
    eexists. reflexivity. }
  destruct Eo as (obj & Eo).
  assert (HR : ready prevseason lszeroes (length rs) (zeroes w1) sorted w1).
  { split; [|split; [reflexivity|split; [apply run_no_string, Hrun|]]].
    - apply (run_on_memo_ok _ _ _ _ _ Hfresh Hrun).
    - intros rc rt I. apply S', I. }
  destruct (output_ready prevseason lszeroes fmt2 fmtd (length rs) (zeroes w1)
              year sorted w1 HR (full_rows_perm _ _ _ Hp Hfull))
    as (tex & w' & Et & Z).
  exists obj, tex, w1, w'. split; [|split; [|exact Z]].
  - unfold season.
    rewrite (bind_Ok_intro _ _ _ _ _ Ew), (bind_Ok_intro _ _ _ _ _ Es).
    exact Eo.
  - unfold season_output.
    rewrite (bind_Ok_intro _ _ _ _ _ Ew), (bind_Ok_intro _ _ _ _ _ Es).
    rewrite (bind_Ok_intro _ _ _ _ _ Eo), (bind_Ok_intro _ _ _ _ _ Et).
    reflexivity.
Qed.
End ScriptReturns.


(** ** The output of the small season *)

Lemma given_rows_load : load_results ex_Decimal given_rows = Ok (loaded given_rows).
Proof. vm_compute. reflexivity. Defined.

Lemma short_rows_load : load_results ex_Decimal short_rows = Ok (loaded short_rows).
Proof. vm_compute. reflexivity. Defined.

(** The header [H1#GS#5.0] over a race nobody finished: the archive object
    can be computed, the output cannot. *)
Lemma header_penalty_stops_witness :
  exists e,
    script_output ex_Decimal mark2 markd 2015 (Some ex_archive) given_rows
    = Raise e.
Proof.
  apply (header_penalty_stops ex_Decimal mark2 markd 2015 (Some ex_archive)
           given_rows (loaded given_rows) given_rows_load).
  vm_compute. reflexivity.
Defined.

(** The row of B has no field for the second race. *)
Lemma short_row_stops_witness :
  exists e,
    script_output ex_Decimal mark2 markd 2015 (Some ex_archive) short_rows
    = Raise e.
Proof.
  apply (short_row_stops ex_Decimal mark2 markd 2015 (Some ex_archive)
           short_rows (loaded short_rows)
           (mkRacer "B" [Result_init (TDec 63) 0] F true) short_rows_load).
  - vm_compute. auto.
  - vm_compute. lia.
Defined.


(** ** The columns of a detail table *)

Lemma append_empty_r (s : string) : s +:+ EmptyString = s.
Proof.
  induction s as [|a s IH]; [reflexivity|].
  change (String a (s +:+ EmptyString) = String a s). rewrite IH. reflexivity.
Qed.

Lemma join_cons (x : string) (l : list string) : join (x :: l) = x +:+ join l.
Proof.
  unfold join. destruct l as [|y l]; simpl.
  - symmetry. apply append_empty_r.
  - reflexivity.
Qed.

Lemma join_filter {X : Type} (p : X -> bool) (a : X -> string) (l : list X) :
  join (map (fun x => if p x then a x else EmptyString) l)
  = join (map a (List.filter p l)).
Proof.
  induction l as [|x l IH]; [reflexivity|].
  cbn [map List.filter]. rewrite join_cons, IH.
  destruct (p x); [|reflexivity].
  cbn [map]. rewrite join_cons. reflexivity.
Qed.

Lemma map_const_repeat {X Y : Type} (y : Y) (l : list X) :
  map (fun _ => y) l = repeat y (length l).
Proof. induction l as [|x l IH]; simpl; [|rewrite IH]; reflexivity. Qed.

(** The loop over [range(len(races))] visits the races in order. *)
Lemma mapM_over_races {B : Type} (g : Race -> B) (l pre : list Race)
    (w : world) :
  races w = pre ++ l ->
  mapM (fun k => let* rc := get_race k in ret (g rc))
       (seq (length pre) (length l)) w
  = Ok (map g l, w).
Proof.
  revert pre. induction l as [|x l IH]; intros pre E; [reflexivity|].
  cbn [length seq mapM map].
  assert (Ex : races w !! length pre = Some x).
  { rewrite E. apply list_lookup_middle. reflexivity. }
  erewrite bind_Ok_intro;
    [|unfold bind, get_race; rewrite Ex; reflexivity].
  specialize (IH (pre ++ [x])). rewrite length_app in IH. simpl in IH.
  replace (length pre + 1)%nat with (S (length pre)) in IH by lia.
  rewrite (bind_Ok_intro _ _ _ _ _
             (IH ltac:(rewrite <- app_assoc; exact E))).
  reflexivity.
Qed.

Lemma foldM_over_races {B : Type} (g : B -> Race -> B) (l pre : list Race)
    (w : world) (acc : B) :
  races w = pre ++ l ->
  foldM (fun i k => let* rc := get_race k in ret (g i rc)) acc
        (seq (length pre) (length l)) w
  = Ok (fold_left g l acc, w).
Proof.
  revert pre acc. induction l as [|x l IH]; intros pre acc E; [reflexivity|].
  cbn [length seq foldM fold_left].
  assert (Ex : races w !! length pre = Some x).
  { rewrite E. apply list_lookup_middle. reflexivity. }
  erewrite bind_Ok_intro;
    [|unfold bind, get_race; rewrite Ex; reflexivity].
  specialize (IH (pre ++ [x])). rewrite length_app in IH. simpl in IH.
  replace (length pre + 1)%nat with (S (length pre)) in IH by lia.
  apply IH. rewrite <- app_assoc. exact E.
Qed.

Lemma count_fold (p : Race -> bool) (l : list Race) (i : nat) :
  fold_left (fun i rc => if p rc then S i else i) l i
  = (i + length (List.filter p l))%nat.
Proof.
  revert i. induction l as [|x l IH]; intros i; simpl; [lia|].
  rewrite IH. destruct (p x); simpl; lia.
Qed.

Lemma mapM_ext {A B : Type} (f g : A -> Comp B) (l : list A) (w : world) :
  (forall a w0, f a w0 = g a w0) -> mapM f l w = mapM g l w.
Proof.
  intros H. revert w. induction l as [|a l IH]; intros w; [reflexivity|].
  cbn [mapM]. unfold bind. rewrite H.
  destruct (g a w) as [[b w1]|e]; [|reflexivity].
  rewrite IH. reflexivity.
Qed.

Lemma mapM_ext_cells (racetype : RaceType) (a : Race -> string)
    (l : list nat) (w : world) :
  mapM (fun j =>
          let* rc := get_race j in
          if RaceType_eqb (rtype rc) racetype
          then ret (a rc) else ret EmptyString) l w
  = mapM (fun j =>
            let* rc := get_race j in
            ret (if RaceType_eqb (rtype rc) racetype
                 then a rc else EmptyString)) l w.
Proof.
  apply mapM_ext. intros j w0. unfold bind, get_race.
  destruct (races w0 !! j) as [rc|]; [|reflexivity].
  destruct (RaceType_eqb (rtype rc) racetype); reflexivity.
Qed.

(** X28.  The number given to [\multicolumn] in a detail table is the
    number of columns the table declares: two, and one more for every race
    of the category. *)
Theorem table_columns (racetype : RaceType) (w : world) :
  let k := length (List.filter
                     (fun rc => RaceType_eqb (rtype rc) racetype) (races w)) in
  column_count racetype w = Ok ((2 + k)%nat, w) /\
  race_cells (fun _ _ => ret " c") racetype w
  = Ok (join (repeat " c" k), w).
Proof.
  intros k. split.
  - unfold column_count. rewrite bind_nraces.
    pose proof (foldM_over_races
                  (fun i rc => if RaceType_eqb (rtype rc) racetype
                               then S i else i) (races w) [] w 2%nat eq_refl)
      as E.
    change (length (@nil Race)) with 0%nat in E. rewrite E.
    rewrite count_fold. reflexivity.
  - unfold race_cells. rewrite bind_nraces.
    pose proof (mapM_over_races
                  (fun rc => if RaceType_eqb (rtype rc) racetype
                             then " c" else EmptyString)
                  (races w) [] w eq_refl) as E.
    change (length (@nil Race)) with 0%nat in E.
    assert (E' : mapM (fun j =>
                         let* rc := get_race j in
                         if RaceType_eqb (rtype rc) racetype
                         then ret " c" else ret EmptyString)
                      (seq 0 (length (races w))) w
                 = Ok (map (fun rc => if RaceType_eqb (rtype rc) racetype
                                      then " c" else EmptyString) (races w),
                       w)).
    { rewrite <- E. apply (mapM_ext_cells racetype (fun _ => " c")). }
    rewrite (bind_Ok_intro _ _ _ _ _ E').
    rewrite (join_filter (fun rc => RaceType_eqb (rtype rc) racetype)
               (fun _ => " c") (races w)).
    rewrite map_const_repeat. reflexivity.
Qed.

(** ** A racer without a finish *)

Lemma season_points_unfinished prevseason R self rt w :
  (forall r, In r (results self) -> time r = None) ->
  season_points prevseason R self rt w = Ok ([], w).
Proof.
  unfold season_points. generalize (@nil Q) as acc.
  induction (results self) as [|r l IH]; intros acc H; [reflexivity|].
  simpl. unfold season_step at 1. rewrite (H r (or_introl eq_refl)).
  erewrite bind_Ok_intro; [|reflexivity].
  apply IH. intros x I. apply H. right. exact I.
Qed.

(** X29.  For a racer without a finished result, [best_two] returns the
    penalized carry twice and leaves the world as it is, in every category;
    for a racer the archive does not know, that value is the scale factor,
    as long as last season's zero factor is not below minus the scale
    factor. *)
Theorem unfinished_racer (prevseason : gmap string (RaceType -> Q))
    (lszeroes : RaceType -> Q) (R : list Racer) (self : Racer)
    (racetype : RaceType) (w : world) :
  (forall r, In r (results self) -> time r = None) ->
  best_two prevseason lszeroes R self racetype w
  = Ok ([last_penalized prevseason lszeroes self racetype;
         last_penalized prevseason lszeroes self racetype], w) /\
  (prevseason !! name self = None ->
   0 <= ffactor racetype + lszeroes racetype ->
   last_penalized prevseason lszeroes self racetype == ffactor racetype).
Proof.
  intros H. split.
  - unfold best_two.
    rewrite (bind_Ok_intro _ _ _ _ _
               (season_points_unfinished prevseason R self racetype w H)).
    unfold ret, pysort. simpl. rewrite Qltb_irrefl. reflexivity.
  - intros Hn Hz. unfold last_penalized, ls. rewrite Hn.
    destruct (inj self); rewrite pymin_Qmin; apply Q.min_r; lra.
Qed.

(** ** A round trip without loss *)

Lemma category_map_at (f : RaceType -> Q) (rt : RaceType) :
  list_to_map (M := gmap string Q)
    (map (fun this => (RaceType_name this, f this)) all_RaceType)
    !! RaceType_name rt
  = Some (f rt).
Proof. rewrite category_map_lookup. destruct rt; reflexivity. Qed.

Lemma clamp_entry_below (e : gmap string Q) (rt : RaceType) (v : Q) :
  e !! RaceType_name rt = Some v -> v <= ffactor rt -> clamp_entry e rt = v.
Proof.
  intros E L. unfold clamp_entry. rewrite E.
  apply Qltb_ge in L. rewrite L. reflexivity.
Qed.

(** X30.  The archive object of a run loads again, and then last season's
    zero factors are exactly the final zero factors of the run; and in a
    category whose final zero factor is not negative, the carried score of
    a racer is exactly the value written under the racer's name, with
    nothing lost to the clamp. *)
Theorem archive_round_trip_lossless
    (prevseason : gmap string (RaceType -> Q)) (lszeroes : RaceType -> Q)
    (racers : list Racer) (rs : list Race)
    (obj : gmap string (gmap string Q)) (w' : world) :
  season prevseason lszeroes racers (init_world rs) = Ok (obj, w') ->
  exists prevseason' lszeroes',
    load_prevseason obj = Ok (prevseason', lszeroes') /\
    (forall rt, lszeroes' rt = zeroes w' rt) /\
    (forall (self : Racer) rt e v,
        name self <> data_zeroes ->
        obj !! name self = Some e -> e !! RaceType_name rt = Some v ->
        0 <= zeroes w' rt ->
        ls prevseason' self rt = v).
Proof.
  intros H.
  destruct (season_stages _ _ _ _ _ _ H) as (sorted & Hw & Hp & ->).
  pose proof (warm_up_post _ _ _ _ _ _ Hw) as ([_ Z] & S & _).
  set (obj := <[data_zeroes := zeroes_map w']>
                (fold_left (insert_entry prevseason lszeroes w') sorted ∅)).
  assert (Hl : load_prevseason obj
               = Ok (clamp_entry <$> obj, clamp_entry (zeroes_map w'))).
  { apply load_prevseason_Ok; [|apply lookup_insert_eq].
    intros k e E. unfold obj in E.
    destruct (decide (data_zeroes = k)) as [<-|Hk].
    - rewrite lookup_insert_eq in E. injection E as <-.
      apply category_map_valid.
    - rewrite lookup_insert_ne in E by exact Hk.
      destruct (fold_insert_lookup prevseason lszeroes w' sorted ∅ k)
        as [(rc & _ & _ & E')|[_ E']]; rewrite E' in E.
      + injection E as <-. apply category_map_valid.
      + rewrite lookup_empty in E. discriminate. }
  exists (clamp_entry <$> obj), (clamp_entry (zeroes_map w')).
  split; [exact Hl|]. split.
  - intros rt. apply clamp_entry_below.
    + unfold zeroes_map. apply category_map_at.
    + apply (Z rt).
  - intros self rt e v Hn E Ev Hz.
    rewrite (load_prevseason_ls _ _ _ self rt Hl), E.
    apply clamp_entry_below; [exact Ev|].
    unfold obj in E. rewrite lookup_insert_ne in E by congruence.
    destruct (fold_insert_lookup prevseason lszeroes w' sorted ∅ (name self))
      as [(rc & I & N & E')|[N E']]; rewrite E' in E.
    + injection E as <-. unfold entry_memo in Ev.
      rewrite category_map_at in Ev. injection Ev as <-.
      assert (Ir : In rc racers).
      { eapply Permutation_in; [symmetry; exact Hp|exact I]. }
      destruct (S rc rt Ir) as (avg & Ea & L).
      unfold best_avg_memo. rewrite Ea.
      destruct (avg_memo_bound _ _ _ _ _ _ Ea) as [_ Lf]. lra.
    + rewrite lookup_empty in E. discriminate.
Qed.

(** The racer of the small season whose only result is a [DNF]. *)
Lemma unfinished_racer_witness :
  best_two ex_prevseason ex_lszeroes ex_racers ex_C GS (init_world ex_rs)
  = Ok ([last_penalized ex_prevseason ex_lszeroes ex_C GS;
         last_penalized ex_prevseason ex_lszeroes ex_C GS],
        init_world ex_rs) /\
  (ex_prevseason !! name ex_C = None ->
   0 <= ffactor GS + ex_lszeroes GS ->
   last_penalized ex_prevseason ex_lszeroes ex_C GS == ffactor GS).
Proof.
  apply (unfinished_racer ex_prevseason ex_lszeroes ex_racers ex_C GS
           (init_world ex_rs)).
  intros r [<-|[]]. reflexivity.
Defined.

(** The archive object of the small season, loaded again. *)
Lemma archive_round_trip_lossless_witness :
  exists prevseason' lszeroes',
    load_prevseason ex_obj = Ok (prevseason', lszeroes') /\
    (forall rt, lszeroes' rt = zeroes ex_warm rt) /\
    (forall (self : Racer) rt e v,
        name self <> data_zeroes ->
        ex_obj !! name self = Some e -> e !! RaceType_name rt = Some v ->
        0 <= zeroes ex_warm rt ->
        ls prevseason' self rt = v).
Proof.
  apply (archive_round_trip_lossless ex_prevseason ex_lszeroes ex_racers
           ex_rs ex_obj ex_warm ex_season_run).
Defined.
